(* ===== verification/_CoqProject ===== *)
-Q . S2P
Prelude.v
Tile.v
Objects.v
Construct.v
Cells.v
Score.v
Snapshot.v
Observe.v
Machine.v
Refine.v
Typed.v
Fill.v
Lookahead.v
