(* ===== verification/Prelude.v ===== *)
(** * A verification library for the 2048z grid ([src/js/grid_zen.js])

    ** The program

    [src/js/grid_zen.js] is the [Grid] of a 2048 variant: a [size × size]
    matrix [cells] of tile references or [null], a cached
    [highestTileLogValue] and a [playerTurn] annotation.  Its methods are
    the constructor and [empty]/[fromState] (lines 1-35), the cell queries
    and updates [randomAvailableCell], [availableCells], [eachCell],
    [cellsAvailable], [cellAvailable], [cellOccupied], [cellContent],
    [insertTile], [removeTile], [withinBounds] (37-101), the low-value
    scans [lowestTileLogValue] and [evenNumLowValues] (105-132), the
    difficulty-aware [getHighestTileLogValue] and [getGeneratedTileValue]
    (134-148), the score heuristic [getScore] (150-184), and the snapshot
    and copy [serialize] and [clone] (186-215).  Tiles are objects of an
    external [Tile] class; [gameDifficulty] is a global owned elsewhere.

    ** How it is modelled

    - [Prelude] (this file): JavaScript arrays read and written by index
      ([js_index], [js_store]: [undefined] past the end, growth with
      holes, writes at non-index keys lost), numbers that may be NaN or
      infinite ([jsnum]), and the state/exception monad [ST] the methods
      run in ([None] is an uncaught [TypeError]), with its loops [st_for],
      [st_map], [st_fold], [for_acc] and their invariant lemmas.
    - [Tile]: the [Tile] collaborator, not in the sources, modelled from
      the spec as the class [Tile.Intf] with the laws [Tile.Laws] the grid
      relies on; [Tile.Impl] is the spec's tile.  Everything else is
      proved for any [Tile.Laws] instance.
    - [Objects]: the heap.  A [store] maps locations to tile and grid
      objects and holds the allocation counter and the implicit global
      [newGrid]; [Grid.t] is the grid object's fields; [read_cell] and
      [write_cell] are [this.cells[x][y]] and its assignment.  Grids and
      tiles are references, so aliasing between a grid and its copy is
      observable in the model.
    - [Construct]: [new Grid(size, previousState)], [empty], [fromState].
    - [Cells]: every method of lines 37-101, [Math.random()] being an
      argument in [[0, 1)]; the invariant [grid_inv] (one row per
      [x < size], every tile stored at its own coordinates).
    - [Score]: [getScore], [getGeneratedTileValue], [lowestTileLogValue],
      [evenNumLowValues], with [gameDifficulty] a section variable.
      Arithmetic is exact over [Q]; the rounding of double additions is
      not modelled.  [vals.sort] is stdpp's merge sort with the same
      comparator: any correct sort gives the same list ([sort_desc_unique]).
    - [Snapshot]: [serialize] and [clone], and the observable [board] of
      a grid (the snapshot [serialize] returns).
    - [Observe]: the partial equivalence [board_equiv] of well-formed
      grids with the same board, and the [Proper] instances showing that
      the empty cells and the log values, hence [availableCells] and
      [getScore], respect it.
    - [Machine]: the grid's operations as a state machine: [op_step]
      (allocate a tile, [new Grid], [insertTile], [removeTile],
      [getScore], the [playerTurn] annotation, the global [newGrid]) and
      [step], which adds [clone]; [clone] is itself a sequence of
      [op_step]s ([clone_steps]).  The invariant [machine_inv] of the
      stores [reachable] from the empty store is proved by rule
      induction.
    - [Refine]: the abstract board, a finite map ([gmap]) from
      coordinates to log values, with abstract [insert], [remove],
      [score] and [available] operations ([a_step], [a_run]); the
      abstraction [abs] reads a grid's board through the store, and the
      call sequences [run_ops] of [insertTile], [removeTile], [getScore]
      and [availableCells] on one grid are simulated by [a_run].
    - [Typed]: [snapshot_typed], the shape of the plain data [serialize]
      returns and [new Grid(size, cells)] reads, as a boolean check.
    - [Lookahead]: the composition of [Observe], [Refine] and
      [Snapshot]: grids with the same board answer every call sequence
      alike ([run_ops_board_equiv]); the calls on one grid leave every
      other object of the store alone ([Refine.frame]).
    - [Fill]: the random-tile placement the spec describes for the
      callers of [randomAvailableCell] ([addRandomTile]: draw a cell,
      allocate [new Tile(cell, value)], [insertTile]) and its repetition
      over a list of draws ([fill]); each add is a sequence of [op_step]s.

    Each method is one definition composed of the heap primitives in the
    order the code performs them; every loop of the code is a loop over
    [range n] or a fuelled loop.  The only fuelled loop is the [for] of
    [getScore] ([way2_loop]), run with fuel [vals.length]: each iteration
    increments [i] and the loop stops once [vals[i]] is [undefined], so
    [vals.length] iterations suffice, and [way2_loop_fuel] shows that more
    fuel changes nothing.

    ** What is proved

    - Cells: [availableCells] is exactly the empty cells, without
      repetition and in row-major order; [randomAvailableCell] is uniform
      over them; [insertTile]/[removeTile] write the tile's own cell and
      preserve [grid_inv]; [cellContent] reads back what was inserted;
      the error paths ([TypeError] for a tile outside the rows, for
      [cellContent] on boards smaller than [4 × 4]) and the blind spot of
      [cellAvailable] on boards larger than [4 × 4]; a fresh [new
      Grid(size)] has [size × size] available cells, and [cellsAvailable]
      holds on it exactly when [size] is positive (the spec's "for any
      size" fails at [0]).
    - Score: the score of a non-empty board is finite and in [[h-1, h)]
      (the division the spec worries about never has a zero divisor), the
      cache holds the maximum, the score depends only on the multiset of
      values, an empty board gives NaN; the generated value is
      [max(ceil(h/2), h - gameDifficulty)]; the low-value scans compute
      the minimum and the parity of its count, throw on small boards, and
      are wrong with negative log values.
    - Snapshot: [serialize] records each tile with its cell's coordinates;
      [new Grid(size, serialize().cells)] serializes back to the same
      snapshot; [clone] yields a grid with the original's snapshot and
      [playerTurn], fresh tiles, the original store untouched, and
      [insertTile]/[removeTile] on the copy cannot reach the original.

    - Machine: every reachable store is well formed and all its grids
      satisfy [grid_inv]; their queries never throw; a snapshot whose
      positions disagree with its indices breaks [removeTile].
    - Refine: every call sequence on tiles of the board refines the
      abstract board ([run_ops_refines], by induction over the sequence
      from one commuting square per method), and [removeTile] undoes
      [insertTile] on an empty cell.
    - Typed: [serialize] only returns snapshots of the documented shape,
      and [new Grid] loads every such snapshot without a [TypeError] into
      a well-formed grid that serializes back to the snapshot.
    - Lookahead: every sequence of [insertTile], [removeTile],
      [getScore] and [availableCells] calls gives on the copy [clone]
      returns, and on the grid restored from a snapshot, the results it
      gives on the original, and leaves the original grid and its tiles
      unchanged: the look-ahead and persistence the spec prescribes are
      faithful.
    - Fill (liveness): on a reachable store, whatever the draws of
      [Math.random()], a driver that keeps adding random tiles fills a
      grid with [k] empty cells after exactly [k] adds, each add filling
      one cell (the number of empty cells is the variant), and the store
      stays reachable.

    Witnesses run the theorems on the concrete boards of [Cells]
    ([ex_store] and others) by evaluation.

    ** Not modelled

    Every function of [src/js/grid_zen.js] has a definition; what is
    left out is outside the file or below the level of its arithmetic:
    - the game loop, input, rendering and persistence I/O, which are not
      in the sources (of the game, only the random-tile placement the
      spec describes is modelled, in [Fill]), and the owner of
      [gameDifficulty], a parameter here;
    - the rounding of double-precision arithmetic: [getScore] is computed
      exactly over [Q].  The comparisons the code makes ([vals[i] >
      lowTile], the comparator [b - a], the bounds of the loops) are on
      integers and exact in doubles, so only the numeric value of the
      score can differ, by rounding.  The strict upper bound of
      [getScore_bounds] is exact-arithmetic only: in doubles, sixteen
      equal tiles with [h >= 17] and [gameDifficulty = 1] score exactly
      [h], since [h - 1 + 0.999999999999999] rounds to [h];
    - non-integer or non-number sizes and coordinates (the callers only
      pass integers).  [clone] and the call sequences are proved for
      sizes up to [2^32 - 1], the longest JavaScript array. *)

From stdpp Require Export base list gmap sorting.
From Stdlib Require Export ZArith.
From Stdlib Require Import QArith Qround.
Close Scope Q_scope.

(** ** Prelude: the JavaScript values and arrays the grid code relies on,
    the state/exception monad the methods are written in, loops, and the
    shared lemmas and automation. *)

Declare Scope js_scope.
Delimit Scope js_scope with js.

(** ** JavaScript arrays indexed by numbers *)

(** [a[i]] for an integer [i]: [undefined] (here [None]) outside
    [0 <= i < a.length]. *)
Definition js_index {A} (l : list A) (i : Z) : option A :=
  if decide (0 ≤ i)%Z then l !! Z.to_nat i else None.

(** The largest array index of ECMAScript ([2^32 - 2]); a write at a larger
    or negative key creates a plain property that no index read sees. *)
Definition js_max_index : Z := 4294967294.

(** The length of the longest JavaScript array, [2^32 - 1]. *)
Definition js_max_length : Z := js_max_index + 1.

(** [a[i] = v]: overwrite in range, extend with holes [hole] past the end,
    and leave the indexed elements alone for a key that is not an array
    index. *)
Definition js_store {A} (hole : A) (l : list A) (i : Z) (v : A) : list A :=
  if decide (0 ≤ i ≤ js_max_index)%Z then
    if decide (Z.to_nat i < length l) then <[Z.to_nat i := v]> l
    else l ++ replicate (Z.to_nat i - length l) hole ++ [v]
  else l.

(** [for (var i = 0; i < n; i++)] visits [range n]. *)
Definition range (n : Z) : list Z := seqZ 0 n.

(** ** Numbers that may be non-finite *)

(** A JavaScript number produced by the score arithmetic: [Some q] is a
    finite value, [None] is NaN or an infinity; both absorb every later
    addition or multiplication. *)
Definition jsnum := option Q.


(** [a / b]: finite unless the divisor is zero ([x/0] is an infinity,
    [0/0] is NaN). *)
Definition js_div (a b : Q) : jsnum :=
  if Qeq_bool b 0 then None else Some (a / b)%Q.

(** [a > b] where [b] may be NaN: a comparison with NaN is false. *)
Definition js_gtZ (a : Z) (b : option Z) : bool :=
  match b with Some b => (b <? a)%Z | None => false end.

(** ** The state and exception monad *)

(** A method run from a store [S]: [None] is an uncaught [TypeError]. *)
Definition ST (S A : Type) : Type := S → option (A * S).

Definition st_ret {S A} (a : A) : ST S A := λ s, Some (a, s).
Definition st_bind {S A B} (m : ST S A) (k : A → ST S B) : ST S B :=
  λ s, match m s with Some (a, s') => k a s' | None => None end.
Definition st_throw {S A} : ST S A := λ _, None.
(** A pure computation that may throw. *)
Definition st_lift {S A} (o : option A) : ST S A :=
  λ s, match o with Some a => Some (a, s) | None => None end.

Notation "'do' x <- m ; k" := (st_bind m (λ x, k))
  (at level 10, x name, m at level 100, k at level 200) : js_scope.
Notation "'do' ' p <- m ; k" := (st_bind m (λ q, let p := q in k))
  (at level 10, p pattern, m at level 100, k at level 200) : js_scope.
Notation "m ;; k" := (st_bind m (λ _, k))
  (at level 100, k at level 200) : js_scope.

Open Scope js_scope.

(** A loop whose body runs in the monad, over the visited indices. *)
Fixpoint st_for {S A} (l : list A) (body : A → ST S unit) : ST S unit :=
  match l with
  | [] => st_ret tt
  | a :: l' => body a ;; st_for l' body
  end.

(** A loop whose body is pure but may throw, threading an accumulator. *)
Fixpoint for_acc {A C} (l : list A) (body : A → C → option C) (c : C) : option C :=
  match l with
  | [] => Some c
  | a :: l' => body a c ≫= for_acc l' body
  end.

(** ** Arrays of nullable elements

    [a[i]] on an array whose elements are objects or [null]: an element, or
    nothing when the element is [null], a hole, or past the end. *)
Definition js_elem {A} (l : list (option A)) (i : Z) : option A :=
  default None (js_index l i).

(** ** A monadic loop threading an accumulator *)

Fixpoint st_fold {S A C} (l : list A) (body : A → C → ST S C) (c : C) : ST S C :=
  match l with
  | [] => st_ret c
  | a :: l' => do c' <- body a c; st_fold l' body c'
  end.

(** [row.push(f(i))] for every [i] of the loop: the array of the results. *)
Fixpoint st_map {S A B} (l : list A) (f : A → ST S B) : ST S (list B) :=
  match l with
  | [] => st_ret []
  | a :: l' => do b <- f a; do bs <- st_map l' f; st_ret (b :: bs)
  end.

(** ** Automation *)

Create HintDb grid.
Create Rewrite HintDb grid_rw.

(** ** Shared lemmas *)

Lemma js_index_lookup {A} (l : list A) (i : nat) :
  js_index l (Z.of_nat i) = l !! i.
Proof. unfold js_index. rewrite decide_True by lia. by rewrite Nat2Z.id. Qed.

Lemma js_index_neg {A} (l : list A) (i : Z) : (i < 0)%Z → js_index l i = None.
Proof. intros. unfold js_index. by rewrite decide_False by lia. Qed.

Lemma js_index_Some {A} (l : list A) (i : Z) (a : A) :
  js_index l i = Some a ↔ (0 ≤ i)%Z ∧ l !! Z.to_nat i = Some a.
Proof. unfold js_index. case_decide; naive_solver. Qed.

Lemma js_index_in_range {A} (l : list A) (i : Z) :
  (0 ≤ i < Z.of_nat (length l))%Z → is_Some (js_index l i).
Proof.
  intros. unfold js_index. rewrite decide_True by lia.
  apply lookup_lt_is_Some. lia.
Qed.

Lemma js_index_None {A} (l : list A) (i : Z) :
  js_index l i = None ↔ (i < 0 ∨ Z.of_nat (length l) ≤ i)%Z.
Proof.
  unfold js_index. case_decide; [|naive_solver lia].
  rewrite lookup_ge_None. lia.
Qed.

Lemma for_acc_app {A C} (l1 l2 : list A) (body : A → C → option C) c :
  for_acc (l1 ++ l2) body c = for_acc l1 body c ≫= for_acc l2 body.
Proof.
  revert c. induction l1 as [|a l1 IH]; intros c; simpl; [done|].
  destruct (body a c); simpl; [apply IH|done].
Qed.

(** A loop whose body never throws computes a fold. *)
Lemma for_acc_total {A C} (l : list A) (body : A → C → option C) (f : A → C → C) c :
  (∀ a c, a ∈ l → body a c = Some (f a c)) →
  for_acc l body c = Some (foldl (λ c a, f a c) c l).
Proof.
  revert c. induction l as [|a l IH]; intros c Hb; simpl; [done|].
  rewrite Hb by set_solver. simpl. apply IH. intros. apply Hb. set_solver.
Qed.

Lemma range_elem (n i : Z) : i ∈ range n ↔ (0 ≤ i < n)%Z.
Proof. unfold range. rewrite elem_of_seqZ. lia. Qed.

Lemma length_range (n : Z) : length (range n) = Z.to_nat n.
Proof. apply length_seqZ. Qed.


Lemma js_elem_store_eq {A} (l : list (option A)) (i : Z) (v : option A) :
  (0 ≤ i ≤ js_max_index)%Z → js_elem (js_store None l i v) i = v.
Proof.
  intros Hi. unfold js_elem, js_store, js_index.
  rewrite !decide_True by lia. case_decide.
  - by rewrite list_lookup_insert_eq.
  - rewrite lookup_app_r by lia. rewrite lookup_app_r; rewrite length_replicate; [|lia].
    by replace (Z.to_nat i - length l - (Z.to_nat i - length l))%nat with 0%nat by lia.
Qed.

Lemma js_elem_store_ne {A} (l : list (option A)) (i j : Z) (v : option A) :
  j ≠ i → js_elem (js_store None l i v) j = js_elem l j.
Proof.
  intros Hij. unfold js_elem, js_store, js_index.
  case_decide; [|done]. case_decide as Hj; [|done].
  assert (Z.to_nat j ≠ Z.to_nat i) by lia.
  case_decide.
  - by rewrite list_lookup_insert_ne.
  - destruct (decide (Z.to_nat j < length l)).
    + by rewrite lookup_app_l.
    + rewrite lookup_app_r by lia. rewrite (lookup_ge_None_2 l) by lia.
      destruct (decide (Z.to_nat j - length l < Z.to_nat i - length l)%nat).
      * rewrite lookup_app_l by (rewrite length_replicate; lia).
        by rewrite lookup_replicate_2 by lia.
      * rewrite lookup_app_r by (rewrite length_replicate; lia).
        rewrite lookup_ge_None_2; [done|]. rewrite length_replicate. simpl. lia.
Qed.

Lemma js_store_invalid {A} (hole : A) (l : list A) (i : Z) (v : A) :
  ¬ (0 ≤ i ≤ js_max_index)%Z → js_store hole l i v = l.
Proof. intros. unfold js_store. by rewrite decide_False. Qed.

(** A loop body that reads the state but does not change it computes a
    fold. *)
Lemma st_fold_pure {S A C} (l : list A) (body : A → C → ST S C) (f : A → C → C) c (s : S) :
  (∀ a c, a ∈ l → body a c s = Some (f a c, s)) →
  st_fold l body c s = Some (foldl (λ c a, f a c) c l, s).
Proof.
  revert c. induction l as [|a l IH]; intros c Hb; simpl; [done|].
  unfold st_bind. rewrite Hb by set_solver. apply IH. intros. apply Hb. set_solver.
Qed.

(** Likewise for a map whose function does not change the state. *)
Lemma st_map_pure {S A B} (l : list A) (f : A → ST S B) (g : A → B) (s : S) :
  (∀ a, a ∈ l → f a s = Some (g a, s)) →
  st_map l f s = Some (g <$> l, s).
Proof.
  induction l as [|a l IH]; intros Hf; simpl; [done|].
  unfold st_bind, st_ret. rewrite Hf by set_solver. rewrite IH; [done|].
  intros. apply Hf. set_solver.
Qed.

(** Folding over the pairs a nested loop visits. *)
Lemma foldl_bind {A B C} (f : C → B → C) (g : A → list B) (c : C) (l : list A) :
  foldl f c (l ≫= g) = foldl (λ c a, foldl f c (g a)) c l.
Proof.
  revert c. induction l as [|a l IH]; intros c; [done|].
  by rewrite bind_cons, foldl_app, IH.
Qed.

Lemma length_bind_const {A B} (l : list A) (f : A → list B) (n : nat) :
  (∀ a, length (f a) = n) → length (l ≫= f) = (length l * n)%nat.
Proof. intros Hf. induction l as [|a l IH]; [done|]. rewrite bind_cons, length_app, IH, Hf. simpl. lia. Qed.

(** ** Rationals: the floor and division facts the random pick uses *)

Lemma Qfloor_unique (q : Q) (k : Z) :
  (inject_Z k <= q < inject_Z (k + 1))%Q → Qfloor q = k.
Proof.
  intros [Hlo Hhi].
  assert (k < Qfloor q + 1)%Z.
  { rewrite Zlt_Qlt. eapply Qle_lt_trans; [exact Hlo|apply Qlt_floor]. }
  assert (Qfloor q < k + 1)%Z.
  { rewrite Zlt_Qlt. eapply Qle_lt_trans; [apply Qfloor_le|exact Hhi]. }
  lia.
Qed.

Lemma Qdiv_le_mult (a b c : Q) : (0 < b → a / b <= c → a <= c * b)%Q.
Proof.
  intros Hb H. destruct (Qlt_le_dec (c * b) a) as [Hlt|]; [|done].
  apply (Qlt_shift_div_l c a b Hb) in Hlt. by apply Qlt_not_le in Hlt.
Qed.

Lemma Qlt_div_mult (a b c : Q) : (0 < b → c < a / b → c * b < a)%Q.
Proof.
  intros Hb H. destruct (Qlt_le_dec (c * b) a) as [|Hle]; [done|].
  apply (Qle_shift_div_r a b c Hb) in Hle. by apply Qle_not_lt in Hle.
Qed.

Lemma filter_all {A} (P : A → Prop) `{!∀ a, Decision (P a)} (l : list A) :
  Forall P l → filter P l = l.
Proof. induction 1; [done|]. rewrite filter_cons_True by done. by f_equal. Qed.

Lemma js_div_finite (a b : Q) : ¬ (b == 0)%Q → js_div a b = Some (a / b)%Q.
Proof.
  intros Hb. unfold js_div. destruct (Qeq_bool b 0) eqn:E; [|done].
  by apply Qeq_bool_eq in E.
Qed.

Lemma js_div_zero (a b : Q) : (b == 0)%Q → js_div a b = None.
Proof. intros Hb. unfold js_div. by rewrite Qeq_eq_bool. Qed.

Lemma inject_Z_sub (a b : Z) : (inject_Z (a - b) == inject_Z a - inject_Z b)%Q.
Proof. unfold Qeq. simpl. lia. Qed.

#[export] Hint Resolve js_index_in_range : grid.
#[export] Hint Rewrite @js_index_lookup @length_range : grid_rw.

(** A fold over the defined images of [f]. *)
Lemma foldl_omap {A B C} (F : C → B → C) (f : A → option B) (c : C) (l : list A) :
  foldl F c (omap f l) = foldl (λ c a, match f a with Some b => F c b | None => c end) c l.
Proof. revert c. induction l as [|a l IH]; intros c; simpl; [done|]. destruct (f a); apply IH. Qed.

(** [acc.push(v)] for every [v] of [l]. *)
Lemma foldl_push (acc l : list Z) : foldl (λ acc v, acc ++ [v]) acc l = acc ++ l.
Proof.
  revert acc. induction l as [|v l IH]; intros acc; simpl; [by rewrite app_nil_r|].
  by rewrite IH, <-app_assoc.
Qed.

(** A loop whose body at [a] always throws throws. *)
Lemma st_fold_throw {S A C} (l : list A) (body : A → C → ST S C) (a : A) c (s : S) :
  a ∈ l → (∀ c s, body a c s = None) → st_fold l body c s = None.
Proof.
  intros Ha Hb. revert c s. induction l as [|a' l IH]; intros c s; [by apply not_elem_of_nil in Ha|].
  simpl. unfold st_bind. apply elem_of_cons in Ha as [->|Ha].
  - by rewrite Hb.
  - destruct (body a' c s) as [[c' s']|]; [by apply IH|done].
Qed.

Lemma js_elem_Some {A} (l : list (option A)) (i : Z) (a : A) :
  js_elem l i = Some a ↔ js_index l i = Some (Some a).
Proof. unfold js_elem. destruct (js_index l i) as [[]|]; naive_solver. Qed.

(** Folding over the pairs [(x, y)] of two nested loops. *)
Lemma foldl_pairs {A B C} (f : C → A * B → C) (c : C) (xs : list A) (ys : list B) :
  foldl f c (xs ≫= λ x, (λ y, (x, y)) <$> ys) =
  foldl (λ c x, foldl (λ c y, f c (x, y)) c ys) c xs.
Proof.
  revert c. induction xs as [|x xs IH]; intros c; [done|].
  by rewrite bind_cons, foldl_app, foldl_fmap, IH.
Qed.

(** [trace.push(f(a))] for every [a] of [l]. *)
Lemma foldl_push_map {A B} (f : A → B) (acc : list B) (l : list A) :
  foldl (λ acc a, acc ++ [f a]) acc l = acc ++ (f <$> l).
Proof.
  revert acc. induction l as [|a l IH]; intros acc; simpl; [by rewrite app_nil_r|].
  by rewrite IH, <-app_assoc.
Qed.

(** ** Loops that change the state *)

(** A loop over [l1 ++ l2] runs the loop over [l1], then over [l2]. *)
Lemma st_for_app {S A} (l1 l2 : list A) (body : A → ST S unit) (s : S) :
  st_for (l1 ++ l2) body s = (st_for l1 body ;; st_for l2 body) s.
Proof.
  revert s. induction l1 as [|a l1 IH]; intros s; [done|]. simpl.
  unfold st_bind. destruct (body a s) as [[[] s1]|]; [|done].
  rewrite IH. reflexivity.
Qed.

(** Two nested loops are one loop over the pairs they visit. *)
Lemma st_for_bind {S A B} (l : list A) (f : A → list B) (body : B → ST S unit) (s : S) :
  st_for (l ≫= f) body s = st_for l (λ a, st_for (f a) body) s.
Proof.
  revert s. induction l as [|a l IH]; intros s; [done|].
  rewrite bind_cons, st_for_app. simpl. unfold st_bind.
  destruct (st_for (f a) body s) as [[[] s1]|]; [apply IH|done].
Qed.

Lemma st_for_fmap {S A B} (f : A → B) (l : list A) (body : B → ST S unit) :
  st_for (f <$> l) body = st_for l (λ a, body (f a)).
Proof. induction l as [|a l IH]; [done|]. rewrite fmap_cons. simpl. by rewrite IH. Qed.

(** A loop invariant indexed by the visited prefix: when every step
    succeeds and extends the invariant by the element it visits, the loop
    terminates normally with the invariant of the whole list. *)
Lemma st_for_inv {S A} (I : list A → S → Prop) (l : list A) (body : A → ST S unit) (s : S) :
  I [] s →
  (∀ pre a post s1, l = pre ++ a :: post → I pre s1 →
     ∃ s2, body a s1 = Some (tt, s2) ∧ I (pre ++ [a]) s2) →
  ∃ s', st_for l body s = Some (tt, s') ∧ I l s'.
Proof.
  intros H0 Hstep.
  cut (∀ post pre s1, l = pre ++ post → I pre s1 →
         ∃ s', st_for post body s1 = Some (tt, s') ∧ I l s').
  { intros H. by apply (H l [] s). }
  intros post. induction post as [|a post IH]; intros pre s1 Hl HI; simpl.
  - exists s1. by rewrite Hl, app_nil_r.
  - destruct (Hstep pre a post s1 Hl HI) as (s2 & Hb & HI2).
    unfold st_bind. rewrite Hb. apply (IH (pre ++ [a])); [by rewrite <-app_assoc|done].
Qed.

Section StMapInv.
Context {S : Type} (R : relation S) `{!PreOrder R}.

(** A map whose steps succeed, move the state along a preorder [R], and
    produce results satisfying [Q], which [R] preserves. *)
Lemma st_map_inv {A B} (Q : A → B → S → Prop) (l : list A) (f : A → ST S B) (s : S) :
  (∀ a b s1 s2, Q a b s1 → R s1 s2 → Q a b s2) →
  (∀ a s1, a ∈ l → R s s1 → ∃ b s2, f a s1 = Some (b, s2) ∧ R s1 s2 ∧ Q a b s2) →
  ∃ bs s', st_map l f s = Some (bs, s') ∧ R s s' ∧ Forall2 (λ a b, Q a b s') l bs.
Proof.
  intros Hmono. revert s. induction l as [|a l IH]; intros s Hf; simpl.
  - exists [], s. split_and!; [done|reflexivity|constructor].
  - destruct (Hf a s) as (b & s1 & Hb & Hs1 & Hq); [set_solver|reflexivity|].
    destruct (IH s1) as (bs & s' & Hbs & Hs' & Hall).
    { intros a' s2 Ha' Hs2. apply Hf; [set_solver|by etrans]. }
    exists (b :: bs), s'. unfold st_bind, st_ret. rewrite Hb, Hbs.
    split_and!; [done|by etrans|]. constructor; [|done]. eauto.
Qed.
End StMapInv.

(** The [i]-th result of a map over [range n]. *)
Lemma Forall2_range_index {B} (P : Z → B → Prop) (n i : Z) (bs : list B) :
  Forall2 P (range n) bs → (0 ≤ i < n)%Z → ∃ b, js_index bs i = Some b ∧ P i b.
Proof.
  intros Hall Hi. destruct (Forall2_lookup_l _ _ _ (Z.to_nat i) i Hall) as (b & Hb & HP).
  { unfold range. rewrite lookup_seqZ. lia. }
  exists b. split; [|done]. unfold js_index. by rewrite decide_True by lia.
Qed.

Lemma length_Forall2_range {B} (P : Z → B → Prop) (n : Z) (bs : list B) :
  Forall2 P (range n) bs → length bs = Z.to_nat n.
Proof. intros Hall. by rewrite <-(Forall2_length _ _ _ Hall), length_range. Qed.

Lemma js_index_fmap {A B} (f : A → B) (l : list A) (i : Z) :
  js_index (f <$> l) i = f <$> js_index l i.
Proof. unfold js_index. case_decide; [apply list_lookup_fmap|done]. Qed.

Lemma js_index_range (n i : Z) : (0 ≤ i < n)%Z → js_index (range n) i = Some i.
Proof.
  intros Hi. unfold js_index, range. rewrite decide_True by lia.
  rewrite lookup_seqZ_lt by lia. f_equal. lia.
Qed.

Lemma st_for_ext {S A} (l : list A) (body1 body2 : A → ST S unit) (s : S) :
  (∀ a s', body1 a s' = body2 a s') → st_for l body1 s = st_for l body2 s.
Proof.
  intros Hb. revert s. induction l as [|a l IH]; intros s; [done|]. simpl.
  unfold st_bind. rewrite Hb. by destruct (body2 a s) as [[[] s1]|].
Qed.

(** The loop invariants of nested loops test membership in the visited
    prefix; one more step adds one element. *)
Lemma decide_elem_snoc {A B} `{!EqDecision A} (a b : A) (l : list A) (u v : B) :
  (if decide (a ∈ l ++ [b]) then u else v) =
  (if decide (a = b) then u else if decide (a ∈ l) then u else v).
Proof. repeat case_decide; set_solver. Qed.

Lemma st_bind_assoc {S A B C} (m : ST S A) (n : A → ST S B) (k : B → ST S C) (s : S) :
  (do a <- m; do b <- n a; k b) s = (do b <- (do a <- m; n a); k b) s.
Proof. unfold st_bind. by destruct (m s) as [[a s1]|]. Qed.

Lemma st_bind_run {S A B} (m : ST S A) (k : A → ST S B) (s s' : S) (a : A) :
  m s = Some (a, s') → (do x <- m; k x) s = k a s'.
Proof. intros Hm. unfold st_bind. by rewrite Hm. Qed.

(** A map whose step at some element always throws throws. *)
Lemma st_map_throw {S A B} (l : list A) (f : A → ST S B) (a : A) (s : S) :
  a ∈ l → (∀ s', f a s' = None) → st_map l f s = None.
Proof.
  revert s. induction l as [|a0 l IH]; intros s Ha Hf; [set_solver|]. simpl. unfold st_bind.
  apply elem_of_cons in Ha as [->|Ha]; [by rewrite Hf|].
  destruct (f a0 s) as [[b s1]|]; [|done]. by rewrite (IH s1 Ha Hf).
Qed.

(** Filtering a list with two tests that agree on its elements. *)
Lemma filter_ext_elem {A} (P1 P2 : A → Prop) `{!∀ x, Decision (P1 x), !∀ x, Decision (P2 x)}
    (l : list A) :
  (∀ x, x ∈ l → P1 x ↔ P2 x) → filter P1 l = filter P2 l.
Proof.
  induction l as [|a l IH]; intros Hl; [done|]. rewrite !filter_cons.
  assert (P1 a ↔ P2 a) by (apply Hl; set_solver).
  rewrite IH by (intros; apply Hl; set_solver). repeat case_decide; naive_solver.
Qed.

(** Dropping one element [p] of a duplicate-free list from a filter
    shortens it by one. *)
Lemma filter_length_drop_one {A} `{!EqDecision A} (P1 P2 : A → Prop)
    `{!∀ x, Decision (P1 x), !∀ x, Decision (P2 x)} (l : list A) (p : A) :
  NoDup l → p ∈ l → P1 p → (∀ x, x ∈ l → P2 x ↔ x ≠ p ∧ P1 x) →
  S (length (filter P2 l)) = length (filter P1 l).
Proof.
  induction l as [|a l IH]; intros Hnd Hp HP1 HP2; [set_solver|].
  apply NoDup_cons in Hnd as [Ha Hnd]. rewrite !filter_cons.
  destruct (decide (a = p)) as [->|Hne].
  - assert (¬ P2 p) by (rewrite HP2; set_solver).
    repeat case_decide; try done. simpl. f_equal. f_equal. apply filter_ext_elem.
    intros x Hx. rewrite HP2 by set_solver. set_solver.
  - assert (P2 a ↔ P1 a) by (rewrite HP2; set_solver).
    assert (S (length (filter P2 l)) = length (filter P1 l)) by (apply IH; set_solver).
    repeat case_decide; simpl; naive_solver.
Qed.

Lemma omap_ext_elem {A B} (f1 f2 : A → option B) (l : list A) :
  (∀ x, x ∈ l → f1 x = f2 x) → omap f1 l = omap f2 l.
Proof.
  intros H. apply list_omap_ext, Forall_Forall2_diag, Forall_forall. done.
Qed.

(** A bind that succeeds ran both of its parts. *)
Lemma st_bind_Some {S A B} (m : ST S A) (k : A → ST S B) (s : S) r :
  (do x <- m; k x) s = Some r → ∃ a s1, m s = Some (a, s1) ∧ k a s1 = Some r.
Proof. unfold st_bind. destruct (m s) as [[a s1]|]; [eauto|done]. Qed.

(** A loop whose every step is a sequence of [R] steps is one. *)
Lemma st_for_rtc {S A} (R : relation S) (l : list A) (body : A → ST S unit) (s s' : S) :
  (∀ a s1 s2, a ∈ l → body a s1 = Some (tt, s2) → rtc R s1 s2) →
  st_for l body s = Some (tt, s') → rtc R s s'.
Proof.
  revert s. induction l as [|a l IH]; intros s Hb Hrun; simpl in Hrun.
  - injection Hrun as ->. apply rtc_refl.
  - apply st_bind_Some in Hrun as ([] & s1 & Ha & Hl).
    transitivity s1; [apply (Hb a); [set_solver|done]|].
    apply IH; [|done]. intros. apply (Hb a0); [set_solver|done].
Qed.

Lemma st_lift_Some {S A} (o : option A) (s s1 : S) (a : A) :
  st_lift o s = Some (a, s1) → o = Some a ∧ s1 = s.
Proof. unfold st_lift. destruct o; naive_solver. Qed.

Lemma omap_cons_eq {A B} (f : A → option B) (a : A) (l : list A) :
  omap f (a :: l) = match f a with Some b => b :: omap f l | None => omap f l end.
Proof. done. Qed.

(** The finite map of the keys [ks] that [f] maps to a value. *)
Lemma list_to_map_omap_lookup {K V} `{Countable K} (f : K → option V) (ks : list K) (k : K) :
  NoDup ks →
  (list_to_map (omap (λ k, (λ v, (k, v)) <$> f k) ks) : gmap K V) !! k =
    if decide (k ∈ ks) then f k else None.
Proof.
  induction ks as [|a ks IH]; intros Hnd; [done|].
  apply NoDup_cons in Hnd as [Ha Hnd]. rewrite omap_cons_eq.
  destruct (f a) as [v|] eqn:Hf; cbn -[omap list_to_map];
    [rewrite list_to_map_cons, lookup_insert|];
    destruct (decide (a = k)) as [->|Hne].
  - rewrite decide_True by set_solver. by rewrite Hf.
  - rewrite IH by done. repeat case_decide; set_solver.
  - rewrite IH by done. rewrite decide_False, decide_True by set_solver. by rewrite Hf.
  - rewrite IH by done. repeat case_decide; set_solver.
Qed.

Lemma forallb_elem {A} (f : A → bool) (l : list A) :
  forallb f l = true ↔ ∀ x, x ∈ l → f x = true.
Proof. rewrite forallb_forall. by setoid_rewrite list_elem_of_In. Qed.
