(* ===== verification/Tile.v ===== *)
(** * The Tile collaborator

    [src/js/grid_zen.js] consumes tiles through five capabilities: the
    fields [x], [y], [logValue], the constructor [new Tile(position,
    logValue)], [tile.clone()] and [tile.serialize()].  The Tile class is
    not part of the sources, so it is modelled here from the spec: the
    class [Tile.Intf] names the capabilities, [Tile.Laws] states what the
    grid relies on, and [Tile.Impl] is the tile of the spec, which
    discharges the laws.  The grid files are proved against the laws
    only. *)

From S2P Require Import Prelude.

(** The plain-data form [{position: {x, y}, logValue}] of a tile. *)
Module TileState.
Record t := mk { position : Z * Z; logValue : Z }.

#[global] Instance eq_dec : EqDecision t.
Proof. solve_decision. Qed.
End TileState.

Module Tile.
(** What the grid calls on a tile.  [clone] gives the fields of the copy
    [tile.clone()] allocates; the allocation itself is a store step
    (see [Objects]). *)
Class Intf (T : Type) := {
  x : T → Z;
  y : T → Z;
  logValue : T → Z;
  make : Z * Z → Z → T;
  clone : T → T;
  serialize : T → TileState.t;
}.

(** What the grid relies on: the constructor takes its position and
    value from its arguments, a clone has the fields of the original,
    and the serialized form records position and value. *)
Class Laws (T : Type) `{!Intf T} := {
  make_x p v : x (make p v) = p.1;
  make_y p v : y (make p v) = p.2;
  make_logValue p v : logValue (make p v) = v;
  clone_x t : x (clone t) = x t;
  clone_y t : y (clone t) = y t;
  clone_logValue t : logValue (clone t) = logValue t;
  serialize_spec t : serialize t = TileState.mk (x t, y t) (logValue t);
}.

(** The tile of the spec: a position and a log value. *)
Module Impl.
Record tile := mk { tx : Z; ty : Z; tlogValue : Z }.

#[global] Instance intf : Intf tile := {|
  x := tx; y := ty; logValue := tlogValue;
  make p v := mk p.1 p.2 v;
  clone t := mk (tx t) (ty t) (tlogValue t);
  serialize t := TileState.mk (tx t, ty t) (tlogValue t);
|}.

#[global] Instance laws : Laws tile.
Proof. split; done. Qed.
End Impl.
End Tile.

#[export] Hint Rewrite @Tile.make_x @Tile.make_y @Tile.make_logValue
  @Tile.clone_x @Tile.clone_y @Tile.clone_logValue : grid_rw.
