(* ===== verification/Objects.v ===== *)
(** * Objects: the JavaScript heap the grid methods run against

    A [Grid] and its [Tile]s are objects reached by reference.  The store
    holds every object at a location, the allocation counter, and the
    global variable [newGrid] that [Grid.prototype.clone] assigns without
    declaring it ([src/js/grid_zen.js:205]).  A grid's [cells] matrix is
    part of the grid object: it is created by the constructor and never
    handed out, so it is kept inside the object as a value. *)

From S2P Require Import Prelude Tile.

(** A reference to an object. *)
Definition loc := N.

(** The content of a cell: a tile reference, or [null]/[undefined] ([None]);
    the code tests cells only for truthiness, where the two agree. *)
Abbreviation cell := (option loc) (only parsing).

(** The state of a [Grid] object, [src/js/grid_zen.js:1-5,204-206]. *)
Module Grid.
Record t := mk {
  size : Z;
  cells : list (list cell);
  highestTileLogValue : option Z;  (** [None]: [undefined] *)
  playerTurn : option bool;        (** [None]: never assigned *)
}.

Definition with_cells (g : t) (c : list (list cell)) : t :=
  mk (size g) c (highestTileLogValue g) (playerTurn g).
Definition with_highest (g : t) (h : option Z) : t :=
  mk (size g) (cells g) h (playerTurn g).
Definition with_playerTurn (g : t) (p : option bool) : t :=
  mk (size g) (cells g) (highestTileLogValue g) p.
End Grid.

(** [this.cells[x][y]]: a missing row throws (a property read on
    [undefined], a [TypeError]); a missing entry reads as no tile. *)
Definition read_cell {A} (cells : list (list (option A))) (x y : Z) : option (option A) :=
  row ← js_index cells x; Some (js_elem row y).

(** [this.cells[x][y] = v]: a missing row throws; the row is written as a
    JavaScript array ([js_store]), growing past its end if need be. *)
Definition write_cell (cells : list (list cell)) (x y : Z) (v : cell)
    : option (list (list cell)) :=
  row ← js_index cells x; Some (<[Z.to_nat x := js_store None row y v]> cells).

(** The cell at [(x, y)] when the row exists. *)
Definition cell_of (g : Grid.t) (x y : Z) : cell :=
  default None (read_cell (Grid.cells g) x y).

(** The shape the constructor gives: one row per [x < size]. *)
Definition rows_ok (g : Grid.t) : Prop :=
  length (Grid.cells g) = Z.to_nat (Grid.size g).

(** A heap object. *)
Inductive obj (T : Type) :=
| OTile (tile : T)
| OGrid (grid : Grid.t).
Arguments OTile {T} _.
Arguments OGrid {T} _.

Record store (T : Type) := mkStore {
  heap : gmap loc (obj T);
  next_loc : loc;
  newGrid : option loc;   (** the implicit global of [clone] *)
}.
Arguments mkStore {T} _ _ _.
Arguments heap {T} _.
Arguments next_loc {T} _.
Arguments newGrid {T} _.

Section Objects.
Context {T : Type}.
Local Abbreviation M := (ST (store T)).

Definition tile_at (s : store T) (l : loc) : option T :=
  match heap s !! l with Some (OTile t) => Some t | _ => None end.
Definition grid_at (s : store T) (l : loc) : option Grid.t :=
  match heap s !! l with Some (OGrid g) => Some g | _ => None end.

(** Reading a field of a reference that holds no object of the right
    kind throws; no well-formed store reaches it (see [store_wf]). *)
Definition get_tile (l : loc) : M T := λ s, st_lift (tile_at s l) s.
Definition get_grid (l : loc) : M Grid.t := λ s, st_lift (grid_at s l) s.

Definition put_grid (l : loc) (g : Grid.t) : M unit :=
  λ s, Some (tt, mkStore (<[l := OGrid g]> (heap s)) (next_loc s) (newGrid s)).

(** [new ...]: a fresh location. *)
Definition alloc (o : obj T) : M loc :=
  λ s, Some (next_loc s,
             mkStore (<[next_loc s := o]> (heap s)) (N.succ (next_loc s)) (newGrid s)).

(** Reading the global [newGrid]: before any assignment the name is
    undeclared and the read throws a [ReferenceError]. *)
Definition get_newGrid : M loc := λ s, st_lift (newGrid s) s.

Definition set_newGrid (l : loc) : M unit :=
  λ s, Some (tt, mkStore (heap s) (next_loc s) (Some l)).

(** The store after [put_grid l g]. *)
Definition store_put_grid (s : store T) (l : loc) (g : Grid.t) : store T :=
  mkStore (<[l := OGrid g]> (heap s)) (next_loc s) (newGrid s).

(** Every allocated location is below the counter. *)
Definition store_wf (s : store T) : Prop :=
  ∀ l, l ∈ dom (heap s) → (l < next_loc s)%N.

(** Two stores agree on every object that exists in the first. *)
Definition extends (s s' : store T) : Prop :=
  ∀ l o, heap s !! l = Some o → heap s' !! l = Some o.

(** The store grows by tiles: no object of [s] changes, a well-formed
    store stays well formed, and no grid object appears. *)
Definition grows (s s' : store T) : Prop :=
  extends s s' ∧ (store_wf s → store_wf s') ∧
  ∀ l g, grid_at s' l = Some g → grid_at s l = Some g.
End Objects.

#[export] Instance store_wf_dec {T} (s : store T) : Decision (store_wf s) :=
  set_Forall_dec _ _.

Arguments get_tile {T} _ _.
Arguments get_grid {T} _ _.

(** ** Lemmas on the heap primitives *)
Section ObjectLemmas.
Context {T : Type}.
Implicit Types (s : store T) (l : loc).

Lemma get_grid_run s l g : grid_at s l = Some g → get_grid l s = Some (g, s).
Proof. intros H. unfold get_grid, st_lift. by rewrite H. Qed.

Lemma get_tile_run s l t : tile_at s l = Some t → get_tile l s = Some (t, s).
Proof. intros H. unfold get_tile, st_lift. by rewrite H. Qed.

(** The reads leave the store as it is. *)
Lemma get_grid_Some s l g s1 : get_grid l s = Some (g, s1) → grid_at s l = Some g ∧ s1 = s.
Proof. apply st_lift_Some. Qed.
Lemma get_tile_Some s l t s1 : get_tile l s = Some (t, s1) → tile_at s l = Some t ∧ s1 = s.
Proof. apply st_lift_Some. Qed.
Lemma get_newGrid_Some s l s1 : get_newGrid s = Some (l, s1) → newGrid s = Some l ∧ s1 = s.
Proof. apply st_lift_Some. Qed.

Lemma put_grid_run s l g : put_grid l g s = Some (tt, store_put_grid s l g).
Proof. done. Qed.

Lemma grid_at_put_grid s l g l' :
  grid_at (store_put_grid s l g) l' = if decide (l' = l) then Some g else grid_at s l'.
Proof.
  unfold grid_at, store_put_grid. simpl. rewrite lookup_insert.
  by destruct (decide (l = l')), (decide (l' = l)); subst.
Qed.

(** Overwriting a grid object leaves every tile in place. *)
Lemma tile_at_put_grid s l g g0 l' :
  grid_at s l = Some g0 → tile_at (store_put_grid s l g) l' = tile_at s l'.
Proof.
  unfold grid_at, tile_at, store_put_grid. simpl. intros Hg. rewrite lookup_insert.
  destruct (decide (l = l')) as [->|]; [|done].
  by destruct (heap s !! l') as [[]|]; simplify_eq.
Qed.

Lemma alloc_run s (o : obj T) :
  alloc o s = Some (next_loc s,
    mkStore (<[next_loc s := o]> (heap s)) (N.succ (next_loc s)) (newGrid s)).
Proof. done. Qed.

Lemma alloc_fresh s : store_wf s → heap s !! next_loc s = None.
Proof.
  intros Hwf. apply not_elem_of_dom. intros Hin. apply Hwf in Hin. lia.
Qed.

Lemma alloc_wf s (o : obj T) s' l :
  store_wf s → alloc o s = Some (l, s') → store_wf s'.
Proof.
  intros Hwf [= <- <-] l' Hl'. simpl in *.
  rewrite dom_insert_L in Hl'. apply elem_of_union in Hl' as [->%elem_of_singleton| Hl'].
  - lia.
  - apply Hwf in Hl'. lia.
Qed.

Lemma alloc_extends s (o : obj T) s' l :
  store_wf s → alloc o s = Some (l, s') → extends s s'.
Proof.
  intros Hwf [= <- <-] l' o' Hl'. simpl.
  rewrite lookup_insert_ne; [done|].
  intros Heq. subst l'. by rewrite alloc_fresh in Hl'.
Qed.

Lemma put_grid_wf s l g s' :
  store_wf s → l ∈ dom (heap s) → put_grid l g s = Some (tt, s') → store_wf s'.
Proof.
  intros Hwf Hl [= <-] l' Hl'. simpl in *.
  rewrite dom_insert_L in Hl'. apply elem_of_union in Hl' as [->%elem_of_singleton| Hl'];
    by apply Hwf.
Qed.

Lemma extends_refl s : extends s s.
Proof. by intros ? ?. Qed.

Lemma extends_trans s1 s2 s3 : extends s1 s2 → extends s2 s3 → extends s1 s3.
Proof. intros H12 H23 l o Hl. auto. Qed.

#[export] Instance grows_preorder : PreOrder (@grows T).
Proof.
  split.
  - intros s. split_and!; [apply extends_refl|done|done].
  - intros s1 s2 s3 (H12 & W12 & G12) (H23 & W23 & G23).
    split_and!; [by eapply extends_trans|tauto|auto].
Qed.

(** Allocating a tile: [new Tile(...)] or [tile.clone()]. *)
Lemma alloc_grows s (t : T) s' l :
  store_wf s → alloc (OTile t) s = Some (l, s') → grows s s'.
Proof.
  intros Hwf Ha. split_and!; [by eapply alloc_extends|intros; by eapply alloc_wf|].
  injection Ha as <- <-. intros l' g. unfold grid_at. simpl.
  rewrite lookup_insert. by case_decide.
Qed.

Lemma grid_at_extends s s' l g : extends s s' → grid_at s l = Some g → grid_at s' l = Some g.
Proof.
  unfold grid_at. intros Hext Hg. destruct (heap s !! l) as [[]|] eqn:E; try done.
  by rewrite (Hext _ _ E).
Qed.

(** Overwriting an object the older store [s] does not have keeps [s]'s
    objects. *)
Lemma extends_put_grid s s' l g :
  heap s !! l = None → extends s s' → extends s (store_put_grid s' l g).
Proof.
  intros Hl Hext l' o Hl'. simpl. rewrite lookup_insert_ne; [by apply Hext|].
  intros ->. by rewrite Hl in Hl'.
Qed.

(** A location that is fresh in a later store was fresh before. *)
Lemma extends_fresh s s' l : extends s s' → heap s' !! l = None → heap s !! l = None.
Proof. intros Hext Hl. destruct (heap s !! l) eqn:E; [|done]. by rewrite (Hext _ _ E) in Hl. Qed.

Lemma grid_at_dom s l g : grid_at s l = Some g → l ∈ dom (heap s).
Proof.
  unfold grid_at. intros Hg. destruct (heap s !! l) eqn:E; [|done].
  by eapply elem_of_dom_2.
Qed.

Lemma tile_at_extends s s' l t : extends s s' → tile_at s l = Some t → tile_at s' l = Some t.
Proof.
  unfold tile_at. intros Hext Ht. destruct (heap s !! l) as [[]|] eqn:E; try done.
  by rewrite (Hext _ _ E).
Qed.
End ObjectLemmas.

(** ** Reading and writing cells *)

Implicit Types cells : list (list cell).

Lemma read_cell_in_rows {A} (cells : list (list (option A))) x y :
  (0 ≤ x < Z.of_nat (length cells))%Z →
  ∃ row, js_index cells x = Some row ∧ read_cell cells x y = Some (js_elem row y).
Proof.
  intros Hx. destruct (js_index_in_range cells x Hx) as [row Hrow].
  exists row. unfold read_cell. by rewrite Hrow.
Qed.

Lemma read_cell_total {A} (cells : list (list (option A))) x y :
  (0 ≤ x < Z.of_nat (length cells))%Z → is_Some (read_cell cells x y).
Proof. intros Hx. destruct (read_cell_in_rows cells x y Hx) as (? & _ & ->). eauto. Qed.

Lemma read_cell_outside {A} (cells : list (list (option A))) x y :
  (x < 0 ∨ Z.of_nat (length cells) ≤ x)%Z → read_cell cells x y = None.
Proof. intros Hx. unfold read_cell. by rewrite (proj2 (js_index_None _ _) Hx). Qed.

Lemma write_cell_total cells x y v :
  (0 ≤ x < Z.of_nat (length cells))%Z →
  ∃ cells', write_cell cells x y v = Some cells' ∧ length cells' = length cells.
Proof.
  intros Hx. destruct (js_index_in_range cells x Hx) as [row Hrow].
  unfold write_cell. rewrite Hrow. eexists; split; [done|]. apply length_insert.
Qed.

Lemma write_cell_outside cells x y v :
  (x < 0 ∨ Z.of_nat (length cells) ≤ x)%Z → write_cell cells x y v = None.
Proof. intros Hx. unfold write_cell. by rewrite (proj2 (js_index_None _ _) Hx). Qed.

Lemma write_cell_length cells x y v cells' :
  write_cell cells x y v = Some cells' → length cells' = length cells.
Proof.
  unfold write_cell. destruct (js_index cells x); intros; simplify_eq/=.
  apply length_insert.
Qed.

(** On a grid of the constructor's shape, a cell of a row reads as
    [cell_of]. *)
Lemma read_cell_of g x y :
  rows_ok g → (0 ≤ x < Grid.size g)%Z → read_cell (Grid.cells g) x y = Some (cell_of g x y).
Proof.
  unfold rows_ok, cell_of. intros Hrows Hx.
  destruct (read_cell_in_rows (Grid.cells g) x y) as (row & _ & ->); [lia|done].
Qed.

(** Read after write: the written cell holds the value when [y] is an
    array index, and every other cell is unchanged. *)
Lemma read_write_cell cells x y v cells' x' y' :
  write_cell cells x y v = Some cells' →
  read_cell cells' x' y' =
    if decide ((x', y') = (x, y) ∧ (0 ≤ y ≤ js_max_index)%Z) then Some v
    else read_cell cells x' y'.
Proof.
  unfold write_cell, read_cell. destruct (js_index cells x) as [row|] eqn:Hrow; [|done].
  intros [= <-]. pose proof Hrow as [Hx Hrow']%js_index_Some.
  destruct (decide (x' = x)) as [->|Hne].
  - rewrite Hrow. unfold js_index at 1. rewrite decide_True by lia.
    rewrite list_lookup_insert_eq by (eapply lookup_lt_Some; eauto). simpl.
    case_decide as Hc.
    + destruct Hc as [[= ->] ?]. by rewrite js_elem_store_eq.
    + destruct (decide (y' = y)) as [->|Hy].
      * rewrite js_store_invalid; [done|]. naive_solver.
      * by rewrite js_elem_store_ne.
  - rewrite decide_False by naive_solver.
    unfold js_index. case_decide; [|done].
    rewrite list_lookup_insert_ne by lia. done.
Qed.

#[export] Hint Resolve extends_refl alloc_wf alloc_extends tile_at_extends : grid.
