(* ===== verification/Construct.v ===== *)
(** * Construction of a grid: [Grid], [Grid.prototype.empty],
      [Grid.prototype.fromState] ([src/js/grid_zen.js:1-35])

    The constructor keeps [size], builds [cells] empty or from a snapshot,
    and sets [highestTileLogValue] to [0] in both cases.  [fromState]
    allocates a fresh tile for every non-null entry of the snapshot.
    The snapshot type [cell_state] is the [cells] field of the object
    [Grid.prototype.serialize] returns.  The lemmas run [fromState] on a
    snapshot with a row for every [x < size] ([fromState_run]: every
    entry is rebuilt into a fresh tile, [rebuilt_cells]) and show that a
    missing row throws ([new_Grid_missing_row]). *)

From S2P Require Import Prelude Tile Objects.

(** The serialized cells: rows of tiles in plain-data form or [null]. *)
Definition cell_state := list (list (option TileState.t)).

(** [Grid.prototype.empty]: [size] rows of [size] nulls. *)
Definition empty (size : Z) : list (list cell) :=
  (λ x, (λ y, None) <$> range size) <$> range size.

Section Construct.
Context {T : Type} `{!Tile.Intf T}.
Local Abbreviation M := (ST (store T)).

(** The body of the inner loop of [fromState]: [new Tile(tile.position,
    tile.logValue)] for a non-null entry, [null] otherwise. *)
Definition fromState_cell (tile : option TileState.t) : M cell :=
  match tile with
  | Some t =>
      do l <- alloc (OTile (Tile.make (TileState.position t) (TileState.logValue t)));
      st_ret (Some l)
  | None => st_ret None
  end.

(** [Grid.prototype.fromState]: [var tile = state[x][y]] throws when the
    row [state[x]] is missing; a missing entry reads as [undefined]. *)
Definition fromState (size : Z) (state : cell_state) : M (list (list cell)) :=
  st_map (range size) (λ x,
    st_map (range size) (λ y,
      do tile <- st_lift (read_cell state x y);
      fromState_cell tile)).

(** [new Grid(size, previousState)].  The object is allocated after its
    cells are built; the order of allocations is not observable from
    JavaScript, which has no address comparison. *)
Definition new_Grid (size : Z) (previousState : option cell_state) : M loc :=
  do cells <- match previousState with
              | Some state => fromState size state
              | None => st_ret (empty size)
              end;
  alloc (OGrid (Grid.mk size cells (Some 0%Z) None)).
End Construct.

(** ** The empty matrix *)

Lemma empty_rows_ok size h p : rows_ok (Grid.mk size (empty size) h p).
Proof. unfold rows_ok, empty. simpl. by rewrite length_fmap, length_range. Qed.

Lemma cell_of_empty size h p x y : cell_of (Grid.mk size (empty size) h p) x y = None.
Proof.
  unfold cell_of, read_cell, empty, js_elem, js_index. simpl.
  destruct (decide (0 ≤ x)%Z); [|done]. rewrite list_lookup_fmap.
  destruct (range size !! _); simpl; [|done].
  destruct (decide (0 ≤ y)%Z); [|done]. rewrite list_lookup_fmap.
  by destruct (range size !! _).
Qed.

#[export] Hint Resolve empty_rows_ok : grid.
#[export] Hint Rewrite cell_of_empty : grid_rw.

(** ** Matrices built row by row *)

(** The cell [(x, y)] of a matrix built by two nested maps over
    [range n]. *)
Lemma read_cell_Forall2 {A} (P : Z → Z → option A → Prop) n (cells : list (list (option A))) x y :
  Forall2 (λ x row, Forall2 (λ y c, P x y c) (range n) row) (range n) cells →
  (0 ≤ x < n)%Z → (0 ≤ y < n)%Z → ∃ c, read_cell cells x y = Some c ∧ P x y c.
Proof.
  intros Hall Hx Hy. destruct (Forall2_range_index _ _ _ _ Hall Hx) as (row & Hrow & Hrow').
  destruct (Forall2_range_index _ _ _ _ Hrow' Hy) as (c & Hc & HP).
  exists c. unfold read_cell, js_elem. rewrite Hrow. simpl. by rewrite Hc.
Qed.

Lemma read_cell_Forall2_outside {A} (P : Z → Z → option A → Prop) n
    (cells : list (list (option A))) x y :
  Forall2 (λ x row, Forall2 (λ y c, P x y c) (range n) row) (range n) cells →
  ¬ ((0 ≤ x < n) ∧ (0 ≤ y < n))%Z → default None (read_cell cells x y) = None.
Proof.
  intros Hall Hout. unfold read_cell.
  destruct (decide (0 ≤ x < n)%Z) as [Hx|Hx].
  - destruct (Forall2_range_index _ _ _ _ Hall Hx) as (row & -> & Hrow). simpl.
    unfold js_elem. rewrite (proj2 (js_index_None row y)); [done|].
    rewrite (length_Forall2_range _ _ _ Hrow). lia.
  - rewrite (proj2 (js_index_None cells x)); [done|].
    rewrite (length_Forall2_range _ _ _ Hall). lia.
Qed.

(** ** Rebuilding from a snapshot *)

Section FromState.
Context {T : Type} `{!Tile.Intf T}.
Implicit Types (s : store T).

(** What [fromState] stores for the snapshot entry [e]: [null] for a null
    entry, else a tile made from the entry at a location that was free in
    the store [s0] the construction started from. *)
Definition rebuilt (s0 : store T) (e : option TileState.t) (c : cell) (s : store T) : Prop :=
  match e with
  | None => c = None
  | Some ts => ∃ l, c = Some l ∧ heap s0 !! l = None ∧
      tile_at s l = Some (Tile.make (TileState.position ts) (TileState.logValue ts))
  end.

Lemma rebuilt_grows s0 e c s1 s2 : rebuilt s0 e c s1 → extends s1 s2 → rebuilt s0 e c s2.
Proof.
  destruct e; simpl; [|done]. intros (l & -> & Hf & Ht) Hext.
  exists l. split_and!; eauto using tile_at_extends.
Qed.

(** The cells a snapshot [state] of [n × n] entries is rebuilt into. *)
Definition rebuilt_cells (s0 : store T) (n : Z) (state : cell_state)
    (cells : list (list cell)) (s : store T) : Prop :=
  Forall2 (λ x row, Forall2 (λ y c, rebuilt s0 (default None (read_cell state x y)) c s)
    (range n) row) (range n) cells.

Lemma rebuilt_cells_grows s0 n state cells s1 s2 :
  rebuilt_cells s0 n state cells s1 → extends s1 s2 → rebuilt_cells s0 n state cells s2.
Proof.
  unfold rebuilt_cells. intros Hall H12. eapply Forall2_impl; [exact Hall|].
  intros x row Hrow. eapply Forall2_impl; [exact Hrow|]. intros ?? Hc; cbv beta in *; by eapply rebuilt_grows.
Qed.

Lemma fromState_cell_run s0 s e :
  store_wf s → grows s0 s →
  ∃ c s', fromState_cell e s = Some (c, s') ∧ grows s s' ∧ rebuilt s0 e c s'.
Proof.
  intros Hwf [Hext _]. destruct e as [ts|]; simpl.
  - unfold st_bind, st_ret. rewrite alloc_run.
    eexists _, _. split; [done|]. split; [eapply alloc_grows; [done|apply alloc_run]|].
    exists (next_loc s). split_and!; [done| |].
    + eapply extends_fresh; [done|]. by apply alloc_fresh.
    + unfold tile_at. simpl. by rewrite lookup_insert_eq.
  - exists None, s. split_and!; [done|reflexivity|done].
Qed.

(** [fromState] on a snapshot that has a row for every [x < size]
    succeeds and rebuilds every entry. *)
Lemma fromState_run s size state :
  store_wf s → (∀ x, (0 ≤ x < size)%Z → is_Some (js_index state x)) →
  ∃ cells s', fromState size state s = Some (cells, s') ∧ grows s s' ∧
    rebuilt_cells s size state cells s'.
Proof.
  intros Hwf Hrows. unfold fromState.
  apply (st_map_inv grows (λ x row s',
    Forall2 (λ y c, rebuilt s (default None (read_cell state x y)) c s') (range size) row)).
  { intros x row s1 s2 Hall [H12 _]. eapply Forall2_impl; [exact Hall|].
    intros ?? Hc; cbv beta in *; by eapply rebuilt_grows. }
  intros x s1 Hx%range_elem Hs1.
  destruct (Hrows x Hx) as [row Hrow].
  apply (st_map_inv grows (λ y c s', rebuilt s (default None (read_cell state x y)) c s')).
  { intros ???? Hc [H12 _]; cbv beta in *; by eapply rebuilt_grows. }
  intros y s2 _ Hs2. unfold read_cell. rewrite Hrow. simpl. unfold st_bind at 1, st_lift.
  apply fromState_cell_run; [|by etrans].
  destruct (PreOrder_Transitive _ _ _ Hs1 Hs2) as (_ & Hw & _). by apply Hw.
Qed.

(** [new Grid(size, state)] on such a snapshot: a fresh grid object
    whose cells rebuild the snapshot, with [highestTileLogValue = 0]. *)
Lemma new_Grid_state_run s size state :
  store_wf s → (∀ x, (0 ≤ x < size)%Z → is_Some (js_index state x)) →
  ∃ l s' cells, new_Grid size (Some state) s = Some (l, s') ∧
    extends s s' ∧ store_wf s' ∧ (∀ l' g', grid_at s' l' = Some g' → l' = l ∨ grid_at s l' = Some g') ∧
    heap s !! l = None ∧ grid_at s' l = Some (Grid.mk size cells (Some 0%Z) None) ∧
    rebuilt_cells s size state cells s'.
Proof.
  intros Hwf Hrows. destruct (fromState_run s size state) as (cells & s1 & Hrun & Hs1 & Hall);
    [done..|].
  assert (store_wf s1) as Hwf1 by (apply Hs1, Hwf).
  unfold new_Grid, st_bind. rewrite Hrun, alloc_run.
  eexists _, _, cells. split; [done|].
  set (s2 := mkStore (<[next_loc s1:=OGrid (Grid.mk size cells (Some 0%Z) None)]> (heap s1))
      (N.succ (next_loc s1)) (newGrid s1)).
  assert (extends s1 s2) as H12 by (eapply alloc_extends; [done|apply alloc_run]).
  split_and!.
  - eapply extends_trans; [apply Hs1|done].
  - eapply alloc_wf; [done|apply alloc_run].
  - intros l' g'. unfold grid_at. simpl. rewrite lookup_insert.
    case_decide; [by left|right]. by apply Hs1.
  - eapply extends_fresh; [apply Hs1|]. by apply alloc_fresh.
  - unfold grid_at. simpl. by rewrite lookup_insert_eq.
  - by eapply rebuilt_cells_grows.
Qed.
End FromState.

(** C29: [new Grid(size, state)] throws a [TypeError] when the snapshot
    has no row [state[x]] for some [x < size]: a snapshot of a smaller
    board cannot be loaded into a larger one. *)
Theorem new_Grid_missing_row {T} `{!Tile.Intf T} (s : store T) size state x :
  (0 ≤ x < size)%Z → js_index state x = None → new_Grid size (Some state) s = None.
Proof.
  intros Hx Hrow. unfold new_Grid, st_bind.
  assert (fromState size state s = None) as ->; [|done].
  apply (st_map_throw _ _ x); [by apply range_elem|]. intros s'.
  apply (st_map_throw _ _ 0%Z); [apply range_elem; lia|]. intros s''.
  unfold st_bind, st_lift, read_cell. by rewrite Hrow.
Qed.

Lemma new_Grid_missing_row_witness :
  (0 ≤ 1 < 2)%Z ∧ js_index [[None; None] : list (option TileState.t)] 1 = None ∧
  new_Grid (T := Tile.Impl.tile) 2 (Some [[None; None]]) (mkStore ∅ 0%N None) = None.
Proof.
  split; [lia|]. split; [reflexivity|].
  apply new_Grid_missing_row with 1%Z; [lia|reflexivity].
Defined.
