(* ===== verification/Cells.v ===== *)
(** * Cell queries and mutation ([src/js/grid_zen.js:37-101])

    [eachCell] visits the [size × size] cells row by row; [availableCells]
    collects the empty ones through it; [randomAvailableCell] picks one of
    them with a number drawn from [[0, 1)] (the [Math.random()] of the
    code, passed as an argument); [cellContent] reads a cell inside the
    fixed [4 × 4] region of [withinBounds]; [insertTile] and [removeTile]
    write the cell a tile names by its own coordinates. *)

From S2P Require Import Prelude Tile Objects Construct.
From Stdlib Require Import QArith Qround.
Close Scope Q_scope.

(** [Grid.prototype.withinBounds]: [4], not [size], bounds the region. *)
Definition withinBounds (position : Z * Z) : bool :=
  (0 <=? position.1)%Z && (position.1 <? 4)%Z && (0 <=? position.2)%Z && (position.2 <? 4)%Z.

(** [Grid.prototype.eachCell]: the callback is given [x], [y] and the cell,
    and threads the state [C] of its closure. *)
Definition eachCell {C} (g : Grid.t) (callback : Z → Z → cell → C → C) (c : C) : option C :=
  for_acc (range (Grid.size g)) (λ x c,
    for_acc (range (Grid.size g)) (λ y c,
      tile ← read_cell (Grid.cells g) x y; Some (callback x y tile c)) c) c.

(** The callback of [availableCells]: push [{x, y}] when the cell is empty. *)
Definition availableCells_callback (x y : Z) (tile : cell) (cells : list (Z * Z)) :=
  match tile with Some _ => cells | None => cells ++ [(x, y)] end.

(** The coordinates the nested loops visit, [x] outer, [y] inner. *)
Definition coords (size : Z) : list (Z * Z) :=
  range size ≫= λ x, (λ y, (x, y)) <$> range size.

Section Cells.
Context {T : Type} `{!Tile.Intf T}.
Local Abbreviation M := (ST (store T)).

(** [Grid.prototype.availableCells] *)
Definition availableCells (self : loc) : M (list (Z * Z)) :=
  do g <- get_grid self;
  st_lift (eachCell g availableCells_callback []).

(** [Grid.prototype.cellsAvailable]: [!!this.availableCells().length] *)
Definition cellsAvailable (self : loc) : M bool :=
  do cells <- availableCells self;
  st_ret (negb (length cells =? 0)%nat).

(** [Grid.prototype.randomAvailableCell], with [random] the value of
    [Math.random()]; [None] is the [undefined] of a full board. *)
Definition randomAvailableCell (self : loc) (random : Q) : M (option (Z * Z)) :=
  do cells <- availableCells self;
  if (length cells =? 0)%nat then st_ret None
  else st_ret (js_index cells (Qfloor (random * inject_Z (Z.of_nat (length cells))))).

(** [Grid.prototype.cellContent] *)
Definition cellContent (self : loc) (cell : Z * Z) : M (option loc) :=
  do g <- get_grid self;
  if withinBounds cell then st_lift (read_cell (Grid.cells g) cell.1 cell.2)
  else st_ret None.

(** [Grid.prototype.cellOccupied]: [!!this.cellContent(cell)] *)
Definition cellOccupied (self : loc) (cell : Z * Z) : M bool :=
  do tile <- cellContent self cell;
  st_ret (match tile with Some _ => true | None => false end).

(** [Grid.prototype.cellAvailable] *)
Definition cellAvailable (self : loc) (cell : Z * Z) : M bool :=
  do occupied <- cellOccupied self cell;
  st_ret (negb occupied).

(** [Grid.prototype.insertTile]: [this.cells[tile.x][tile.y] = tile] *)
Definition insertTile (self tile : loc) : M unit :=
  do g <- get_grid self;
  do t <- get_tile tile;
  do cells <- st_lift (write_cell (Grid.cells g) (Tile.x t) (Tile.y t) (Some tile));
  put_grid self (Grid.with_cells g cells).

(** [Grid.prototype.removeTile]: [this.cells[tile.x][tile.y] = null] *)
Definition removeTile (self tile : loc) : M unit :=
  do g <- get_grid self;
  do t <- get_tile tile;
  do cells <- st_lift (write_cell (Grid.cells g) (Tile.x t) (Tile.y t) None);
  put_grid self (Grid.with_cells g cells).

(** The common shape of [insertTile] and [removeTile]: write [v] at the
    coordinates of the tile [tile]. *)
Definition write_at_tile (self tile : loc) (v : cell) : ST (store T) unit :=
  do g <- get_grid self;
  do t <- get_tile tile;
  do cells <- st_lift (write_cell (Grid.cells g) (Tile.x t) (Tile.y t) v);
  put_grid self (Grid.with_cells g cells).

End Cells.

(** The grid invariant the methods preserve: the constructor's [size] rows,
    and every tile reference of the matrix names a tile that sits at the
    coordinates it is stored under (spec §3, the invariant [insertTile]
    relies on its caller for). *)
Definition grid_inv {T} `{!Tile.Intf T} (s : store T) (g : Grid.t) : Prop :=
  rows_ok g ∧
  ∀ x y l, cell_of g x y = Some l →
    ∃ t, tile_at s l = Some t ∧ Tile.x t = x ∧ Tile.y t = y.

(** The invariant as a check over the stored rows: the executable form
    witnesses use ([grid_wf_sound]). *)
Definition cell_wf {T} `{!Tile.Intf T} (s : store T) (x y : Z) (c : cell) : bool :=
  match c with
  | None => true
  | Some l =>
      match tile_at s l with
      | Some t => (Tile.x t =? x)%Z && (Tile.y t =? y)%Z
      | None => false
      end
  end.

Definition grid_wf {T} `{!Tile.Intf T} (s : store T) (g : Grid.t) : bool :=
  (length (Grid.cells g) =? Z.to_nat (Grid.size g))%nat &&
  forallb (λ xr, forallb (λ yc, cell_wf s (Z.of_nat xr.1) (Z.of_nat yc.1) yc.2) (imap pair xr.2))
    (imap pair (Grid.cells g)).


(** ** Concrete boards the witnesses run on

    Tiles of [Tile.Impl]; the grid object is at location [0].  [ex_store]
    is a [4 × 4] board with tiles at [(0,0)], [(1,2)], [(3,3)] (locations
    [1]-[3]) and two tiles not on it: [(2,1)] (location [4]) and [(7,0)]
    (location [5]). *)
Definition ex_cells : list (list cell) :=
  [[Some 1%N; None; None; None];
   [None; None; Some 2%N; None];
   [None; None; None; None];
   [None; None; None; Some 3%N]].
Definition ex_grid : Grid.t := Grid.mk 4 ex_cells (Some 0%Z) None.
Definition ex_store : store Tile.Impl.tile :=
  mkStore (list_to_map [(0%N, OGrid ex_grid);
                        (1%N, OTile (Tile.Impl.mk 0 0 5)); (2%N, OTile (Tile.Impl.mk 1 2 3));
                        (3%N, OTile (Tile.Impl.mk 3 3 1)); (4%N, OTile (Tile.Impl.mk 2 1 2));
                        (5%N, OTile (Tile.Impl.mk 7 0 2))]) 6%N None.

(** A board of [size] with the given rows and tiles at locations [1, 2, ...]. *)
Definition ex_board (size : Z) (cells : list (list cell)) (tiles : list Tile.Impl.tile)
    : store Tile.Impl.tile :=
  mkStore (<[0%N := OGrid (Grid.mk size cells (Some 0%Z) None)]>
             (list_to_map (imap (λ i t, (N.of_nat (S i), OTile t)) tiles)))
          (N.of_nat (S (length tiles))) None.

(** The empty cells of [ex_store], row by row. *)
Definition ex_free : list (Z * Z) :=
  [(0, 1); (0, 2); (0, 3); (1, 0); (1, 1); (1, 3); (2, 0); (2, 1); (2, 2); (2, 3);
   (3, 0); (3, 1); (3, 2)]%Z.

(** A [1 × 1] empty board, a [2 × 2] empty board, and a [5 × 5] board with
    one tile at [(4, 0)]. *)
Definition ex_single : store Tile.Impl.tile := ex_board 1 [[None]] [].
Definition ex_small : store Tile.Impl.tile := ex_board 2 [[None; None]; [None; None]] [].
Definition ex_large_cells : list (list cell) :=
  [[None; None; None; None; None]; [None; None; None; None; None];
   [None; None; None; None; None]; [None; None; None; None; None];
   [Some 1%N; None; None; None; None]].
Definition ex_large : store Tile.Impl.tile := ex_board 5 ex_large_cells [Tile.Impl.mk 4 0 2].

(** A [4 × 4] board with the log values of [ex_store] at other places. *)
Definition ex_perm_cells : list (list cell) :=
  [[None; None; None; Some 2%N]; [None; None; None; None];
   [None; None; Some 1%N; None]; [Some 3%N; None; None; None]].
Definition ex_perm : store Tile.Impl.tile :=
  ex_board 4 ex_perm_cells [Tile.Impl.mk 2 2 1; Tile.Impl.mk 0 3 5; Tile.Impl.mk 3 0 3].

(** [ex_store] after [insertTile] of the tile at location [4]. *)
Definition ex_after_insert : store Tile.Impl.tile :=
  match insertTile 0%N 4%N ex_store with Some (_, s') => s' | None => ex_store end.

(** ** Traversal *)

Lemma coords_elem size p : p ∈ coords size ↔ (0 ≤ p.1 < size ∧ 0 ≤ p.2 < size)%Z.
Proof.
  destruct p as [x y]. unfold coords. rewrite list_elem_of_bind. split.
  - intros (x' & Hp & Hx'). apply list_elem_of_fmap in Hp as (y' & [= -> ->] & Hy').
    rewrite range_elem in Hx', Hy'. simpl. lia.
  - simpl. intros [Hx Hy]. exists x. split; [|by apply range_elem].
    apply list_elem_of_fmap. exists y. split; [done|by apply range_elem].
Qed.

Lemma NoDup_coords size : NoDup (coords size).
Proof.
  unfold coords, range. apply NoDup_bind.
  - intros x1 x2 p Hx1 Hx2 Hp1 Hp2.
    apply list_elem_of_fmap in Hp1 as (? & -> & _).
    by apply list_elem_of_fmap in Hp2 as (? & [= ->] & _).
  - intros x _. assert (Inj (=) (=) (λ y : Z, (x, y))) by (by intros ?? [=]).
    apply NoDup_fmap_2; [done|apply NoDup_seqZ].
  - apply NoDup_seqZ.
Qed.

Lemma length_coords size : length (coords size) = (Z.to_nat size * Z.to_nat size)%nat.
Proof.
  unfold coords. rewrite (length_bind_const _ _ (Z.to_nat size)), length_range; [done|].
  intros. by rewrite length_fmap, length_range.
Qed.

(** [eachCell] on a grid with its [size] rows never throws and folds the
    callback over the cells, row by row. *)
Lemma eachCell_fold {C} (g : Grid.t) (callback : Z → Z → cell → C → C) (c : C) :
  rows_ok g →
  eachCell g callback c =
    Some (foldl (λ c p, callback p.1 p.2 (cell_of g p.1 p.2) c) c (coords (Grid.size g))).
Proof.
  intros Hrows. unfold eachCell, coords. rewrite foldl_bind.
  apply for_acc_total. intros x c' Hx%range_elem.
  rewrite foldl_fmap. apply for_acc_total. intros y c'' _. simpl.
  unfold cell_of. destruct (read_cell_total (Grid.cells g) x y) as [t Ht];
    [unfold rows_ok in Hrows; lia|].
  by rewrite Ht.
Qed.

(** C27: [eachCell] calls its callback once per cell of the [size × size]
    board, [x] outer and [y] inner, with the cell's content: the trace of
    its calls is the list of coordinates in row-major order. *)
Theorem eachCell_visits (g : Grid.t) :
  rows_ok g →
  eachCell g (λ x y c trace, trace ++ [(x, y, c)]) [] =
    Some ((λ p, (p.1, p.2, cell_of g p.1 p.2)) <$> coords (Grid.size g)).
Proof. intros Hrows. by rewrite eachCell_fold, foldl_push_map. Qed.

Lemma foldl_availableCells_callback g acc l :
  foldl (λ c p, availableCells_callback p.1 p.2 (cell_of g p.1 p.2) c) acc l =
  acc ++ filter (λ p, cell_of g p.1 p.2 = None) l.
Proof.
  revert acc. induction l as [|p l IH]; intros acc; simpl; [by rewrite app_nil_r|].
  rewrite IH, filter_cons. unfold availableCells_callback. destruct p as [x y]. simpl.
  destruct (cell_of g x y); destruct (decide _); simplify_eq/=; [done|].
  by rewrite <-app_assoc.
Qed.

Lemma forallb_imap_lookup {A} (f : nat * A → bool) (l : list A) (i : nat) (a : A) :
  forallb f (imap pair l) = true → l !! i = Some a → f (i, a) = true.
Proof.
  intros Hall Hi. apply forallb_forall with (x := (i, a)) in Hall; [done|].
  apply list_elem_of_In, list_elem_of_lookup. exists i. by rewrite list_lookup_imap, Hi.
Qed.

Lemma grid_wf_sound {T} `{!Tile.Intf T} (s : store T) (g : Grid.t) :
  grid_wf s g = true → grid_inv s g.
Proof.
  unfold grid_wf. rewrite andb_true_iff, Nat.eqb_eq. intros [Hlen Hall]. split; [done|].
  intros x y l Hc. unfold cell_of, read_cell in Hc.
  destruct (js_index (Grid.cells g) x) as [row|] eqn:Hrow; [|done].
  apply js_index_Some in Hrow as [Hx Hrow]. simpl in Hc.
  apply js_elem_Some, js_index_Some in Hc as [Hy0 Hy].
  pose proof (forallb_imap_lookup _ _ _ _ Hall Hrow) as Hrowok. simpl in Hrowok.
  pose proof (forallb_imap_lookup _ _ _ _ Hrowok Hy) as Hcell. simpl in Hcell.
  unfold cell_wf in Hcell. destruct (tile_at s l) as [t|]; [|done].
  rewrite andb_true_iff, !Z.eqb_eq, !Z2Nat.id in Hcell by done. eauto.
Qed.

Section CellLemmas.
Context {T : Type} `{!Tile.Intf T}.
Implicit Types (s : store T) (self : loc).

(** [availableCells] returns the empty cells of the [size × size] board
    in the order [eachCell] visits them, and leaves the store alone. *)
Lemma availableCells_run s self g :
  grid_at s self = Some g → rows_ok g →
  availableCells self s =
    Some (filter (λ p, cell_of g p.1 p.2 = None) (coords (Grid.size g)), s).
Proof.
  intros Hg Hrows. unfold availableCells, st_bind. rewrite (get_grid_run _ _ _ Hg).
  unfold st_lift. rewrite eachCell_fold by done.
  by rewrite foldl_availableCells_callback.
Qed.

(** C7: [availableCells] never throws on a grid with its rows; it returns,
    in row-major order and without repetition, exactly the coordinates
    [(x, y)] of the board whose cell holds no tile. *)
Theorem availableCells_spec s self g :
  grid_at s self = Some g → rows_ok g →
  ∃ cells, availableCells self s = Some (cells, s) ∧
    cells = filter (λ p, cell_of g p.1 p.2 = None) (coords (Grid.size g)) ∧
    NoDup cells ∧
    ∀ x y, (x, y) ∈ cells ↔
      (0 ≤ x < Grid.size g ∧ 0 ≤ y < Grid.size g)%Z ∧ cell_of g x y = None.
Proof.
  intros Hg Hrows. eexists. split; [by apply availableCells_run|]. split; [done|]. split.
  - apply NoDup_filter, NoDup_coords.
  - intros x y. rewrite list_elem_of_filter, coords_elem. simpl. tauto.
Qed.

Lemma randomAvailableCell_run s self (r : Q) cells :
  availableCells self s = Some (cells, s) →
  randomAvailableCell self r s =
    Some (if (length cells =? 0)%nat then None
          else js_index cells (Qfloor (r * inject_Z (Z.of_nat (length cells)))), s).
Proof.
  intros Ha. unfold randomAvailableCell, st_bind. rewrite Ha.
  by destruct (length cells =? 0)%nat.
Qed.
End CellLemmas.

(** ** The random pick *)
Section RandomPick.
Context {T : Type} `{!Tile.Intf T}.
Implicit Types (s : store T) (self : loc).

Lemma inject_Z_pos (n : nat) : (0 < n)%nat → (0 < inject_Z (Z.of_nat n))%Q.
Proof. intros. change 0%Q with (inject_Z 0). rewrite <-Zlt_Qlt. lia. Qed.

(** C18: [randomAvailableCell] is uniform over the available cells: the
    [k]-th one is returned exactly for the draws in [[k/n, (k+1)/n)],
    an interval of width [1/n]. *)
Theorem randomAvailableCell_uniform s self cells (r : Q) (k : nat) :
  availableCells self s = Some (cells, s) →
  (k < length cells)%nat →
  (inject_Z (Z.of_nat k) / inject_Z (Z.of_nat (length cells)) <= r <
   inject_Z (Z.of_nat k + 1) / inject_Z (Z.of_nat (length cells)))%Q →
  randomAvailableCell self r s = Some (cells !! k, s).
Proof.
  intros Ha Hk [Hlo Hhi]. rewrite (randomAvailableCell_run _ _ _ _ Ha).
  destruct (Nat.eqb_spec (length cells) 0); [lia|].
  pose proof (inject_Z_pos (length cells) ltac:(lia)) as Hn.
  rewrite (Qfloor_unique _ (Z.of_nat k)); [by rewrite js_index_lookup|].
  split; [by apply Qdiv_le_mult|by apply Qlt_div_mult].
Qed.

(** Every draw in [[0, 1)] returns one of the available cells when there
    is one, and [undefined] when there is none. *)
Lemma randomAvailableCell_available s self cells (r : Q) :
  availableCells self s = Some (cells, s) → (0 <= r < 1)%Q →
  match cells with
  | [] => randomAvailableCell self r s = Some (None, s)
  | _ => ∃ p, randomAvailableCell self r s = Some (Some p, s) ∧ p ∈ cells
  end.
Proof.
  intros Ha [Hlo Hhi]. rewrite (randomAvailableCell_run _ _ _ _ Ha).
  destruct cells as [|c cells']; [done|].
  set (n := length (c :: cells')). simpl (_ =? 0)%nat.
  assert (0 < inject_Z (Z.of_nat n))%Q as Hn by (apply inject_Z_pos; unfold n; simpl; lia).
  set (k := Qfloor (r * inject_Z (Z.of_nat n))).
  assert (0 ≤ k < Z.of_nat n)%Z as Hk.
  { split.
    - unfold k. rewrite <-(Qfloor_Z 0). apply Qfloor_resp_le.
      change (inject_Z 0) with 0%Q. apply Qmult_le_0_compat; [done|by apply Qlt_le_weak].
    - rewrite Zlt_Qlt. eapply Qle_lt_trans; [apply Qfloor_le|].
      rewrite <-(Qmult_1_l (inject_Z _)) at 2. by apply Qmult_lt_compat_r. }
  destruct (js_index_in_range (c :: cells') k) as [p Hp]; [done|].
  exists p. rewrite Hp. split; [done|].
  apply js_index_Some in Hp as [_ Hp]. by eapply list_elem_of_lookup_2.
Qed.

End RandomPick.

(** ** Writing a cell *)

Section WriteCell.
Context {T : Type} `{!Tile.Intf T}.
Implicit Types (s : store T) (self : loc).

Lemma insertTile_write self tile : insertTile self tile = write_at_tile self tile (Some tile).
Proof. done. Qed.
Lemma removeTile_write self tile : removeTile self tile = write_at_tile self tile None.
Proof. done. Qed.

Lemma write_at_tile_run s self tile v g t :
  grid_at s self = Some g → tile_at s tile = Some t → rows_ok g →
  (0 ≤ Tile.x t < Grid.size g)%Z →
  ∃ cells, write_cell (Grid.cells g) (Tile.x t) (Tile.y t) v = Some cells ∧
    write_at_tile self tile v s = Some (tt, store_put_grid s self (Grid.with_cells g cells)).
Proof.
  intros Hg Ht Hrows Hx. unfold rows_ok in Hrows.
  destruct (write_cell_total (Grid.cells g) (Tile.x t) (Tile.y t) v) as (cells & Hw & _); [lia|].
  exists cells. split; [done|]. unfold write_at_tile, st_bind.
  rewrite (get_grid_run _ _ _ Hg), (get_tile_run _ _ _ Ht). simpl. by rewrite Hw.
Qed.

(** A write that succeeds found the grid [self] and the tile, wrote the
    cell, and replaced the object [self] by the grid with the new cells;
    nothing else changed. *)
Lemma write_at_tile_puts s self tile v s' :
  write_at_tile self tile v s = Some (tt, s') →
  ∃ g t cells, grid_at s self = Some g ∧ tile_at s tile = Some t ∧
    write_cell (Grid.cells g) (Tile.x t) (Tile.y t) v = Some cells ∧
    s' = store_put_grid s self (Grid.with_cells g cells).
Proof.
  unfold write_at_tile, st_bind, get_grid, get_tile, st_lift.
  destruct (grid_at s self) as [g|]; [|done].
  destruct (tile_at s tile) as [t|]; [|done].
  destruct (write_cell _ _ _ _) as [cells|] eqn:Hw; [|done]. intros [= <-].
  by exists g, t, cells.
Qed.

(** A tile whose [x] names no row makes the write throw a [TypeError]. *)
Lemma write_at_tile_throws s self tile v g t :
  grid_at s self = Some g → tile_at s tile = Some t → rows_ok g →
  (Tile.x t < 0 ∨ Grid.size g ≤ Tile.x t)%Z →
  write_at_tile self tile v s = None.
Proof.
  intros Hg Ht Hrows Hx. unfold rows_ok in Hrows. unfold write_at_tile, st_bind.
  rewrite (get_grid_run _ _ _ Hg), (get_tile_run _ _ _ Ht). simpl.
  rewrite write_cell_outside; [done|lia].
Qed.

(** The cells after the write: the tile's cell holds [v] (when its [y] is
    an array index), every other cell is unchanged. *)
Lemma cell_of_write g x y v cells x' y' :
  write_cell (Grid.cells g) x y v = Some cells →
  cell_of (Grid.with_cells g cells) x' y' =
    if decide ((x', y') = (x, y) ∧ (0 ≤ y ≤ js_max_index)%Z) then v else cell_of g x' y'.
Proof.
  intros Hw. unfold cell_of. simpl. rewrite (read_write_cell _ _ _ _ _ _ _ Hw).
  by case_decide.
Qed.

Lemma rows_ok_write g x y v cells :
  write_cell (Grid.cells g) x y v = Some cells → rows_ok g → rows_ok (Grid.with_cells g cells).
Proof. unfold rows_ok. simpl. intros Hw. by rewrite (write_cell_length _ _ _ _ _ Hw). Qed.
End WriteCell.

#[export] Hint Resolve rows_ok_write : grid.

Section CellTheorems.
Context {T : Type} `{!Tile.Intf T}.
Implicit Types (s : store T) (self : loc).

Lemma write_at_tile_spec s self tile v g t :
  grid_at s self = Some g → tile_at s tile = Some t → rows_ok g →
  (0 ≤ Tile.x t < Grid.size g)%Z →
  ∃ g', write_at_tile self tile v s = Some (tt, store_put_grid s self g') ∧
    Grid.size g' = Grid.size g ∧ rows_ok g' ∧
    ∀ x y, cell_of g' x y =
      if decide ((x, y) = (Tile.x t, Tile.y t) ∧ (0 ≤ Tile.y t ≤ js_max_index)%Z)
      then v else cell_of g x y.
Proof.
  intros Hg Ht Hrows Hx.
  destruct (write_at_tile_run s self tile v g t) as (cells & Hw & Hrun); [done..|].
  exists (Grid.with_cells g cells). split_and!; eauto with grid.
  intros. by apply cell_of_write.
Qed.

(** C8: [insertTile] on a tile whose [x] names a row succeeds and stores
    the tile at its own coordinates, leaving every other cell, the size
    and the row count as they were. *)
Theorem insertTile_spec s self tile g t :
  grid_at s self = Some g → tile_at s tile = Some t → rows_ok g →
  (0 ≤ Tile.x t < Grid.size g)%Z →
  ∃ g', insertTile self tile s = Some (tt, store_put_grid s self g') ∧
    Grid.size g' = Grid.size g ∧ rows_ok g' ∧
    ∀ x y, cell_of g' x y =
      if decide ((x, y) = (Tile.x t, Tile.y t) ∧ (0 ≤ Tile.y t ≤ js_max_index)%Z)
      then Some tile else cell_of g x y.
Proof. rewrite insertTile_write. apply write_at_tile_spec. Qed.

(** C25: [removeTile] clears the cell at the tile's own coordinates,
    whatever that cell holds, and nothing else. *)
Theorem removeTile_spec s self tile g t :
  grid_at s self = Some g → tile_at s tile = Some t → rows_ok g →
  (0 ≤ Tile.x t < Grid.size g)%Z →
  ∃ g', removeTile self tile s = Some (tt, store_put_grid s self g') ∧
    Grid.size g' = Grid.size g ∧ rows_ok g' ∧
    ∀ x y, cell_of g' x y =
      if decide ((x, y) = (Tile.x t, Tile.y t) ∧ (0 ≤ Tile.y t ≤ js_max_index)%Z)
      then None else cell_of g x y.
Proof. rewrite removeTile_write. apply write_at_tile_spec. Qed.

(** C28: a tile whose [x] is not a row index makes [insertTile] throw a
    [TypeError] ([this.cells[tile.x]] is [undefined]). *)
Theorem insertTile_throws s self tile g t :
  grid_at s self = Some g → tile_at s tile = Some t → rows_ok g →
  (Tile.x t < 0 ∨ Grid.size g ≤ Tile.x t)%Z →
  insertTile self tile s = None.
Proof. rewrite insertTile_write. apply write_at_tile_throws. Qed.

Lemma write_at_tile_inv s self tile v g t s' :
  grid_inv s g → grid_at s self = Some g → tile_at s tile = Some t →
  (∀ l, v = Some l → l = tile) →
  write_at_tile self tile v s = Some (tt, s') →
  ∃ g', grid_at s' self = Some g' ∧ grid_inv s' g'.
Proof.
  intros [Hrows Hpos] Hg Ht Hv Hrun.
  destruct (decide (0 ≤ Tile.x t < Grid.size g)%Z) as [Hx|Hx].
  2: { rewrite (write_at_tile_throws s self tile v g t) in Hrun; [done..|lia]. }
  destruct (write_at_tile_spec s self tile v g t) as (g' & Hrun' & _ & Hrows' & Hcells);
    [done..|].
  rewrite Hrun' in Hrun. injection Hrun as <-.
  exists g'. rewrite grid_at_put_grid, decide_True by done. split; [done|split; [done|]].
  intros x y l Hl. rewrite (tile_at_put_grid _ _ _ g) by done.
  rewrite Hcells in Hl. case_decide as Hc.
  - destruct Hc as [[= -> ->] _]. rewrite (Hv l Hl). eauto.
  - by apply Hpos.
Qed.

(** C22: [insertTile] preserves the grid invariant: the rows stay, and
    every stored tile sits at its own coordinates. *)
Theorem insertTile_inv s self tile g t s' :
  grid_inv s g → grid_at s self = Some g → tile_at s tile = Some t →
  insertTile self tile s = Some (tt, s') →
  ∃ g', grid_at s' self = Some g' ∧ grid_inv s' g'.
Proof.
  rewrite insertTile_write. intros ????. eapply write_at_tile_inv; eauto. naive_solver.
Qed.

(** [removeTile] preserves the grid invariant. *)
Lemma removeTile_inv s self tile g t s' :
  grid_inv s g → grid_at s self = Some g → tile_at s tile = Some t →
  removeTile self tile s = Some (tt, s') →
  ∃ g', grid_at s' self = Some g' ∧ grid_inv s' g'.
Proof.
  rewrite removeTile_write. intros ????. eapply write_at_tile_inv; eauto. done.
Qed.
End CellTheorems.

Lemma withinBounds_spec (p : Z * Z) :
  withinBounds p = true ↔ (0 ≤ p.1 < 4 ∧ 0 ≤ p.2 < 4)%Z.
Proof.
  unfold withinBounds. rewrite !andb_true_iff, !Z.leb_le, !Z.ltb_lt. naive_solver.
Qed.

Section Content.
Context {T : Type} `{!Tile.Intf T}.
Implicit Types (s : store T) (self : loc).

Lemma cellContent_run s self g c :
  grid_at s self = Some g →
  cellContent self c s =
    if withinBounds c then (λ t, (t, s)) <$> read_cell (Grid.cells g) c.1 c.2
    else Some (None, s).
Proof.
  intros Hg. unfold cellContent, st_bind. rewrite (get_grid_run _ _ _ Hg).
  unfold st_lift, st_ret. destruct (withinBounds c); [|done].
  by destruct (read_cell _ _ _).
Qed.

(** Inside the [4 × 4] region and inside the rows, [cellContent] reads
    the cell. *)
Lemma cellContent_in s self g x y :
  grid_at s self = Some g → rows_ok g → withinBounds (x, y) = true →
  (x < Grid.size g)%Z →
  cellContent self (x, y) s = Some (cell_of g x y, s).
Proof.
  intros Hg Hrows Hb Hx. rewrite (cellContent_run _ _ g) by done. rewrite Hb.
  apply withinBounds_spec in Hb. unfold rows_ok in Hrows. simpl in *.
  unfold cell_of. destruct (read_cell_total (Grid.cells g) x y) as [c ->]; [lia|done].
Qed.

(** C19: a tile inserted inside the region is what [cellContent] returns
    at its coordinates; after [removeTile] on it the cell reads [null]. *)
Theorem insertTile_cellContent_removeTile s self tile g t :
  grid_at s self = Some g → tile_at s tile = Some t → rows_ok g →
  withinBounds (Tile.x t, Tile.y t) = true → (Tile.x t < Grid.size g)%Z →
  ∃ s1 s2, insertTile self tile s = Some (tt, s1) ∧
    cellContent self (Tile.x t, Tile.y t) s1 = Some (Some tile, s1) ∧
    removeTile self tile s1 = Some (tt, s2) ∧
    cellContent self (Tile.x t, Tile.y t) s2 = Some (None, s2).
Proof.
  intros Hg Ht Hrows Hb Hx. pose proof Hb as Hb'%withinBounds_spec. simpl in Hb'.
  rewrite insertTile_write, removeTile_write.
  destruct (write_at_tile_spec s self tile (Some tile) g t) as (g1 & Hins & Hsize1 & Hrows1 & Hc1);
    [done..|lia|].
  set (s1 := store_put_grid s self g1).
  assert (grid_at s1 self = Some g1) as Hg1.
  { unfold s1. by rewrite grid_at_put_grid, decide_True. }
  assert (tile_at s1 tile = Some t) as Ht1.
  { unfold s1. by erewrite tile_at_put_grid. }
  destruct (write_at_tile_spec s1 self tile None g1 t) as (g2 & Hrem & Hsize2 & Hrows2 & Hc2);
    [done..|lia|].
  exists s1, (store_put_grid s1 self g2). split_and!; [done| |done|].
  - rewrite (cellContent_in _ _ g1) by (done || lia). rewrite Hc1, decide_True; [done|].
    split; [done|unfold js_max_index; lia].
  - rewrite (cellContent_in _ _ g2) by (rewrite ?grid_at_put_grid, ?decide_True; done || lia).
    rewrite Hc2, decide_True; [done|]. split; [done|unfold js_max_index; lia].
Qed.

(** Outside the [4 × 4] region [cellContent] is [null], whatever the
    grid holds there. *)
Lemma cellContent_outside s self g c :
  grid_at s self = Some g → withinBounds c = false → cellContent self c s = Some (None, s).
Proof. intros Hg Hb. by rewrite (cellContent_run _ _ g), Hb. Qed.

(** C31: on a board smaller than [4 × 4], [cellContent] throws a
    [TypeError] at a position [withinBounds] accepts but no row holds:
    [this.cells[x]] is [undefined] for [size <= x < 4]. *)
Theorem cellContent_throws_small_board s self g x y :
  grid_at s self = Some g → rows_ok g →
  withinBounds (x, y) = true → (Grid.size g ≤ x)%Z →
  cellContent self (x, y) s = None.
Proof.
  intros Hg Hrows Hb Hx. rewrite (cellContent_run _ _ g), Hb by done.
  apply withinBounds_spec in Hb. unfold rows_ok in Hrows. simpl in *.
  rewrite read_cell_outside; [done|lia].
Qed.

(** C32: on a board larger than [4 × 4], a tile outside the region is
    invisible to [cellAvailable], which calls the cell available, while
    [availableCells] does not list it. *)
Theorem cellAvailable_blind_large_board s self g x y l :
  grid_at s self = Some g → rows_ok g →
  (4 ≤ x < Grid.size g ∧ 0 ≤ y < Grid.size g)%Z → cell_of g x y = Some l →
  cellAvailable self (x, y) s = Some (true, s) ∧
  ∃ cells, availableCells self s = Some (cells, s) ∧ (x, y) ∉ cells.
Proof.
  intros Hg Hrows Hxy Hl. split.
  - unfold cellAvailable, cellOccupied, st_bind.
    rewrite (cellContent_outside _ _ g); [done..|].
    apply not_true_is_false. rewrite withinBounds_spec. simpl. lia.
  - eexists. split; [by apply availableCells_run|].
    rewrite list_elem_of_filter. simpl. rewrite Hl. naive_solver.
Qed.
End Content.

Section Fresh.
Context {T : Type} `{!Tile.Intf T}.
Implicit Types (s : store T).

Lemma new_Grid_empty_run s size :
  new_Grid size None s =
    Some (next_loc s, mkStore (<[next_loc s := OGrid (Grid.mk size (empty size) (Some 0%Z) None)]>
                                 (heap s)) (N.succ (next_loc s)) (newGrid s)).
Proof. done. Qed.

(** C26: a grid built by [new Grid(size)] has all [size × size] cells
    available, in row-major order, and [cellsAvailable] holds exactly when
    [size] is positive. *)
Theorem new_Grid_availableCells s size :
  ∃ self s' cells, new_Grid size None s = Some (self, s') ∧
    availableCells self s' = Some (cells, s') ∧
    cells = coords size ∧ length cells = (Z.to_nat size * Z.to_nat size)%nat ∧
    cellsAvailable self s' = Some (bool_decide (0 < size)%Z, s').
Proof.
  rewrite new_Grid_empty_run. set (g := Grid.mk size (empty size) (Some 0%Z) None).
  set (s' := mkStore _ _ _).
  assert (grid_at s' (next_loc s) = Some g) as Hg.
  { unfold grid_at, s'. simpl. by rewrite lookup_insert_eq. }
  assert (availableCells (next_loc s) s' = Some (coords size, s')) as Ha.
  { rewrite (availableCells_run _ _ g) by (done || apply empty_rows_ok).
    rewrite filter_all; [done|]. apply Forall_forall. intros. apply cell_of_empty. }
  exists (next_loc s), s', (coords size). split_and!; [done..|apply length_coords|].
  unfold cellsAvailable, st_bind. rewrite Ha, length_coords. unfold st_ret. do 2 f_equal.
  destruct (decide (0 < size)%Z).
  - rewrite bool_decide_true by done. apply negb_true_iff, Nat.eqb_neq. nia.
  - rewrite bool_decide_false by done. apply negb_false_iff, Nat.eqb_eq.
    rewrite Z2Nat.nonpos by lia. done.
Qed.
End Fresh.

(** ** Witnesses: the theorems at the concrete boards *)

Lemma eachCell_visits_witness :
  rows_ok ex_grid ∧
  eachCell ex_grid (λ x y c trace, trace ++ [(x, y, c)]) [] =
    Some ((λ p, (p.1, p.2, cell_of ex_grid p.1 p.2)) <$> coords (Grid.size ex_grid)).
Proof. split; [reflexivity|]. apply eachCell_visits. reflexivity. Defined.

Lemma availableCells_spec_witness :
  grid_at ex_store 0%N = Some ex_grid ∧ rows_ok ex_grid ∧
  ∃ cells, availableCells 0%N ex_store = Some (cells, ex_store) ∧
    cells = filter (λ p, cell_of ex_grid p.1 p.2 = None) (coords (Grid.size ex_grid)) ∧
    NoDup cells ∧
    ∀ x y, (x, y) ∈ cells ↔
      (0 ≤ x < Grid.size ex_grid ∧ 0 ≤ y < Grid.size ex_grid)%Z ∧ cell_of ex_grid x y = None.
Proof.
  split; [reflexivity|]. split; [reflexivity|].
  apply availableCells_spec; reflexivity.
Defined.

Lemma randomAvailableCell_uniform_witness :
  availableCells 0%N ex_store = Some (ex_free, ex_store) ∧ (6 < length ex_free)%nat ∧
  (inject_Z (Z.of_nat 6) / inject_Z (Z.of_nat (length ex_free)) <= 1 # 2 <
   inject_Z (Z.of_nat 6 + 1) / inject_Z (Z.of_nat (length ex_free)))%Q ∧
  randomAvailableCell 0%N (1 # 2) ex_store = Some (ex_free !! 6%nat, ex_store).
Proof.
  assert (availableCells 0%N ex_store = Some (ex_free, ex_store)) as Ha by reflexivity.
  assert (inject_Z (Z.of_nat 6) / inject_Z (Z.of_nat (length ex_free)) <= 1 # 2 <
          inject_Z (Z.of_nat 6 + 1) / inject_Z (Z.of_nat (length ex_free)))%Q as Hr.
  { split; vm_compute; [intros; discriminate|reflexivity]. }
  split; [done|]. split; [unfold ex_free; simpl; lia|]. split; [done|].
  apply randomAvailableCell_uniform; [done|unfold ex_free; simpl; lia|done].
Defined.

Lemma insertTile_spec_witness :
  grid_at ex_store 0%N = Some ex_grid ∧ tile_at ex_store 4%N = Some (Tile.Impl.mk 2 1 2) ∧
  rows_ok ex_grid ∧ (0 ≤ Tile.x (Tile.Impl.mk 2 1 2) < Grid.size ex_grid)%Z ∧
  ∃ g', insertTile 0%N 4%N ex_store = Some (tt, store_put_grid ex_store 0%N g') ∧
    Grid.size g' = Grid.size ex_grid ∧ rows_ok g' ∧
    ∀ x y, cell_of g' x y =
      if decide ((x, y) = (Tile.x (Tile.Impl.mk 2 1 2), Tile.y (Tile.Impl.mk 2 1 2)) ∧
                 (0 ≤ Tile.y (Tile.Impl.mk 2 1 2) ≤ js_max_index)%Z)
      then Some 4%N else cell_of ex_grid x y.
Proof.
  do 3 (split; [reflexivity|]). split; [simpl; lia|].
  apply insertTile_spec; [reflexivity..|simpl; lia].
Defined.

Lemma removeTile_spec_witness :
  grid_at ex_store 0%N = Some ex_grid ∧ tile_at ex_store 2%N = Some (Tile.Impl.mk 1 2 3) ∧
  rows_ok ex_grid ∧ (0 ≤ Tile.x (Tile.Impl.mk 1 2 3) < Grid.size ex_grid)%Z ∧
  ∃ g', removeTile 0%N 2%N ex_store = Some (tt, store_put_grid ex_store 0%N g') ∧
    Grid.size g' = Grid.size ex_grid ∧ rows_ok g' ∧
    ∀ x y, cell_of g' x y =
      if decide ((x, y) = (Tile.x (Tile.Impl.mk 1 2 3), Tile.y (Tile.Impl.mk 1 2 3)) ∧
                 (0 ≤ Tile.y (Tile.Impl.mk 1 2 3) ≤ js_max_index)%Z)
      then None else cell_of ex_grid x y.
Proof.
  do 3 (split; [reflexivity|]). split; [simpl; lia|].
  apply removeTile_spec; [reflexivity..|simpl; lia].
Defined.

Lemma insertTile_throws_witness :
  grid_at ex_store 0%N = Some ex_grid ∧ tile_at ex_store 5%N = Some (Tile.Impl.mk 7 0 2) ∧
  rows_ok ex_grid ∧
  (Tile.x (Tile.Impl.mk 7 0 2) < 0 ∨ Grid.size ex_grid ≤ Tile.x (Tile.Impl.mk 7 0 2))%Z ∧
  insertTile 0%N 5%N ex_store = None.
Proof.
  do 3 (split; [reflexivity|]). split; [simpl; lia|].
  apply (insertTile_throws _ _ _ ex_grid (Tile.Impl.mk 7 0 2)); [reflexivity..|simpl; lia].
Defined.

Lemma insertTile_inv_witness :
  grid_inv ex_store ex_grid ∧ grid_at ex_store 0%N = Some ex_grid ∧
  tile_at ex_store 4%N = Some (Tile.Impl.mk 2 1 2) ∧
  insertTile 0%N 4%N ex_store = Some (tt, ex_after_insert) ∧
  ∃ g', grid_at ex_after_insert 0%N = Some g' ∧ grid_inv ex_after_insert g'.
Proof.
  assert (grid_inv ex_store ex_grid) as Hinv by (apply grid_wf_sound; reflexivity).
  split; [done|]. do 3 (split; [reflexivity|]).
  apply (insertTile_inv ex_store 0%N 4%N ex_grid (Tile.Impl.mk 2 1 2)); [done|reflexivity..].
Defined.

Lemma insertTile_cellContent_removeTile_witness :
  grid_at ex_store 0%N = Some ex_grid ∧ tile_at ex_store 4%N = Some (Tile.Impl.mk 2 1 2) ∧
  rows_ok ex_grid ∧
  withinBounds (Tile.x (Tile.Impl.mk 2 1 2), Tile.y (Tile.Impl.mk 2 1 2)) = true ∧
  (Tile.x (Tile.Impl.mk 2 1 2) < Grid.size ex_grid)%Z ∧
  ∃ s1 s2, insertTile 0%N 4%N ex_store = Some (tt, s1) ∧
    cellContent 0%N (Tile.x (Tile.Impl.mk 2 1 2), Tile.y (Tile.Impl.mk 2 1 2)) s1 =
      Some (Some 4%N, s1) ∧
    removeTile 0%N 4%N s1 = Some (tt, s2) ∧
    cellContent 0%N (Tile.x (Tile.Impl.mk 2 1 2), Tile.y (Tile.Impl.mk 2 1 2)) s2 =
      Some (None, s2).
Proof.
  do 4 (split; [reflexivity|]). split; [simpl; lia|].
  apply (insertTile_cellContent_removeTile _ _ _ ex_grid); [reflexivity..|simpl; lia].
Defined.

Lemma cellContent_throws_small_board_witness :
  grid_at ex_small 0%N = Some (Grid.mk 2 [[None; None]; [None; None]] (Some 0%Z) None) ∧
  rows_ok (Grid.mk 2 [[None; None]; [None; None]] (Some 0%Z) None) ∧
  withinBounds (2, 0)%Z = true ∧ (2 ≤ 2)%Z ∧
  cellContent 0%N (2, 0)%Z ex_small = None.
Proof.
  do 3 (split; [reflexivity|]). split; [lia|].
  apply (cellContent_throws_small_board _ _ (Grid.mk 2 [[None; None]; [None; None]] (Some 0%Z) None));
    [reflexivity..|simpl; lia].
Defined.

Lemma cellAvailable_blind_large_board_witness :
  grid_at ex_large 0%N = Some (Grid.mk 5 ex_large_cells (Some 0%Z) None) ∧
  rows_ok (Grid.mk 5 ex_large_cells (Some 0%Z) None) ∧
  (4 ≤ 4 < 5 ∧ 0 ≤ 0 < 5)%Z ∧
  cell_of (Grid.mk 5 ex_large_cells (Some 0%Z) None) 4 0 = Some 1%N ∧
  cellAvailable 0%N (4, 0)%Z ex_large = Some (true, ex_large) ∧
  ∃ cells, availableCells 0%N ex_large = Some (cells, ex_large) ∧ (4, 0)%Z ∉ cells.
Proof.
  do 2 (split; [reflexivity|]). split; [lia|]. split; [reflexivity|].
  apply (cellAvailable_blind_large_board _ _ (Grid.mk 5 ex_large_cells (Some 0%Z) None) _ _ 1%N);
    [reflexivity..|simpl; lia|reflexivity].
Defined.
