(* ===== verification/Score.v ===== *)
(** * Difficulty-aware tile generation and the score heuristic
      ([src/js/grid_zen.js:105-184])

    [getScore] collects the log values of the tiles of the [size × size]
    board, sorts them in decreasing order, caches the largest in
    [highestTileLogValue], computes the floor [lowTile] with
    [getGeneratedTileValue], and adds, for each [i >= 1] while
    [vals[i] > lowTile], the term [((vals[i] - lowTile) / (vals[i-1] -
    lowTile))^2 * 9 / 10^i] to [vals[0] - 1].  [getGeneratedTileValue]
    reads the cached value and the global [gameDifficulty], a parameter of
    the section below.  [lowestTileLogValue] and [evenNumLowValues] scan
    the fixed [4 × 4] region.

    The arithmetic is exact over [Q]: the values are small integers, and
    the rounding of the double-precision additions of [way2] is not
    modelled.  Non-finite numbers (NaN, infinities) are [None]. *)

From S2P Require Import Prelude Tile Objects Cells.
From Stdlib Require Import QArith Qround Psatz Lqa.
Close Scope Q_scope.

(** [Math.ceil(h / 2)] *)
Definition ceil_half (h : Z) : Z := Qceiling (inject_Z h / 2)%Q.

(** The order the comparator [function(a, b){return b-a}] sorts by. *)
Definition desc (a b : Z) : Prop := (b ≤ a)%Z.
#[export] Instance desc_dec : RelDecision desc.
Proof. intros a b. unfold desc. apply _. Defined.

(** [vals.sort(function(a, b){return b-a})].  The comparator is a total
    order on integers, so every sort that respects it returns the same
    list ([sort_desc_unique] below); stdpp's merge sort is one. *)
Definition sort_desc (vals : list Z) : list Z := merge_sort desc vals.

(** [x + y] on numbers that may be non-finite. *)
Definition js_add (x y : jsnum) : jsnum :=
  a ← x; b ← y; Some (a + b)%Q.

(** The body of the loop of [getScore] at index [i]:
    [a = (vals[i] - lowTile) / (vals[i-1] - lowTile); b = Math.pow(10, i);
     c = 9 / b; way2 += Math.pow(a, 2) * c]. *)
Definition score_term (i : nat) (prev v lowTile : Z) : jsnum :=
  a ← js_div (inject_Z (v - lowTile)) (inject_Z (prev - lowTile));
  let b := inject_Z (10 ^ Z.of_nat i) in
  let c := (9 / b)%Q in
  Some (a * a * c)%Q.

(** The loop [for (var i = 1; i < vals.length && vals[i] > lowTile; i++)],
    with [fuel] bounding the number of iterations. *)
Fixpoint way2_loop (fuel : nat) (vals : list Z) (lowTile : option Z) (i : nat)
    (way2 : jsnum) : jsnum :=
  match fuel with
  | O => way2
  | S fuel' =>
      match vals !! i with
      | Some vi =>
          if js_gtZ vi lowTile then
            match lowTile with
            | Some low =>
                way2_loop fuel' vals lowTile (S i)
                  (js_add way2 (score_term i (vals !!! (i - 1)%nat) vi low))
            | None => way2
            end
          else way2
      | None => way2
      end
  end.

(** The arithmetic of [getScore] once [vals] is sorted and [lowTile]
    computed: [way2 = 0], the loop, then [way2 += vals[0] - 1] ([vals[0]]
    of an empty list is [undefined], and the sum NaN). *)
Definition score_of (vals : list Z) (lowTile : option Z) : jsnum :=
  let way2 := way2_loop (length vals) vals lowTile 1 (Some 0%Q) in
  match vals with
  | [] => None
  | v0 :: _ => js_add way2 (Some (inject_Z (v0 - 1)))
  end.

(** The loop of [score_of] walked along the sorted list: the reference
    the fuelled loop is proved equal to ([way2_loop_walk]). *)
Fixpoint way2_walk (i : nat) (prev : Z) (rest : list Z) (lowTile : Z) (way2 : jsnum) : jsnum :=
  match rest with
  | [] => way2
  | v :: rest' =>
      if (lowTile <? v)%Z then
        way2_walk (S i) v rest' lowTile (js_add way2 (score_term i prev v lowTile))
      else way2
  end.

(** The update of [lowestTileLogValue]'s loop for one tile value. *)
Definition lowest_step (lowestVal v : Z) : Z :=
  if (v <? lowestVal)%Z || (lowestVal <? 0)%Z then v else lowestVal.

(** The update of [evenNumLowValues]' loop for one tile value. *)
Definition count_step (lowestVal num v : Z) : Z :=
  if (v =? lowestVal)%Z then (num + 1)%Z else num.

(** [h] is the smallest element of [l]. *)
Definition is_min (h : Z) (l : list Z) : Prop := h ∈ l ∧ ∀ v, v ∈ l → (h ≤ v)%Z.

(** [h] is the largest element of [l]. *)
Definition is_max (h : Z) (l : list Z) : Prop := h ∈ l ∧ ∀ v, v ∈ l → (v ≤ h)%Z.

Section Score.
Context {T : Type} `{!Tile.Intf T}.
Local Abbreviation M := (ST (store T)).

(** The global [gameDifficulty] the surrounding game owns. *)
Variable gameDifficulty : Z.

(** The value [getGeneratedTileValue] computes from the cached highest
    log value ([None]: [undefined], which makes every step NaN). *)
Definition generatedFrom (highLogValue : option Z) : option Z :=
  match highLogValue with
  | None => None
  | Some h =>
      let tileLogValue := ceil_half h in
      if (gameDifficulty <? h - tileLogValue)%Z then Some (h - gameDifficulty)%Z
      else Some tileLogValue
  end.

(** [Grid.prototype.getHighestTileLogValue] *)
Definition getHighestTileLogValue (self : loc) : M (option Z) :=
  do g <- get_grid self; st_ret (Grid.highestTileLogValue g).

(** [Grid.prototype.getGeneratedTileValue] *)
Definition getGeneratedTileValue (self : loc) : M (option Z) :=
  do highLogValue <- getHighestTileLogValue self;
  st_ret (generatedFrom highLogValue).

(** The first loop of [getScore]: the log values of the tiles, row by
    row. *)
Definition collect_logValues (g : Grid.t) : M (list Z) :=
  st_fold (range (Grid.size g)) (λ x vals,
    st_fold (range (Grid.size g)) (λ y vals,
      do c <- st_lift (read_cell (Grid.cells g) x y);
      match c with
      | Some l => do t <- get_tile l; st_ret (vals ++ [Tile.logValue t])
      | None => st_ret vals
      end) vals) [].

(** The nested loop over the [n × n] region that [getScore],
    [lowestTileLogValue] and [evenNumLowValues] each write out: every
    cell holding a tile passes its log value to [F]. *)
Definition scan_region {C} (n : Z) (g : Grid.t) (F : C → Z → C) (c0 : C) : M C :=
  st_fold (range n) (λ x acc,
    st_fold (range n) (λ y acc,
      do c <- st_lift (read_cell (Grid.cells g) x y);
      match c with
      | Some l => do t <- get_tile l; st_ret (F acc (Tile.logValue t))
      | None => st_ret acc
      end) acc) c0.

(** The log values of the tiles of the [n × n] region, row by row. *)
Definition region_values (s : store T) (g : Grid.t) (n : Z) : list Z :=
  omap (λ p, l ← cell_of g p.1 p.2; t ← tile_at s l; Some (Tile.logValue t)) (coords n).

(** The log values of the tiles of the board, row by row: what the
    first loop of [getScore] collects. *)
Definition logValues (s : store T) (g : Grid.t) : list Z :=
  region_values s g (Grid.size g).

(** [Grid.prototype.lowestTileLogValue]: the fixed [4 × 4] region, [-1]
    when it holds no tile. *)
Definition lowestTileLogValue (self : loc) : M Z :=
  do g <- get_grid self;
  st_fold (range 4) (λ x lowestVal,
    st_fold (range 4) (λ y lowestVal,
      do c <- st_lift (read_cell (Grid.cells g) x y);
      match c with
      | Some l =>
          do t <- get_tile l;
          st_ret (lowest_step lowestVal (Tile.logValue t))
      | None => st_ret lowestVal
      end) lowestVal) (-1)%Z.

(** [Grid.prototype.evenNumLowValues] *)
Definition evenNumLowValues (self : loc) : M bool :=
  do lowestVal <- lowestTileLogValue self;
  do g <- get_grid self;
  do num <- st_fold (range 4) (λ x num,
    st_fold (range 4) (λ y num,
      do c <- st_lift (read_cell (Grid.cells g) x y);
      match c with
      | Some l =>
          do t <- get_tile l;
          st_ret (count_step lowestVal num (Tile.logValue t))
      | None => st_ret num
      end) num) 0%Z;
  st_ret (num mod 2 =? 0)%Z.

(** [Grid.prototype.getScore] *)
Definition getScore (self : loc) : M jsnum :=
  do g <- get_grid self;
  do vals <- collect_logValues g;
  let vals := sort_desc vals in
  put_grid self (Grid.with_highest g (head vals)) ;;
  do lowTile <- getGeneratedTileValue self;
  st_ret (score_of vals lowTile).
End Score.

(** ** The arithmetic of the heuristic *)

Lemma ceil_half_spec h : ceil_half h = ((h + 1) / 2)%Z.
Proof.
  unfold ceil_half, Qceiling.
  rewrite (Qfloor_comp _ (inject_Z (- h) / inject_Z 2)).
  - rewrite <-Zdiv_Qdiv.
    pose proof (Z.div_mod (- h) 2 ltac:(lia)). pose proof (Z.mod_pos_bound (- h) 2 ltac:(lia)).
    pose proof (Z.div_mod (h + 1) 2 ltac:(lia)). pose proof (Z.mod_pos_bound (h + 1) 2 ltac:(lia)).
    lia.
  - rewrite inject_Z_opp. unfold Qdiv. change (inject_Z 2) with 2%Q. ring.
Qed.
Lemma score_term_bound i prev v low :
  (low < v ≤ prev)%Z →
  ∃ t, score_term i prev v low = Some t ∧ (0 <= t <= 9 * / inject_Z (10 ^ Z.of_nat i))%Q.
Proof.
  intros Hv. unfold score_term.
  assert (0 < inject_Z (prev - low))%Q as Hd.
  { change 0%Q with (inject_Z 0). rewrite <-Zlt_Qlt. lia. }
  rewrite js_div_finite by (intros E; rewrite E in Hd; by apply (Qlt_irrefl 0)).
  simpl. eexists; split; [done|].
  set (a := (inject_Z (v - low) / inject_Z (prev - low))%Q).
  assert (0 <= a <= 1)%Q as [Ha0 Ha1].
  { split.
    - apply Qle_shift_div_l; [done|]. rewrite Qmult_0_l. change 0%Q with (inject_Z 0). rewrite <-Zle_Qle. lia.
    - apply Qle_shift_div_r; [done|]. rewrite Qmult_1_l. rewrite <-Zle_Qle. lia. }
  assert (0 < inject_Z (10 ^ Z.of_nat i))%Q as Hp.
  { change 0%Q with (inject_Z 0). rewrite <-Zlt_Qlt. apply Z.pow_pos_nonneg; lia. }
  assert (0 < / inject_Z (10 ^ Z.of_nat i))%Q as Hw by (by apply Qinv_lt_0_compat).
  change (9 / inject_Z (10 ^ Z.of_nat i))%Q with (9 * / inject_Z (10 ^ Z.of_nat i))%Q.
  set (w := (/ inject_Z (10 ^ Z.of_nat i))%Q) in *. clearbody a w.
  assert (0 <= a * a <= 1)%Q as [Hs0 Hs1] by (split; nra).
  split.
  - apply Qmult_le_0_compat; lra.
  - rewrite <-(Qmult_1_l (9 * w)) at 2. apply Qmult_le_compat_r; lra.
Qed.

Lemma way2_loop_walk fuel vals low i acc :
  (1 ≤ i)%nat → (length vals ≤ fuel + i)%nat →
  way2_loop fuel vals (Some low) i acc = way2_walk i (vals !!! (i - 1)%nat) (drop i vals) low acc.
Proof.
  revert i acc. induction fuel as [|fuel IH]; intros i acc Hi Hlen; simpl.
  - by rewrite drop_ge by lia.
  - destruct (vals !! i) as [vi|] eqn:Hvi.
    + rewrite (drop_S _ vi) by done. simpl.
      destruct (low <? vi)%Z; [|done].
      rewrite IH by lia. replace (S i - 1)%nat with i by lia.
      by rewrite (list_lookup_total_correct _ _ _ Hvi).
    + rewrite drop_ge; [done|]. apply lookup_ge_None in Hvi. lia.
Qed.

Lemma way2_loop_nan fuel vals i acc : way2_loop fuel vals None i acc = acc.
Proof. destruct fuel; simpl; [done|]. by destruct (vals !! i). Qed.

Lemma pow10_inv_pos (i : nat) : (0 < / inject_Z (10 ^ Z.of_nat i))%Q.
Proof.
  apply Qinv_lt_0_compat. change 0%Q with (inject_Z 0). rewrite <-Zlt_Qlt.
  apply Z.pow_pos_nonneg; lia.
Qed.

Lemma pow10_inv_succ (i : nat) :
  (10 * / inject_Z (10 ^ Z.of_nat (S i)) == / inject_Z (10 ^ Z.of_nat i))%Q.
Proof.
  rewrite Nat2Z.inj_succ, Z.pow_succ_r by lia. rewrite inject_Z_mult, Qinv_mult_distr.
  rewrite Qmult_assoc. change (10 * / inject_Z 10)%Q with (10 # 10)%Q.
  rewrite (Qmult_comm (10 # 10)). unfold Qeq. simpl. lia.
Qed.

Lemma way2_walk_bounds i prev rest low acc :
  Sorted desc (prev :: rest) →
  ∃ r, way2_walk i prev rest low (Some acc) = Some r ∧
       (acc <= r < acc + 10 * / inject_Z (10 ^ Z.of_nat i))%Q.
Proof.
  revert i prev acc. induction rest as [|v rest IH]; intros i prev acc Hs; simpl.
  - exists acc. split; [done|]. pose proof (pow10_inv_pos i). lra.
  - apply Sorted_inv in Hs as [Hs Hhd]. apply HdRel_inv in Hhd. unfold desc in Hhd.
    destruct (Z.ltb_spec low v).
    + destruct (score_term_bound i prev v low) as (t & -> & Ht); [lia|]. simpl.
      destruct (IH (S i) v (acc + t)%Q Hs) as (r & -> & Hr).
      exists r. split; [done|]. rewrite pow10_inv_succ in Hr. lra.
    + exists acc. split; [done|]. pose proof (pow10_inv_pos i). lra.
Qed.

(** For a list sorted in decreasing order with first element [v0],
    whatever the floor [lowTile], the score is finite and lies in
    [[v0 - 1, v0)]: every loop term is at most [9/10^i], and their sum is
    below [1].  In particular no division by zero occurs. *)
Theorem score_of_bounds v0 rest lowTile :
  Sorted desc (v0 :: rest) →
  ∃ q, score_of (v0 :: rest) lowTile = Some q ∧ (inject_Z (v0 - 1) <= q < inject_Z v0)%Q.
Proof.
  intros Hs. unfold score_of. pose proof (inject_Z_sub v0 1) as Hv0.
  destruct lowTile as [low|].
  - rewrite way2_loop_walk by (simpl; lia). change (drop 1 (v0 :: rest)) with rest. change ((v0 :: rest) !!! (1 - 1)%nat) with v0.
    destruct (way2_walk_bounds 1 v0 rest low 0 Hs) as (r & -> & Hr).
    assert (10 * / inject_Z (10 ^ Z.of_nat 1) == 1)%Q as E by reflexivity.
    rewrite E in Hr. simpl. eexists; split; [done|]. change (inject_Z 1) with 1%Q in Hv0. lra.
  - rewrite way2_loop_nan. simpl. eexists; split; [done|]. change (inject_Z 1) with 1%Q in Hv0. lra.
Qed.

(** ** The sort *)

#[export] Instance desc_total : Total desc.
Proof. intros a b. unfold desc. lia. Qed.
#[export] Instance desc_trans : Transitive desc.
Proof. intros a b c. unfold desc. lia. Qed.
#[export] Instance desc_antisymm : AntiSymm (=) desc.
Proof. intros a b. unfold desc. lia. Qed.

Lemma sort_desc_sorted (vals : list Z) : Sorted desc (sort_desc vals).
Proof. apply Sorted_merge_sort, _. Qed.

Lemma sort_desc_Permutation (vals : list Z) : sort_desc vals ≡ₚ vals.
Proof. apply merge_sort_Permutation. Qed.

Lemma sorted_perm_sort_desc (vals sorted : list Z) :
  Sorted desc sorted → sorted ≡ₚ vals → sorted = sort_desc vals.
Proof.
  intros Hs Hp. apply (Sorted_unique desc); [done|apply sort_desc_sorted|].
  by rewrite sort_desc_Permutation.
Qed.

Lemma sort_desc_perm (l1 l2 : list Z) : l1 ≡ₚ l2 → sort_desc l1 = sort_desc l2.
Proof.
  intros Hp. apply sorted_perm_sort_desc; [apply sort_desc_sorted|].
  by rewrite sort_desc_Permutation.
Qed.

(** The first element of the sorted list is the largest value, and there
    is none for an empty list. *)
Lemma head_sort_desc (vals : list Z) :
  match head (sort_desc vals) with
  | None => vals = []
  | Some h => is_max h vals
  end.
Proof.
  pose proof (sort_desc_Permutation vals) as Hp.
  pose proof (sort_desc_sorted vals) as Hs. apply Sorted_StronglySorted in Hs; [|apply _].
  destruct (sort_desc vals) as [|h rest] eqn:E; simpl.
  - symmetry in Hp. by apply Permutation_nil_r in Hp.
  - split.
    + rewrite <-Hp. apply list_elem_of_here.
    + intros v Hv. rewrite <-Hp in Hv. apply elem_of_cons in Hv as [->|Hv]; [lia|].
      apply StronglySorted_inv in Hs as [_ Hall]. rewrite Forall_forall in Hall.
      apply (Hall v Hv).
Qed.

(** [vals.sort((a, b) => b - a)] returns a permutation of [vals]
    sorted in decreasing order, and it is the only one: whatever stable
    or unstable sort the engine uses, the sorted list is the same. *)
Lemma sort_desc_unique (vals : list Z) :
  Sorted desc (sort_desc vals) ∧ sort_desc vals ≡ₚ vals ∧
  ∀ sorted, Sorted desc sorted → sorted ≡ₚ vals → sorted = sort_desc vals.
Proof.
  split_and!; [apply sort_desc_sorted|apply sort_desc_Permutation|].
  intros sorted. apply sorted_perm_sort_desc.
Qed.

(** ** The generated tile value *)

Section Generated.
Variable gameDifficulty : Z.

Lemma generatedFrom_max (h : Z) :
  generatedFrom gameDifficulty (Some h) = Some (Z.max ((h + 1) / 2) (h - gameDifficulty))%Z.
Proof.
  unfold generatedFrom. rewrite ceil_half_spec.
  destruct (Z.ltb_spec gameDifficulty (h - (h + 1) / 2)); f_equal; lia.
Qed.

(** C6: the value [getGeneratedTileValue] computes from a highest log
    value [h] is [max(ceil(h/2), h - gameDifficulty)]; from [undefined]
    it is NaN. *)
Theorem generatedFrom_spec (h : Z) :
  generatedFrom gameDifficulty (Some h) =
    Some (Z.max ((h + 1) / 2) (h - gameDifficulty))%Z ∧
  generatedFrom gameDifficulty None = None.
Proof. split; [apply generatedFrom_max|done]. Qed.

(** C24: with a non-negative difficulty and a non-negative peak [h], the
    generated value is at most [h], at least [ceil(h/2)], and at most
    [gameDifficulty] below [h]. *)
Theorem generatedFrom_bounds (h : Z) :
  (0 ≤ gameDifficulty)%Z → (0 ≤ h)%Z →
  ∃ v, generatedFrom gameDifficulty (Some h) = Some v ∧
    ((h + 1) / 2 ≤ v ≤ h ∧ h - v ≤ gameDifficulty)%Z.
Proof.
  intros Hd Hh. rewrite generatedFrom_max.
  eexists; split; [done|].
  pose proof (Z.div_mod (h + 1) 2 ltac:(lia)). pose proof (Z.mod_pos_bound (h + 1) 2 ltac:(lia)).
  lia.
Qed.
End Generated.

(** ** The method [getScore] *)

Section ScoreRun.
Context {T : Type} `{!Tile.Intf T}.
Implicit Types (s : store T) (self : loc).

(** The first loop of [getScore] reads the store without changing it
    and collects the log values of the tiles row by row. *)
(** A region scan inside the rows reads the store without changing it
    and folds [F] over the log values of the region, row by row. *)
Lemma scan_region_spec {C} s g n (F : C → Z → C) (c0 : C) :
  grid_inv s g → (Z.to_nat n ≤ length (Grid.cells g))%nat →
  scan_region n g F c0 s = Some (foldl F c0 (region_values s g n), s).
Proof.
  intros [_ Htiles] Hn. unfold scan_region, region_values, coords.
  set (f := λ p : Z * Z, l ← cell_of g p.1 p.2; t ← tile_at s l; Some (Tile.logValue t)).
  set (step := λ acc p, match f p with Some v => F acc v | None => acc end).
  rewrite (st_fold_pure _ _ (λ x acc, foldl (λ acc y, step acc (x, y)) acc (range n))).
  - by rewrite foldl_omap, foldl_pairs.
  - intros x acc Hx%range_elem. apply st_fold_pure. intros y acc' _.
    unfold st_bind, st_lift.
    destruct (read_cell_total (Grid.cells g) x y) as [c Hc]; [lia|]. rewrite Hc.
    assert (cell_of g x y = c) as Hcell by (unfold cell_of; by rewrite Hc).
    unfold step, f. simpl. rewrite Hcell. destruct c as [l|]; [|done].
    destruct (Htiles x y l Hcell) as (t & Ht & _). rewrite (get_tile_run _ _ _ Ht).
    change (Some l ≫= ?k) with (k l). simpl. by rewrite Ht.
Qed.

(** The first loop of [getScore] collects the log values of the board. *)
Lemma collect_logValues_spec s g :
  grid_inv s g → collect_logValues g s = Some (logValues s g, s).
Proof.
  intros Hinv.
  change (collect_logValues g) with (scan_region (Grid.size g) g (λ vals v, vals ++ [v]) []).
  rewrite scan_region_spec by (done || (destruct Hinv as [Hr _]; unfold rows_ok in Hr; lia)).
  by rewrite foldl_push.
Qed.

(** [getScore] sorts the collected values, caches the first of them and
    returns the heuristic of the sorted list with the floor computed from
    that cached value. *)
Lemma getScore_run gameDifficulty s self g :
  grid_at s self = Some g → grid_inv s g →
  getScore gameDifficulty self s =
    Some (score_of (sort_desc (logValues s g))
            (generatedFrom gameDifficulty (head (sort_desc (logValues s g)))),
          store_put_grid s self (Grid.with_highest g (head (sort_desc (logValues s g))))).
Proof.
  intros Hg Hinv. unfold getScore, st_bind.
  rewrite (get_grid_run _ _ _ Hg), collect_logValues_spec by done. simpl.
  unfold getGeneratedTileValue, getHighestTileLogValue, st_bind.
  rewrite (get_grid_run _ _ (Grid.with_highest g (head (sort_desc (logValues s g))))); [done|].
  unfold grid_at. simpl. by rewrite lookup_insert_eq.
Qed.

(** C2: [getScore] caches in [highestTileLogValue] the largest log value
    on the board, or [undefined] when the board has no tile, and changes
    nothing else of the grid. *)
Theorem getScore_highest gameDifficulty s self g :
  grid_at s self = Some g → grid_inv s g →
  ∃ score h, getScore gameDifficulty self s =
      Some (score, store_put_grid s self (Grid.with_highest g h)) ∧
    match h with
    | None => logValues s g = []
    | Some h => is_max h (logValues s g)
    end.
Proof.
  intros Hg Hinv. rewrite (getScore_run _ _ _ g) by done.
  eexists _, _. split; [done|]. apply head_sort_desc.
Qed.

(** C1: on a board with at least one tile, [getScore] returns a finite
    number in [[h - 1, h)], where [h] is the largest log value it caches:
    the integer part of the score is the peak minus one, and the loop
    never divides by zero.  The bound is for the exact arithmetic of the
    model; in doubles the sum can round up to [h] (sixteen equal tiles
    with [h >= 17] and [gameDifficulty = 1] score exactly [h]), while the
    positive divisor holds for doubles as well. *)
Theorem getScore_bounds gameDifficulty s self g :
  grid_at s self = Some g → grid_inv s g → logValues s g ≠ [] →
  ∃ q h, getScore gameDifficulty self s =
      Some (Some q, store_put_grid s self (Grid.with_highest g (Some h))) ∧
    is_max h (logValues s g) ∧ (inject_Z (h - 1) <= q < inject_Z h)%Q.
Proof.
  intros Hg Hinv Hne. rewrite (getScore_run _ _ _ g) by done.
  pose proof (head_sort_desc (logValues s g)) as Hmax.
  pose proof (sort_desc_sorted (logValues s g)) as Hs.
  destruct (sort_desc (logValues s g)) as [|h rest]; [done|]. simpl in Hmax.
  change (head (h :: rest)) with (Some h).
  destruct (score_of_bounds h rest (generatedFrom gameDifficulty (Some h)) Hs) as (q & -> & Hq).
  by exists q, h.
Qed.

(** C23: on a board with no tile, [getScore] returns NaN, caches
    [undefined], and the next [getGeneratedTileValue] is NaN (spec §7). *)
Theorem getScore_empty gameDifficulty s self g :
  grid_at s self = Some g → grid_inv s g → logValues s g = [] →
  let s' := store_put_grid s self (Grid.with_highest g None) in
  getScore gameDifficulty self s = Some (None, s') ∧
  getGeneratedTileValue gameDifficulty self s' = Some (None, s').
Proof.
  intros Hg Hinv Hnil. rewrite (getScore_run _ _ _ g), Hnil by done. split; [done|].
  unfold getGeneratedTileValue, getHighestTileLogValue, st_bind.
  by rewrite (get_grid_run _ _ (Grid.with_highest g None))
    by (by rewrite grid_at_put_grid, decide_True).
Qed.

(** C17: the score depends only on the multiset of log values on the
    board: two boards whose values are permutations of each other get
    the same score and cache the same highest value. *)
Theorem getScore_permutation gameDifficulty s1 s2 self1 self2 g1 g2 :
  grid_at s1 self1 = Some g1 → grid_inv s1 g1 →
  grid_at s2 self2 = Some g2 → grid_inv s2 g2 →
  logValues s1 g1 ≡ₚ logValues s2 g2 →
  ∃ score h,
    getScore gameDifficulty self1 s1 =
      Some (score, store_put_grid s1 self1 (Grid.with_highest g1 h)) ∧
    getScore gameDifficulty self2 s2 =
      Some (score, store_put_grid s2 self2 (Grid.with_highest g2 h)).
Proof.
  intros Hg1 Hi1 Hg2 Hi2 Hp.
  rewrite (getScore_run _ _ _ g1), (getScore_run _ _ _ g2) by done.
  rewrite (sort_desc_perm _ _ Hp). eauto.
Qed.
End ScoreRun.

(** ** Termination of the score loop *)

(** The loop of [getScore] stops within [vals.length] iterations: with
    any fuel at least the length of the list, the fuelled loop computes the
    same value, the one of the walk along the list. *)
Lemma way2_loop_fuel fuel vals lowTile acc :
  (length vals ≤ fuel)%nat →
  way2_loop fuel vals lowTile 1 acc = way2_loop (length vals) vals lowTile 1 acc.
Proof.
  intros Hf. destruct lowTile as [low|].
  - by rewrite !way2_loop_walk by lia.
  - by rewrite !way2_loop_nan.
Qed.

(** ** The lowest value of the [4 × 4] region *)

Lemma fold_lowest_nonneg (acc : Z) (l : list Z) :
  (0 ≤ acc)%Z → Forall (λ v, 0 ≤ v)%Z l →
  is_min (foldl lowest_step acc l) (acc :: l).
Proof.
  revert acc. induction l as [|v l IH]; intros acc Hacc Hl; simpl.
  - split; [set_solver|]. intros v ->%list_elem_of_singleton. lia.
  - apply Forall_cons in Hl as [Hv Hl].
    assert (lowest_step acc v = Z.min v acc) as ->.
    { unfold lowest_step. destruct (Z.ltb_spec v acc), (Z.ltb_spec acc 0); simpl; lia. }
    destruct (IH (Z.min v acc) ltac:(lia) Hl) as [Hin Hle].
    set (r := foldl lowest_step (Z.min v acc) l) in *. clearbody r. split.
    + rewrite !elem_of_cons. rewrite elem_of_cons in Hin.
      destruct (Z.min_spec v acc) as [[_ E]|[_ E]]; rewrite E in Hin; tauto.
    + intros w Hw. pose proof (Hle (Z.min v acc) ltac:(set_solver)).
      rewrite !elem_of_cons in Hw. destruct Hw as [->|[->|Hw]]; [lia|lia|apply Hle; set_solver].
Qed.

(** Starting from [-1], the loop of [lowestTileLogValue] over non-negative
    values yields [-1] for none and their minimum otherwise. *)
Lemma fold_lowest_spec (l : list Z) :
  Forall (λ v, 0 ≤ v)%Z l →
  match l with
  | [] => foldl lowest_step (-1)%Z l = (-1)%Z
  | _ => is_min (foldl lowest_step (-1)%Z l) l
  end.
Proof.
  destruct l as [|v l]; [done|]. intros Hl. simpl.
  replace (lowest_step (-1) v) with v by (unfold lowest_step; by rewrite orb_true_r).
  apply Forall_cons in Hl as [Hv Hl]. by apply fold_lowest_nonneg.
Qed.

Lemma fold_count (lo : Z) (acc : Z) (l : list Z) :
  foldl (count_step lo) acc l = (acc + Z.of_nat (length (filter (λ v, v = lo) l)))%Z.
Proof.
  revert acc. induction l as [|v l IH]; intros acc; simpl; [lia|].
  rewrite IH, filter_cons. unfold count_step.
  destruct (Z.eqb_spec v lo), (decide (v = lo)); simpl; lia.
Qed.

Lemma Z_even_count (n : nat) : (Z.of_nat n mod 2 =? 0)%Z = Nat.even n.
Proof.
  destruct (Nat.Even_or_Odd n) as [[k ->]|[k ->]].
  - by rewrite Nat.even_mul, Nat2Z.inj_mul, Z.mul_comm, Z_mod_mult.
  - by rewrite Nat.even_add, Nat.even_mul, Nat2Z.inj_add, Nat2Z.inj_mul, Z.mul_comm,
      Z.add_comm, Z_mod_plus_full.
Qed.

Section LowestRun.
Context {T : Type} `{!Tile.Intf T}.
Implicit Types (s : store T) (self : loc).

Lemma lowestTileLogValue_scan self :
  lowestTileLogValue self =
    (do g <- get_grid self; scan_region 4 g lowest_step (-1)%Z).
Proof. done. Qed.

Lemma lowestTileLogValue_run s self g :
  grid_at s self = Some g → grid_inv s g → (4 ≤ Grid.size g)%Z →
  lowestTileLogValue self s = Some (foldl lowest_step (-1)%Z (region_values s g 4), s).
Proof.
  intros Hg Hinv H4. rewrite lowestTileLogValue_scan. unfold st_bind at 1.
  rewrite (get_grid_run _ _ _ Hg). cbv beta iota.
  apply scan_region_spec; [done|]. destruct Hinv as [Hr _]. unfold rows_ok in Hr. lia.
Qed.

(** C33: on a board of at least [4 × 4] whose tiles in the [4 × 4] region
    have non-negative log values, [lowestTileLogValue] returns [-1] when
    the region is empty and the smallest log value of the region
    otherwise. *)
Theorem lowestTileLogValue_spec s self g :
  grid_at s self = Some g → grid_inv s g → (4 ≤ Grid.size g)%Z →
  Forall (λ v, 0 ≤ v)%Z (region_values s g 4) →
  match region_values s g 4 with
  | [] => lowestTileLogValue self s = Some ((-1)%Z, s)
  | vals => ∃ lo, lowestTileLogValue self s = Some (lo, s) ∧ is_min lo vals
  end.
Proof.
  intros Hg Hinv H4 Hnn. rewrite (lowestTileLogValue_run _ _ g) by done.
  pose proof (fold_lowest_spec _ Hnn) as Hf.
  destruct (region_values s g 4); [by rewrite Hf|eauto].
Qed.

(** C35: on a board smaller than [4 × 4], [lowestTileLogValue] throws a
    [TypeError], even on an empty board: its loops read [this.cells[x]]
    for every [x < 4]. *)
Theorem lowestTileLogValue_throws_small_board s self g :
  grid_at s self = Some g → rows_ok g → (Grid.size g < 4)%Z →
  lowestTileLogValue self s = None.
Proof.
  intros Hg Hrows H4. rewrite lowestTileLogValue_scan. unfold st_bind at 1.
  rewrite (get_grid_run _ _ _ Hg). cbv beta iota. unfold rows_ok in Hrows.
  apply (st_fold_throw _ _ (Z.of_nat (length (Grid.cells g)))); [apply range_elem; lia|].
  intros acc s'. apply (st_fold_throw _ _ 0%Z); [apply range_elem; lia|].
  intros acc' s''. unfold st_bind, st_lift. rewrite read_cell_outside; [done|lia].
Qed.

(** C34: [evenNumLowValues] tells whether the number of tiles of the
    [4 × 4] region holding the value [lowestTileLogValue] returns is
    even. *)
Theorem evenNumLowValues_spec s self g :
  grid_at s self = Some g → grid_inv s g → (4 ≤ Grid.size g)%Z →
  let lo := foldl lowest_step (-1)%Z (region_values s g 4) in
  evenNumLowValues self s =
    Some (Nat.even (length (filter (λ v, v = lo) (region_values s g 4))), s).
Proof.
  intros Hg Hinv H4 lo. unfold evenNumLowValues, st_bind at 1.
  rewrite (lowestTileLogValue_run _ _ g) by done. cbv beta iota.
  unfold st_bind at 1. rewrite (get_grid_run _ _ _ Hg). cbv beta iota.
  change (st_fold (range 4) _ 0%Z) with (scan_region 4 g (count_step lo) 0%Z).
  unfold st_bind. rewrite scan_region_spec;
    [|done|destruct Hinv as [Hr _]; unfold rows_ok in Hr; lia].
  by rewrite fold_count, Z.add_0_l, <-Z_even_count.
Qed.
End LowestRun.

(** ** Witnesses: the theorems at the concrete boards of [Cells] *)

Lemma getScore_highest_witness :
  grid_at ex_store 0%N = Some ex_grid ∧ grid_inv ex_store ex_grid ∧
  ∃ score h, getScore 2 0%N ex_store =
      Some (score, store_put_grid ex_store 0%N (Grid.with_highest ex_grid h)) ∧
    match h with
    | None => logValues ex_store ex_grid = []
    | Some h => is_max h (logValues ex_store ex_grid)
    end.
Proof.
  assert (grid_inv ex_store ex_grid) as Hinv by (apply grid_wf_sound; reflexivity).
  split; [reflexivity|]. split; [done|]. apply getScore_highest; [reflexivity|done].
Defined.

Lemma getScore_bounds_witness :
  grid_at ex_store 0%N = Some ex_grid ∧ grid_inv ex_store ex_grid ∧
  logValues ex_store ex_grid ≠ [] ∧
  ∃ q h, getScore 2 0%N ex_store =
      Some (Some q, store_put_grid ex_store 0%N (Grid.with_highest ex_grid (Some h))) ∧
    is_max h (logValues ex_store ex_grid) ∧ (inject_Z (h - 1) <= q < inject_Z h)%Q.
Proof.
  assert (grid_inv ex_store ex_grid) as Hinv by (apply grid_wf_sound; reflexivity).
  assert (logValues ex_store ex_grid ≠ []) as Hne by (vm_compute; discriminate).
  split; [reflexivity|]. split; [done|]. split; [done|].
  apply getScore_bounds; [reflexivity|done|done].
Defined.

Lemma getScore_empty_witness :
  grid_at ex_single 0%N = Some (Grid.mk 1 [[None]] (Some 0%Z) None) ∧
  grid_inv ex_single (Grid.mk 1 [[None]] (Some 0%Z) None) ∧
  logValues ex_single (Grid.mk 1 [[None]] (Some 0%Z) None) = [] ∧
  let s' := store_put_grid ex_single 0%N
              (Grid.with_highest (Grid.mk 1 [[None]] (Some 0%Z) None) None) in
  getScore 2 0%N ex_single = Some (None, s') ∧
  getGeneratedTileValue 2 0%N s' = Some (None, s').
Proof.
  assert (grid_inv ex_single (Grid.mk 1 [[None]] (Some 0%Z) None)) as Hinv
    by (apply grid_wf_sound; reflexivity).
  split; [reflexivity|]. split; [done|]. split; [reflexivity|].
  apply getScore_empty; [reflexivity|done|reflexivity].
Defined.

Lemma getScore_permutation_witness :
  grid_at ex_store 0%N = Some ex_grid ∧ grid_inv ex_store ex_grid ∧
  grid_at ex_perm 0%N = Some (Grid.mk 4 ex_perm_cells (Some 0%Z) None) ∧
  grid_inv ex_perm (Grid.mk 4 ex_perm_cells (Some 0%Z) None) ∧
  logValues ex_store ex_grid ≡ₚ logValues ex_perm (Grid.mk 4 ex_perm_cells (Some 0%Z) None) ∧
  ∃ score h,
    getScore 2 0%N ex_store =
      Some (score, store_put_grid ex_store 0%N (Grid.with_highest ex_grid h)) ∧
    getScore 2 0%N ex_perm =
      Some (score, store_put_grid ex_perm 0%N
                     (Grid.with_highest (Grid.mk 4 ex_perm_cells (Some 0%Z) None) h)).
Proof.
  assert (grid_inv ex_store ex_grid) as H1 by (apply grid_wf_sound; reflexivity).
  assert (grid_inv ex_perm (Grid.mk 4 ex_perm_cells (Some 0%Z) None)) as H2
    by (apply grid_wf_sound; reflexivity).
  assert (logValues ex_store ex_grid ≡ₚ
          logValues ex_perm (Grid.mk 4 ex_perm_cells (Some 0%Z) None)) as Hp.
  { vm_compute. apply Permutation_skip, Permutation_swap. }
  split; [reflexivity|]. split; [done|]. split; [reflexivity|]. split; [done|].
  split; [done|]. apply getScore_permutation; [reflexivity|done|reflexivity|done|done].
Defined.

Lemma generatedFrom_bounds_witness :
  (0 ≤ 2)%Z ∧ (0 ≤ 10)%Z ∧ generatedFrom 2 (Some 10%Z) = Some 8%Z ∧
  ∃ v, generatedFrom 2 (Some 10%Z) = Some v ∧ ((10 + 1) / 2 ≤ v ≤ 10 ∧ 10 - v ≤ 2)%Z.
Proof.
  split; [lia|]. split; [lia|]. split; [reflexivity|].
  apply generatedFrom_bounds; lia.
Defined.

Lemma lowestTileLogValue_spec_witness :
  grid_at ex_store 0%N = Some ex_grid ∧ grid_inv ex_store ex_grid ∧
  (4 ≤ Grid.size ex_grid)%Z ∧ Forall (λ v, 0 ≤ v)%Z (region_values ex_store ex_grid 4) ∧
  match region_values ex_store ex_grid 4 with
  | [] => lowestTileLogValue 0%N ex_store = Some ((-1)%Z, ex_store)
  | vals => ∃ lo, lowestTileLogValue 0%N ex_store = Some (lo, ex_store) ∧ is_min lo vals
  end.
Proof.
  assert (grid_inv ex_store ex_grid) as Hinv by (apply grid_wf_sound; reflexivity).
  assert (Forall (λ v, 0 ≤ v)%Z (region_values ex_store ex_grid 4)) as Hnn.
  { apply (bool_decide_unpack _). vm_compute. reflexivity. }
  split; [reflexivity|]. split; [done|]. split; [simpl; lia|]. split; [done|].
  apply lowestTileLogValue_spec; [reflexivity|done|simpl; lia|done].
Defined.

Lemma lowestTileLogValue_throws_small_board_witness :
  grid_at ex_small 0%N = Some (Grid.mk 2 [[None; None]; [None; None]] (Some 0%Z) None) ∧
  rows_ok (Grid.mk 2 [[None; None]; [None; None]] (Some 0%Z) None) ∧ (2 < 4)%Z ∧
  lowestTileLogValue 0%N ex_small = None.
Proof.
  split; [reflexivity|]. split; [reflexivity|]. split; [lia|].
  apply (lowestTileLogValue_throws_small_board _ _
           (Grid.mk 2 [[None; None]; [None; None]] (Some 0%Z) None)); [reflexivity..|simpl; lia].
Defined.

Lemma evenNumLowValues_spec_witness :
  grid_at ex_store 0%N = Some ex_grid ∧ grid_inv ex_store ex_grid ∧ (4 ≤ Grid.size ex_grid)%Z ∧
  let lo := foldl lowest_step (-1)%Z (region_values ex_store ex_grid 4) in
  evenNumLowValues 0%N ex_store =
    Some (Nat.even (length (filter (λ v, v = lo) (region_values ex_store ex_grid 4))), ex_store).
Proof.
  assert (grid_inv ex_store ex_grid) as Hinv by (apply grid_wf_sound; reflexivity).
  split; [reflexivity|]. split; [done|]. split; [simpl; lia|].
  apply evenNumLowValues_spec; [reflexivity|done|simpl; lia].
Defined.

(** ** The sentinel of [lowestTileLogValue] *)

(** A [4 × 4] board whose first tile has a negative log value. *)
Definition ex_negative_cells : list (list cell) :=
  [[Some 1%N; Some 2%N; None; None]; [None; None; None; None];
   [None; None; None; None]; [None; None; None; None]].
Definition ex_negative : store Tile.Impl.tile :=
  ex_board 4 ex_negative_cells [Tile.Impl.mk 0 0 (-3); Tile.Impl.mk 0 1 2].

(** A negative log value always replaces the running value, and is
    replaced by the next tile's value whatever it is. *)
Lemma lowest_step_neg lowestVal v : (v < 0)%Z → lowest_step lowestVal v = v.
Proof. intros Hv. unfold lowest_step. destruct (Z.ltb_spec v lowestVal); simpl; [done|]. by rewrite (proj2 (Z.ltb_lt _ _)) by lia. Qed.

Lemma lowest_step_after_neg v w : (v < 0)%Z → lowest_step v w = w.
Proof. intros Hv. unfold lowest_step. rewrite (proj2 (Z.ltb_lt v 0)) by done. by rewrite orb_true_r. Qed.

Section Negative.
Context {T : Type} `{!Tile.Intf T}.

(** C36: [lowestTileLogValue] uses [-1] both as "no tile seen yet" and as
    a value: on every board of at least [4 × 4], a tile of the [4 × 4]
    region with a negative log value [v] that is followed in scan order by
    another tile of value [w] is forgotten: the result is the scan of the
    tiles after [v] started from [w], whatever [v] and the tiles before
    it are.  So the result is not the minimum [v] unless a later tile
    brings it back. *)
Theorem lowestTileLogValue_negative (s : store T) self g pre v w post :
  grid_at s self = Some g → grid_inv s g → (4 ≤ Grid.size g)%Z →
  region_values s g 4 = pre ++ v :: w :: post → (v < 0)%Z →
  lowestTileLogValue self s = Some (foldl lowest_step w post, s).
Proof.
  intros Hg Hinv H4 Hvals Hv. rewrite (lowestTileLogValue_run _ _ g), Hvals by done.
  rewrite foldl_app. cbn [foldl]. by rewrite (lowest_step_neg _ v Hv), (lowest_step_after_neg v w Hv).
Qed.
End Negative.

Lemma lowestTileLogValue_negative_witness :
  grid_at ex_negative 0%N = Some (Grid.mk 4 ex_negative_cells (Some 0%Z) None) ∧
  grid_inv ex_negative (Grid.mk 4 ex_negative_cells (Some 0%Z) None) ∧ (4 ≤ 4)%Z ∧
  region_values ex_negative (Grid.mk 4 ex_negative_cells (Some 0%Z) None) 4 = [] ++ (-3)%Z :: 2%Z :: [] ∧
  (-3 < 0)%Z ∧
  lowestTileLogValue 0%N ex_negative = Some (foldl lowest_step 2%Z [], ex_negative).
Proof.
  assert (grid_inv ex_negative (Grid.mk 4 ex_negative_cells (Some 0%Z) None)) as Hinv
    by (apply grid_wf_sound; vm_compute; reflexivity).
  assert (region_values ex_negative (Grid.mk 4 ex_negative_cells (Some 0%Z) None) 4 =
          [] ++ (-3)%Z :: 2%Z :: []) as Hvals by (vm_compute; reflexivity).
  split_and!; [reflexivity|done|lia|done|lia|].
  exact (lowestTileLogValue_negative ex_negative 0%N _ [] (-3) 2 [] eq_refl Hinv
           ltac:(simpl; lia) Hvals ltac:(lia)).
Defined.
