(* ===== verification/Snapshot.v ===== *)
(** * Snapshots and copies: [Grid.prototype.serialize] and
      [Grid.prototype.clone] ([src/js/grid_zen.js:186-215])

    [serialize] reads the [size × size] board into plain data, and
    [new Grid(size, cells)] rebuilds a grid from it ([Construct]).
    [clone] builds an empty grid, assigns it to the undeclared global
    [newGrid], copies [playerTurn] and inserts a [tile.clone()] of every
    tile of the board.  The observable content of a grid is its snapshot
    [board]: the serialized tile, or [null], of each cell of the board. *)

From S2P Require Import Prelude Tile Objects Construct Cells.

(** The object [serialize] returns: [{size: ..., cells: ...}]. *)
Record snapshot := mkSnapshot { snap_size : Z; snap_cells : cell_state }.

Section Snapshot.
Context {T : Type} `{!Tile.Intf T}.
Local Abbreviation M := (ST (store T)).

(** The inner loop body of [serialize]:
    [row.push(this.cells[x][y] ? this.cells[x][y].serialize() : null)].
    The second read of [this.cells[x][y]] gives the cell of the first:
    nothing runs in between. *)
Definition serialize_cell (self : loc) (x y : Z) : M (option TileState.t) :=
  do g <- get_grid self;
  do c <- st_lift (read_cell (Grid.cells g) x y);
  match c with
  | Some l => do t <- get_tile l; st_ret (Some (Tile.serialize t))
  | None => st_ret None
  end.

(** [Grid.prototype.serialize]. *)
Definition serialize (self : loc) : M snapshot :=
  do g <- get_grid self;
  do cellState <- st_map (range (Grid.size g)) (λ x,
       st_map (range (Grid.size g)) (λ y, serialize_cell self x y));
  st_ret (mkSnapshot (Grid.size g) cellState).

(** The loop body of [clone]: [if (this.cells[x][y])
    newGrid.insertTile(this.cells[x][y].clone())].  The callee
    [newGrid.insertTile] is evaluated before the argument, whose
    [tile.clone()] allocates the copy. *)
Definition clone_cell (self : loc) (x y : Z) : M unit :=
  do g <- get_grid self;
  do c <- st_lift (read_cell (Grid.cells g) x y);
  match c with
  | Some l =>
      do ng <- get_newGrid;
      do t <- get_tile l;
      do copy <- alloc (OTile (Tile.clone t));
      insertTile ng copy
  | None => st_ret tt
  end.

(** [Grid.prototype.clone].  [newGrid] is the global of the store, read
    at each use; [this.size] and [this.playerTurn] are read from [self],
    which the loop never writes. *)
Definition clone (self : loc) : M loc :=
  do g <- get_grid self;
  do created <- new_Grid (Grid.size g) None;
  set_newGrid created ;;
  do ng <- get_newGrid;
  do gn <- get_grid ng;
  put_grid ng (Grid.with_playerTurn gn (Grid.playerTurn g)) ;;
  st_for (range (Grid.size g)) (λ x,
    st_for (range (Grid.size g)) (λ y, clone_cell self x y)) ;;
  get_newGrid.
End Snapshot.

(** ** The observable board *)

Section Board.
Context {T : Type} `{!Tile.Intf T}.
Implicit Types (s : store T) (g : Grid.t).

(** The serialized form of a cell. *)
Definition ser_cell s (c : cell) : option TileState.t :=
  l ← c; Tile.serialize <$> tile_at s l.

(** The snapshot of the board of [g]: what [serialize] returns. *)
Definition board s g : cell_state :=
  (λ x, (λ y, ser_cell s (cell_of g x y)) <$> range (Grid.size g)) <$> range (Grid.size g).

Lemma read_board s g x y :
  (0 ≤ x < Grid.size g)%Z → (0 ≤ y < Grid.size g)%Z →
  read_cell (board s g) x y = Some (ser_cell s (cell_of g x y)).
Proof.
  intros Hx Hy. unfold read_cell, board, js_elem.
  rewrite js_index_fmap, js_index_range by done. simpl.
  by rewrite js_index_fmap, js_index_range.
Qed.

(** Two boards of the same size agree when every cell serializes alike. *)
Lemma board_ext s g s' g' :
  Grid.size g' = Grid.size g →
  (∀ x y, (0 ≤ x < Grid.size g)%Z → (0 ≤ y < Grid.size g)%Z →
     ser_cell s' (cell_of g' x y) = ser_cell s (cell_of g x y)) →
  board s' g' = board s g.
Proof.
  intros Hsize Hcell. unfold board. rewrite Hsize.
  apply list_fmap_ext. intros i x Hx%list_elem_of_lookup_2%range_elem.
  apply list_fmap_ext. intros j y Hy%list_elem_of_lookup_2%range_elem. auto.
Qed.

(** A cell whose tile the store keeps serializes alike in a larger store. *)
Lemma ser_cell_extends s s' c :
  (∀ l t, tile_at s l = Some t → tile_at s' l = Some t) →
  (∀ l, c = Some l → is_Some (tile_at s l)) →
  ser_cell s' c = ser_cell s c.
Proof.
  intros Hext Hc. destruct c as [l|]; [|done]. simpl.
  destruct (Hc l eq_refl) as [t Ht]. by rewrite Ht, (Hext _ _ Ht).
Qed.

Lemma serialize_cell_run s self g x y :
  grid_inv s g → grid_at s self = Some g → (0 ≤ x < Grid.size g)%Z →
  serialize_cell self x y s = Some (ser_cell s (cell_of g x y), s).
Proof.
  intros [Hrows Hpos] Hg Hx. unfold serialize_cell, st_bind.
  rewrite (get_grid_run _ _ _ Hg). simpl. rewrite read_cell_of by done.
  destruct (cell_of g x y) as [l|] eqn:Hc; simpl; [|done].
  destruct (Hpos x y l Hc) as (t & Ht & _). rewrite (get_tile_run _ _ _ Ht). simpl.
  by rewrite Ht.
Qed.

(** [serialize] reads the board and changes nothing. *)
Lemma serialize_run s self g :
  grid_inv s g → grid_at s self = Some g →
  serialize self s = Some (mkSnapshot (Grid.size g) (board s g), s).
Proof.
  intros Hinv Hg. unfold serialize, st_bind. rewrite (get_grid_run _ _ _ Hg).
  rewrite (st_map_pure _ _ (λ x, (λ y, ser_cell s (cell_of g x y)) <$> range (Grid.size g)));
    [done|].
  intros x Hx%range_elem. apply st_map_pure. intros y _. by apply serialize_cell_run.
Qed.
End Board.

(** ** Serialization and the round trip *)

Section RoundTrip.
Context {T : Type} `{!Tile.Intf T, !Tile.Laws T}.
Implicit Types (s : store T) (g : Grid.t).

(** A tile of a well-formed grid serializes with its cell's coordinates. *)
Lemma ser_cell_position s g x y ts :
  grid_inv s g → ser_cell s (cell_of g x y) = Some ts → TileState.position ts = (x, y).
Proof.
  intros [_ Hpos]. unfold ser_cell. destruct (cell_of g x y) as [l|] eqn:Hc; [|done]. simpl.
  destruct (Hpos x y l Hc) as (t & Ht & <- & <-). rewrite Ht. simpl.
  rewrite Tile.serialize_spec. by intros [= <-].
Qed.

(** A rebuilt cell serializes to the entry it was rebuilt from. *)
Lemma rebuilt_ser s0 e c s : rebuilt s0 e c s → ser_cell s c = e.
Proof.
  destruct e as [[[px py] lv]|]; simpl; [|by intros ->].
  intros (l & -> & _ & Ht). simpl. rewrite Ht. simpl.
  by rewrite Tile.serialize_spec; autorewrite with grid_rw.
Qed.

(** A grid rebuilt from entries that carry their own coordinates is well
    formed. *)
Lemma rebuilt_cells_inv s0 s n state cells h p :
  rebuilt_cells s0 n state cells s →
  (∀ x y ts, (0 ≤ x < n)%Z → (0 ≤ y < n)%Z →
     default None (read_cell state x y) = Some ts → TileState.position ts = (x, y)) →
  grid_inv s (Grid.mk n cells h p).
Proof.
  intros Hcells Hst. split; [apply (length_Forall2_range _ _ _ Hcells)|].
  intros x y l Hl. unfold cell_of in Hl. simpl in Hl.
  destruct (decide ((0 ≤ x < n) ∧ (0 ≤ y < n))%Z) as [[Hx Hy]|Hout].
  2: { by rewrite (read_cell_Forall2_outside _ _ _ _ _ Hcells Hout) in Hl. }
  destruct (read_cell_Forall2 _ _ _ x y Hcells Hx Hy) as (c & Hc & Hr).
  rewrite Hc in Hl. simpl in Hl. subst c.
  destruct (default None (read_cell state x y)) as [ts|] eqn:He; simpl in Hr; [|done].
  destruct Hr as (l' & [= <-] & _ & Ht). eexists; split; [done|].
  rewrite Tile.make_x, Tile.make_y, (Hst x y ts Hx Hy He). by split.
Qed.

(** C21: on a well-formed grid, [serialize] changes nothing and returns the
    board's size and, for every cell of the board, [null] or the
    serialized tile, whose position is the cell's own coordinates. *)
Theorem serialize_spec s self g :
  grid_inv s g → grid_at s self = Some g →
  ∃ snap, serialize self s = Some (snap, s) ∧ snap_size snap = Grid.size g ∧
    ∀ x y, (0 ≤ x < Grid.size g)%Z → (0 ≤ y < Grid.size g)%Z →
      read_cell (snap_cells snap) x y =
        Some ((λ t, TileState.mk (x, y) (Tile.logValue t)) <$> (cell_of g x y ≫= tile_at s)).
Proof.
  intros Hinv Hg. eexists. rewrite (serialize_run s self g) by done. split_and!; [done..|].
  intros x y Hx Hy. simpl. rewrite read_board by done. f_equal.
  unfold ser_cell. destruct (cell_of g x y) as [l|] eqn:Hc; [|done]. simpl.
  destruct (proj2 Hinv x y l Hc) as (t & Ht & <- & <-). rewrite Ht. simpl.
  by rewrite Tile.serialize_spec.
Qed.

(** [new Grid(size, cells)] on the snapshot of a well-formed grid builds
    a fresh well-formed grid with the same board. *)
Lemma new_Grid_board s g :
  store_wf s → grid_inv s g →
  ∃ ng s2 g2, new_Grid (Grid.size g) (Some (board s g)) s = Some (ng, s2) ∧
    heap s !! ng = None ∧ extends s s2 ∧ grid_at s2 ng = Some g2 ∧
    grid_inv s2 g2 ∧ Grid.size g2 = Grid.size g ∧ board s2 g2 = board s g.
Proof.
  intros Hwf Hinv.
  destruct (new_Grid_state_run s (Grid.size g) (board s g))
    as (ng & s2 & cells & Hrun & Hext & _ & _ & Hfresh & Hg2 & Hcells); [done| |].
  { intros x Hx. unfold board. rewrite js_index_fmap, js_index_range by done. eauto. }
  eexists ng, s2, _. split_and!; [done..| |done|].
  - eapply rebuilt_cells_inv; [done|]. intros x y ts Hx Hy.
    rewrite read_board by done. simpl. by apply ser_cell_position.
  - apply board_ext; [done|]. intros x y Hx Hy.
    destruct (read_cell_Forall2 _ _ _ x y Hcells Hx Hy) as (c & Hc & Hr).
    unfold cell_of at 1. simpl. rewrite Hc. simpl.
    rewrite read_board in Hr by done. by apply rebuilt_ser in Hr.
Qed.

(** C4: rebuilding a grid with [new Grid(snapshot.size, snapshot.cells)]
    from the snapshot of a well-formed grid allocates a fresh grid that
    leaves the old objects alone, and serializing it gives the same
    snapshot back. *)
Theorem serialize_roundtrip s self g snap s1 :
  store_wf s → grid_inv s g → grid_at s self = Some g →
  serialize self s = Some (snap, s1) →
  ∃ ng s2, new_Grid (snap_size snap) (Some (snap_cells snap)) s1 = Some (ng, s2) ∧
    heap s !! ng = None ∧ extends s s2 ∧ serialize ng s2 = Some (snap, s2).
Proof.
  intros Hwf Hinv Hg Hser. rewrite (serialize_run _ _ _ Hinv Hg) in Hser.
  injection Hser as <- <-. simpl.
  destruct (new_Grid_board s g) as (ng & s2 & g2 & Hrun & Hfresh & Hext & Hg2 & Hinv2 & Hsz & Hb);
    [done..|].
  exists ng, s2. split_and!; [done..|].
  by rewrite (serialize_run s2 ng g2), Hsz, Hb.
Qed.
End RoundTrip.

(** ** [clone] *)

Lemma grid_inv_extends {T} `{!Tile.Intf T} (s s' : store T) g :
  extends s s' → grid_inv s g → grid_inv s' g.
Proof.
  intros Hext [Hrows Hpos]. split; [done|]. intros x y l Hl.
  destruct (Hpos x y l Hl) as (t & Ht & Hx & Hy).
  exists t. split_and!; [by eapply tile_at_extends|done|done].
Qed.

Section CloneRun.
Context {T : Type} `{!Tile.Intf T, !Tile.Laws T}.
(** The grid [self] being cloned, [g], in the store [s0] [clone] starts
    from.  Its size is at most [2^32 - 1], the length of the longest
    JavaScript array, so that every [y < size] is an array index. *)
Context (s0 : store T) (self : loc) (g : Grid.t).
Hypothesis Hwf0 : store_wf s0.
Hypothesis Hinv0 : grid_inv s0 g.
Hypothesis Hg0 : grid_at s0 self = Some g.
Hypothesis Hsize : (Grid.size g ≤ js_max_index + 1)%Z.

(** The state of [clone] after visiting the cells [done]: the objects of
    [s0] are intact, the global [newGrid] names the copy [ng], allocated
    after [s0], which is a well-formed grid of [g]'s size with
    [highestTileLogValue = 0] and [g]'s [playerTurn], whose tiles are all
    new, and whose cells serialize as [g]'s on [done] and as [null]
    elsewhere. *)
Definition clone_state (ng : loc) (done : list (Z * Z)) (s : store T) : Prop :=
  store_wf s ∧ extends s0 s ∧ newGrid s = Some ng ∧ heap s0 !! ng = None ∧
  ∃ g', grid_at s ng = Some g' ∧ Grid.size g' = Grid.size g ∧
    Grid.highestTileLogValue g' = Some 0%Z ∧ Grid.playerTurn g' = Grid.playerTurn g ∧
    grid_inv s g' ∧ (∀ x y l, cell_of g' x y = Some l → heap s0 !! l = None) ∧
    ∀ x y, ser_cell s (cell_of g' x y) =
      if decide ((x, y) ∈ done) then ser_cell s0 (cell_of g x y) else None.

(** A cell of [g] is read from [self] in any later store. *)
Lemma clone_read_cell s x y :
  extends s0 s → (0 ≤ x < Grid.size g)%Z →
  (do g <- get_grid self; st_lift (read_cell (Grid.cells g) x y)) s =
    Some (cell_of g x y, s).
Proof.
  intros Hext Hx. unfold st_bind. rewrite (get_grid_run _ _ g) by eauto using grid_at_extends.
  unfold st_lift. by rewrite read_cell_of by (apply Hinv0 || done).
Qed.

(** Visiting an empty cell changes nothing. *)
Lemma clone_cell_empty ng done s x y :
  (0 ≤ x < Grid.size g)%Z → cell_of g x y = None → (x, y) ∉ done →
  clone_state ng done s →
  clone_cell self x y s = Some (tt, s) ∧ clone_state ng (done ++ [(x, y)]) s.
Proof.
  intros Hx Hc Hnot (Hwf & Hext & Hng & Hfresh & g' & Hg' & Hsz & Hhi & Hpt & Hinv & Hfr & Hser).
  split.
  - unfold clone_cell. rewrite st_bind_assoc, (st_bind_run _ _ _ s (cell_of g x y));
      [by rewrite Hc|by apply clone_read_cell].
  - split_and!; [done..|]. exists g'. split_and!; [done..|]. intros x' y'.
    rewrite decide_elem_snoc, Hser.
    destruct (decide ((x', y') = (x, y))) as [Heq|]; [|done].
    simplify_eq. by rewrite Hc, decide_False.
Qed.

(** The calls [clone_cell] makes on a cell holding the tile [l]: read
    the global [newGrid], allocate [tile.clone()], insert the copy. *)
Lemma clone_cell_run ng s x y l t :
  (0 ≤ x < Grid.size g)%Z → cell_of g x y = Some l → extends s0 s → newGrid s = Some ng →
  tile_at s0 l = Some t →
  clone_cell self x y s =
    insertTile ng (next_loc s)
      (mkStore (<[next_loc s := OTile (Tile.clone t)]> (heap s)) (N.succ (next_loc s)) (newGrid s)).
Proof.
  intros Hx Hc Hext Hng Ht0.
  unfold clone_cell. rewrite st_bind_assoc, (st_bind_run _ _ _ s (Some l));
    [|rewrite <-Hc; by apply clone_read_cell].
  cbv beta iota.
  rewrite (st_bind_run _ _ s s ng) by (unfold get_newGrid, st_lift; by rewrite Hng).
  rewrite (st_bind_run _ _ s s t) by (apply get_tile_run; eauto using tile_at_extends).
  by rewrite (st_bind_run _ _ s _ (next_loc s)) by apply alloc_run.
Qed.

(** Visiting a cell holding the tile [l]: the copy [tile.clone()] is
    allocated and inserted at [l]'s coordinates, which are [(x, y)]. *)
Lemma clone_cell_tile ng done s x y l :
  (0 ≤ x < Grid.size g)%Z → (0 ≤ y < Grid.size g)%Z → cell_of g x y = Some l →
  (x, y) ∉ done → clone_state ng done s →
  ∃ s', clone_cell self x y s = Some (tt, s') ∧ clone_state ng (done ++ [(x, y)]) s'.
Proof.
  intros Hx Hy Hc Hnot (Hwf & Hext & Hng & Hfresh & g' & Hg' & Hsz & Hhi & Hpt & Hinv & Hfr & Hser).
  destruct (proj2 Hinv0 x y l Hc) as (t & Ht0 & Htx & Hty).
  set (s1 := mkStore (<[next_loc s := OTile (Tile.clone t)]> (heap s))
                     (N.succ (next_loc s)) (newGrid s)).
  assert (extends s s1) as H01 by (eapply alloc_extends; [done|apply alloc_run]).
  assert (grid_at s1 ng = Some g') as Hg1 by eauto using grid_at_extends.
  assert (tile_at s1 (next_loc s) = Some (Tile.clone t)) as Hc1.
  { unfold tile_at. simpl. by rewrite lookup_insert_eq. }
  destruct (write_at_tile_run s1 ng (next_loc s) (Some (next_loc s)) g' (Tile.clone t))
    as (cells & Hw & Hrun); [done|done|apply Hinv|rewrite Tile.clone_x, Hsz; lia|].
  exists (store_put_grid s1 ng (Grid.with_cells g' cells)). split.
  - rewrite (clone_cell_run ng s x y l t) by done. by rewrite insertTile_write.
  - split_and!; [| |done|done|].
    + eapply put_grid_wf; [|by eapply grid_at_dom|apply put_grid_run].
      eapply alloc_wf; [done|apply alloc_run].
    + apply extends_put_grid; [done|]. by eapply extends_trans.
    + eexists. rewrite grid_at_put_grid, decide_True by done. split_and!; [done..| | |].
      * destruct (write_at_tile_inv s1 ng (next_loc s) (Some (next_loc s)) g' (Tile.clone t) _
          (grid_inv_extends _ _ _ H01 Hinv) Hg1 Hc1 ltac:(naive_solver) Hrun) as (g3 & Hg3 & Hinv3).
        rewrite grid_at_put_grid, decide_True in Hg3 by done. by injection Hg3 as <-.
      * intros x' y' l' Hl'. rewrite (cell_of_write _ _ _ _ _ _ _ Hw) in Hl'.
        case_decide; [simplify_eq|by eapply Hfr].
        eapply extends_fresh; [done|]. by apply alloc_fresh.
      * intros x' y'. rewrite (cell_of_write _ _ _ _ _ _ _ Hw), decide_elem_snoc.
        rewrite Tile.clone_x, Tile.clone_y, Htx, Hty.
        destruct (decide ((x', y') = (x, y))) as [Heq|Hne].
        -- simplify_eq. rewrite decide_True by (split; [done|unfold js_max_index in *; lia]).
           unfold ser_cell. simpl. rewrite (tile_at_put_grid _ _ _ g'), Hc1, Hc by done. simpl.
           rewrite Ht0.
           simpl. rewrite !Tile.serialize_spec. by autorewrite with grid_rw.
        -- rewrite decide_False by naive_solver. rewrite <-Hser.
           apply ser_cell_extends.
           ++ intros l0 t0 Ht1. rewrite (tile_at_put_grid _ _ _ g') by done.
              by eapply tile_at_extends.
           ++ intros l0 Hl0. destruct (proj2 Hinv x' y' l0 Hl0) as (? & -> & _). eauto.
Qed.

(** The two nested loops of [clone] visit every cell of the board once. *)
Lemma clone_loop ng s :
  clone_state ng [] s →
  ∃ s', st_for (range (Grid.size g)) (λ x,
          st_for (range (Grid.size g)) (λ y, clone_cell self x y)) s = Some (tt, s') ∧
        clone_state ng (coords (Grid.size g)) s'.
Proof.
  intros Hinit.
  assert (∀ s1, st_for (range (Grid.size g)) (λ x,
      st_for (range (Grid.size g)) (λ y, clone_cell self x y)) s1 =
    st_for (coords (Grid.size g)) (λ p, clone_cell self p.1 p.2) s1) as ->.
  { intros s1. unfold coords. rewrite st_for_bind. apply st_for_ext.
    intros x s2. by rewrite st_for_fmap. }
  apply (st_for_inv (clone_state ng)); [exact Hinit|].
  intros pre [x y] post s1 Hl Hpre.
  assert ((x, y) ∈ coords (Grid.size g)) as Hxy by (rewrite Hl; set_solver).
  apply coords_elem in Hxy as [Hx Hy].
  assert ((x, y) ∉ pre) as Hnot.
  { pose proof (NoDup_coords (Grid.size g)) as Hnd. rewrite Hl in Hnd.
    apply NoDup_app in Hnd as (_ & Hdis & _). intros Hin. apply (Hdis _ Hin). set_solver. }
  simpl in *. destruct (cell_of g x y) as [l|] eqn:Hc.
  - by eapply clone_cell_tile.
  - eexists. by eapply clone_cell_empty.
Qed.

(** The whole of [clone]. *)
Lemma clone_run :
  ∃ ng s', clone self s0 = Some (ng, s') ∧ clone_state ng (coords (Grid.size g)) s'.
Proof.
  set (gA := Grid.mk (Grid.size g) (empty (Grid.size g)) (Some 0%Z) None).
  set (sA := mkStore (<[next_loc s0 := OGrid gA]> (heap s0)) (N.succ (next_loc s0)) (newGrid s0)).
  set (sB := mkStore (heap sA) (next_loc sA) (Some (next_loc s0))).
  set (gC := Grid.with_playerTurn gA (Grid.playerTurn g)).
  assert (store_wf sA) as HwfA by (eapply alloc_wf; [done|apply alloc_run]).
  assert (extends s0 sA) as HextA by (eapply alloc_extends; [done|apply alloc_run]).
  assert (heap s0 !! next_loc s0 = None) as Hfresh by (by apply alloc_fresh).
  assert (∀ x y, cell_of gC x y = None) as HeC by (intros; apply cell_of_empty).
  assert (grid_at sB (next_loc s0) = Some gA) as HgB.
  { unfold grid_at. simpl. by rewrite lookup_insert_eq. }
  destruct (clone_loop (next_loc s0) (store_put_grid sB (next_loc s0) gC)) as (s' & Hloop & Hst).
  { split_and!; [| |done|done|].
    - apply (put_grid_wf sB (next_loc s0) gC); [exact HwfA|by eapply grid_at_dom|apply put_grid_run].
    - by apply extends_put_grid.
    - exists gC. rewrite grid_at_put_grid, decide_True by done.
      split_and!; [done..| | |].
      + split; [apply empty_rows_ok|]. intros x y l. by rewrite HeC.
      + intros x y l. by rewrite HeC.
      + intros x y. by rewrite HeC. }
  exists (next_loc s0), s'. split; [|done].
  unfold clone. rewrite (st_bind_run _ _ s0 s0 g) by by apply get_grid_run.
  rewrite (st_bind_run _ _ _ _ _ (new_Grid_empty_run s0 (Grid.size g))).
  rewrite (st_bind_run _ _ _ sB tt) by done.
  rewrite (st_bind_run _ _ _ sB (next_loc s0)) by done.
  rewrite (st_bind_run _ _ _ sB gA) by by apply get_grid_run.
  rewrite (st_bind_run _ _ _ _ tt (put_grid_run _ _ _)), (st_bind_run _ _ _ _ _ Hloop).
  destruct Hst as (_ & _ & Hng & _). unfold get_newGrid, st_lift. by rewrite Hng.
Qed.

(** The copy [clone] returns is a well-formed grid of the original's
    size with the original's board. *)
Lemma clone_board :
  ∃ ng s' g', clone self s0 = Some (ng, s') ∧ grid_at s' ng = Some g' ∧
    newGrid s' = Some ng ∧ grid_inv s' g' ∧ Grid.size g' = Grid.size g ∧
    Grid.highestTileLogValue g' = Some 0%Z ∧ Grid.playerTurn g' = Grid.playerTurn g ∧
    board s' g' = board s0 g ∧ store_wf s' ∧ extends s0 s' ∧ heap s0 !! ng = None.
Proof.
  destruct clone_run
    as (ng & s' & Hrun & Hwf & Hext & Hng & Hfresh & g' & Hg' & Hsz & Hhi & Hpt & Hinv & Hfr & Hser).
  exists ng, s', g'. split_and!; [done..| |done|done|done].
  apply board_ext; [done|]. intros x y Hx Hy.
  rewrite Hser, decide_True; [done|]. by apply coords_elem.
Qed.

(** C3: on a well-formed grid whose size is a JavaScript array length,
    [clone] returns the grid the global [newGrid] now names: a grid of
    the same size and [playerTurn], with [highestTileLogValue] reset to
    [0], whose serialization equals the original's. *)
Theorem clone_spec :
  ∃ ng s' g', clone self s0 = Some (ng, s') ∧ grid_at s' ng = Some g' ∧
    newGrid s' = Some ng ∧ Grid.size g' = Grid.size g ∧
    Grid.highestTileLogValue g' = Some 0%Z ∧ Grid.playerTurn g' = Grid.playerTurn g ∧
    ∃ snap, serialize self s0 = Some (snap, s0) ∧ serialize ng s' = Some (snap, s').
Proof.
  destruct clone_board as (ng & s' & g' & Hrun & Hg' & Hng & Hinv & Hsz & Hhi & Hpt & Hb & _).
  exists ng, s', g'. split_and!; [done..|].
  eexists. split; [by apply serialize_run|].
  by rewrite (serialize_run s' ng g'), Hsz, Hb.
Qed.

(** C9: [clone] shares nothing with the original: the copy and all its
    tiles are objects that did not exist before, every object of the
    original store is unchanged, and the copy is a well-formed grid. *)
Theorem clone_fresh :
  ∃ ng s' g', clone self s0 = Some (ng, s') ∧ grid_at s' ng = Some g' ∧
    extends s0 s' ∧ heap s0 !! ng = None ∧
    (∀ x y l, cell_of g' x y = Some l → heap s0 !! l = None) ∧ grid_inv s' g'.
Proof.
  destruct clone_run
    as (ng & s' & Hrun & Hwf & Hext & Hng & Hfresh & g' & Hg' & Hsz & Hhi & Hpt & Hinv & Hfr & Hser).
  by exists ng, s', g'.
Qed.

End CloneRun.

(** ** Witnesses on the board [ex_store] of [Cells] *)

Lemma ex_store_clone_hyps :
  store_wf ex_store ∧ grid_inv ex_store ex_grid ∧ grid_at ex_store 0%N = Some ex_grid ∧
  (Grid.size ex_grid ≤ js_max_index + 1)%Z.
Proof.
  split_and!.
  - apply (bool_decide_unpack _). vm_compute. reflexivity.
  - apply grid_wf_sound. vm_compute. reflexivity.
  - reflexivity.
  - unfold js_max_index. simpl. lia.
Qed.

Lemma serialize_spec_witness :
  grid_inv ex_store ex_grid ∧ grid_at ex_store 0%N = Some ex_grid ∧
  ∃ snap, serialize 0%N ex_store = Some (snap, ex_store) ∧ snap_size snap = Grid.size ex_grid ∧
    ∀ x y, (0 ≤ x < Grid.size ex_grid)%Z → (0 ≤ y < Grid.size ex_grid)%Z →
      read_cell (snap_cells snap) x y =
        Some ((λ t, TileState.mk (x, y) (Tile.logValue t)) <$>
                (cell_of ex_grid x y ≫= tile_at ex_store)).
Proof.
  destruct ex_store_clone_hyps as (_ & Hinv & Hg & _).
  split_and!; [done|done|]. exact (serialize_spec ex_store 0%N ex_grid Hinv Hg).
Defined.

Lemma serialize_roundtrip_witness :
  store_wf ex_store ∧ grid_inv ex_store ex_grid ∧ grid_at ex_store 0%N = Some ex_grid ∧
  serialize 0%N ex_store = Some (mkSnapshot 4 (board ex_store ex_grid), ex_store) ∧
  ∃ ng s2, new_Grid 4 (Some (board ex_store ex_grid)) ex_store = Some (ng, s2) ∧
    heap ex_store !! ng = None ∧ extends ex_store s2 ∧
    serialize ng s2 = Some (mkSnapshot 4 (board ex_store ex_grid), s2).
Proof.
  destruct ex_store_clone_hyps as (Hwf & Hinv & Hg & _).
  assert (serialize 0%N ex_store = Some (mkSnapshot 4 (board ex_store ex_grid), ex_store)) as Hs
    by (vm_compute; reflexivity).
  split_and!; [done..|].
  exact (serialize_roundtrip ex_store 0%N ex_grid _ ex_store Hwf Hinv Hg Hs).
Defined.

Lemma clone_spec_witness :
  store_wf ex_store ∧ grid_inv ex_store ex_grid ∧ grid_at ex_store 0%N = Some ex_grid ∧
  (Grid.size ex_grid ≤ js_max_index + 1)%Z ∧
  ∃ ng s' g', clone 0%N ex_store = Some (ng, s') ∧ grid_at s' ng = Some g' ∧
    newGrid s' = Some ng ∧ Grid.size g' = Grid.size ex_grid ∧
    Grid.highestTileLogValue g' = Some 0%Z ∧ Grid.playerTurn g' = Grid.playerTurn ex_grid ∧
    ∃ snap, serialize 0%N ex_store = Some (snap, ex_store) ∧ serialize ng s' = Some (snap, s').
Proof.
  destruct ex_store_clone_hyps as (Hwf & Hinv & Hg & Hsize).
  split_and!; [done..|]. exact (clone_spec ex_store 0%N ex_grid Hwf Hinv Hg Hsize).
Defined.

Lemma clone_fresh_witness :
  store_wf ex_store ∧ grid_inv ex_store ex_grid ∧ grid_at ex_store 0%N = Some ex_grid ∧
  (Grid.size ex_grid ≤ js_max_index + 1)%Z ∧
  ∃ ng s' g', clone 0%N ex_store = Some (ng, s') ∧ grid_at s' ng = Some g' ∧
    extends ex_store s' ∧ heap ex_store !! ng = None ∧
    (∀ x y l, cell_of g' x y = Some l → heap ex_store !! l = None) ∧ grid_inv s' g'.
Proof.
  destruct ex_store_clone_hyps as (Hwf & Hinv & Hg & Hsize).
  split_and!; [done..|]. exact (clone_fresh ex_store 0%N ex_grid Hwf Hinv Hg Hsize).
Defined.
