(* ===== verification/Observe.v ===== *)
(** * Observational equivalence of grids

    Two well-formed grids, each in its store, are equivalent when they
    have the same size and the same [board], the snapshot [serialize]
    returns.  The queries of the grid only see the board: the empty cells
    [availableCells] returns and the log values [getScore] collects, hence
    the score, respect the equivalence ([Proper] instances below).
    [Lookahead] extends this to whole call sequences: [board_equiv] is a
    bisimulation, and the copy [clone] returns and the grid rebuilt from
    a snapshot are equivalent to their source. *)

From S2P Require Import Prelude Tile Objects Construct Cells Score Snapshot.

Section Equiv.
Context {T : Type} `{!Tile.Intf T, !Tile.Laws T}.

(** A grid in the store it lives in. *)
Definition placed : Type := store T * Grid.t.

(** The equivalence of well-formed grids: a partial equivalence, since a
    grid that breaks [grid_inv] is related to nothing. *)
Definition board_equiv (p q : placed) : Prop :=
  grid_inv p.1 p.2 ∧ grid_inv q.1 q.2 ∧
  Grid.size q.2 = Grid.size p.2 ∧ board q.1 q.2 = board p.1 p.2.

(** The empty cells of a grid, row by row. *)
Definition free_cells (p : placed) : list (Z * Z) :=
  filter (λ c, cell_of p.2 c.1 c.2 = None) (coords (Grid.size p.2)).

(** The log values of the tiles of a grid, row by row. *)
Definition values_of (p : placed) : list Z := logValues p.1 p.2.

#[export] Instance board_equiv_per : RelationClasses.PER board_equiv.
Proof.
  split.
  - intros p q (Hp & Hq & Hs & Hb). split_and!; congruence.
  - intros p q r (Hp & Hq & Hs & Hb) (_ & Hr & Hs' & Hb'). split_and!; congruence.
Qed.

(** Equivalent grids serialize every cell of the board alike. *)
Lemma board_equiv_cell p q x y :
  board_equiv p q → (0 ≤ x < Grid.size p.2)%Z → (0 ≤ y < Grid.size p.2)%Z →
  ser_cell q.1 (cell_of q.2 x y) = ser_cell p.1 (cell_of p.2 x y).
Proof.
  intros (_ & _ & Hs & Hb) Hx Hy.
  pose proof (read_board q.1 q.2 x y) as Hq. rewrite Hb, Hs, read_board in Hq by done.
  symmetry. by injection Hq.
Qed.

(** On a well-formed grid a cell is empty exactly when it serializes to
    [null]. *)
Lemma ser_cell_None s g x y :
  grid_inv s g → ser_cell s (cell_of g x y) = None ↔ cell_of g x y = None.
Proof.
  intros [_ Hpos]. unfold ser_cell. destruct (cell_of g x y) as [l|] eqn:Hc; [|done].
  destruct (Hpos x y l Hc) as (t & Ht & _). simpl. by rewrite Ht.
Qed.

(** The log value of a cell is read off its serialized form. *)
Lemma ser_cell_logValue s c :
  TileState.logValue <$> ser_cell s c = (l ← c; t ← tile_at s l; Some (Tile.logValue t)).
Proof.
  destruct c as [l|]; [|done]. simpl. destruct (tile_at s l); [|done].
  simpl. by rewrite Tile.serialize_spec.
Qed.

#[export] Instance free_cells_proper : Proper (board_equiv ==> eq) free_cells.
Proof.
  intros p q Heq. pose proof Heq as (Hp & Hq & Hs & _). unfold free_cells. rewrite Hs.
  apply filter_ext_elem. intros [x y] [Hx Hy]%coords_elem. simpl in *.
  rewrite <-(ser_cell_None _ _ _ _ Hp), <-(ser_cell_None _ _ _ _ Hq).
  by rewrite (board_equiv_cell p q).
Qed.

#[export] Instance values_of_proper : Proper (board_equiv ==> eq) values_of.
Proof.
  intros p q Heq. pose proof Heq as (_ & _ & Hs & _).
  unfold values_of, logValues, region_values. rewrite Hs.
  apply omap_ext_elem. intros [x y] [Hx Hy]%coords_elem. simpl in *.
  by rewrite <-!ser_cell_logValue, (board_equiv_cell p q).
Qed.

(** Equivalent grids answer [availableCells] and [getScore] alike. *)
Lemma board_equiv_queries d p q self self' :
  board_equiv p q → grid_at p.1 self = Some p.2 → grid_at q.1 self' = Some q.2 →
  (∃ cells, availableCells self p.1 = Some (cells, p.1) ∧
            availableCells self' q.1 = Some (cells, q.1)) ∧
  (∃ score s1 s2, getScore d self p.1 = Some (score, s1) ∧
                  getScore d self' q.1 = Some (score, s2)).
Proof.
  intros Heq Hp Hq. pose proof Heq as (Hip & Hiq & _).
  split.
  - exists (free_cells p). rewrite (availableCells_run _ _ p.2), (availableCells_run _ _ q.2)
      by (done || apply Hip || apply Hiq).
    change (filter _ (coords (Grid.size q.2))) with (free_cells q).
    assert (free_cells q = free_cells p) as -> by (by rewrite <-Heq). done.
  - eexists _, _, _. rewrite (getScore_run d _ _ p.2), (getScore_run d _ _ q.2) by done.
    change (logValues q.1 q.2) with (values_of q).
    assert (values_of q = values_of p) as -> by (by rewrite <-Heq). split; reflexivity.
Qed.
End Equiv.
