(* ===== verification/Machine.v ===== *)
(** * The grid's operations as a state machine

    The game drives the grids through their methods; between two calls
    the store is whatever the last method left.  [op_step] is one
    elementary operation the code performs on the store: allocating a
    tile ([new Tile(...)] or [tile.clone()]), [new Grid(size,
    previousState)], [insertTile], [removeTile], [getScore], the
    [playerTurn] annotation the game sets, and the assignment of the
    global [newGrid].  [step] adds [clone], which is a sequence of
    elementary operations ([clone_steps]).  The [reachable] stores are
    those the steps build from the empty store.  By rule induction every
    reachable store is well formed and every grid in it satisfies
    [grid_inv]; the queries of such grids never throw.

    [new Grid] is a step for a [size] of at most [2^32 - 1] (the longest
    JavaScript array: a longer row makes [push] throw a [RangeError],
    which the model of [empty] does not write out) and for a snapshot
    whose entries carry their own coordinates, as [serialize] produces
    them ([snapshot_ok]; [new_Grid_inconsistent_snapshot] shows what
    another snapshot does). *)

From stdpp Require Import relations.
From S2P Require Import Prelude Tile Objects Construct Cells Score Snapshot.

Section Machine.
Context {T : Type} `{!Tile.Intf T}.

(** A snapshot [new Grid] loads into a well-formed grid: a row for every
    [x < size], and every entry at the coordinates it records. *)
Definition snapshot_ok (size : Z) (prev : option cell_state) : Prop :=
  match prev with
  | None => True
  | Some state =>
      (∀ x, (0 ≤ x < size)%Z → is_Some (js_index state x)) ∧
      ∀ x y ts, (0 ≤ x < size)%Z → (0 ≤ y < size)%Z →
        default None (read_cell state x y) = Some ts → TileState.position ts = (x, y)
  end.

Inductive op_step : store T → store T → Prop :=
| op_tile s t l s' :
    alloc (OTile t) s = Some (l, s') → op_step s s'
| op_grid s size prev l s' :
    (size ≤ js_max_length)%Z → snapshot_ok size prev →
    new_Grid size prev s = Some (l, s') → op_step s s'
| op_insert s self tile s' :
    insertTile self tile s = Some (tt, s') → op_step s s'
| op_remove s self tile s' :
    removeTile self tile s = Some (tt, s') → op_step s s'
| op_score d s self r s' :
    getScore d self s = Some (r, s') → op_step s s'
| op_playerTurn s self g p :
    grid_at s self = Some g →
    op_step s (store_put_grid s self (Grid.with_playerTurn g p))
| op_global s l s' :
    set_newGrid l s = Some (tt, s') → op_step s s'.

Inductive step : store T → store T → Prop :=
| step_op s s' : op_step s s' → step s s'
| step_clone s self ng s' : clone self s = Some (ng, s') → step s s'.

(** The empty store the program starts from. *)
Definition init : store T := mkStore ∅ 0%N None.

Definition reachable (s : store T) : Prop := rtc step init s.

(** The invariant of reachable stores: well formed, and every grid in
    them satisfies [grid_inv] and has at most [2^32 - 1] rows. *)
Definition machine_inv (s : store T) : Prop :=
  store_wf s ∧ ∀ l g, grid_at s l = Some g →
    grid_inv s g ∧ (Grid.size g ≤ js_max_length)%Z.
End Machine.

(** ** Each operation preserves the invariant *)

Section Preservation.
Context {T : Type} `{!Tile.Intf T, !Tile.Laws T}.
Implicit Types (s : store T).

(** A grid whose cells and size are those of a well-formed grid, in a
    store that keeps the tiles, is well formed. *)
Lemma grid_inv_same_cells s s' g g' :
  grid_inv s g → Grid.cells g' = Grid.cells g → Grid.size g' = Grid.size g →
  (∀ l t, tile_at s l = Some t → tile_at s' l = Some t) → grid_inv s' g'.
Proof.
  intros [Hr Hp] Hc Hs Ht. split; [unfold rows_ok in *; by rewrite Hc, Hs|].
  intros x y l Hl. unfold cell_of in Hl. rewrite Hc in Hl.
  destruct (Hp x y l Hl) as (t & Ht' & Hx & Hy). exists t. auto.
Qed.

(** Replacing the grid [self] by a well-formed grid of the same size. *)
Lemma machine_inv_put s self g g' :
  machine_inv s → grid_at s self = Some g →
  grid_inv (store_put_grid s self g') g' → Grid.size g' = Grid.size g →
  machine_inv (store_put_grid s self g').
Proof.
  intros [Hwf Hgr] Hg Hinv' Hsz. split.
  - eapply put_grid_wf; [done|by eapply grid_at_dom|apply put_grid_run].
  - intros l g0. rewrite grid_at_put_grid. case_decide.
    + intros [= <-]. split; [done|]. rewrite Hsz. by apply (Hgr self).
    + intros Hg0. destruct (Hgr l g0 Hg0) as [Hi Hs]. split; [|done].
      apply (grid_inv_same_cells s _ g0 g0); [done..|].
      intros l' t Ht. by rewrite (tile_at_put_grid _ _ _ g).
Qed.

(** A grid rewritten with the same cells, such as [getScore]'s cache
    update or the [playerTurn] annotation. *)
Lemma machine_inv_put_same s self g g' :
  machine_inv s → grid_at s self = Some g →
  Grid.cells g' = Grid.cells g → Grid.size g' = Grid.size g →
  machine_inv (store_put_grid s self g').
Proof.
  intros Hm Hg Hc Hs. apply (machine_inv_put _ _ g); [done..| |done].
  apply (grid_inv_same_cells s _ g); [by apply (proj2 Hm self)|done|done|].
  intros l t Ht. by rewrite (tile_at_put_grid _ _ _ g).
Qed.

Lemma machine_inv_write s self tile v s' :
  (∀ l, v = Some l → l = tile) → machine_inv s →
  write_at_tile self tile v s = Some (tt, s') → machine_inv s'.
Proof.
  intros Hv Hm Hrun.
  destruct (write_at_tile_puts _ _ _ _ _ Hrun) as (g & t & cells & Hg & Ht & Hw & ->).
  apply (machine_inv_put _ _ g); [done|done| |done].
  destruct (write_at_tile_inv s self tile v g t _ (proj1 (proj2 Hm self g Hg)) Hg Ht Hv Hrun)
    as (g3 & Hg3 & Hinv3).
  rewrite grid_at_put_grid, decide_True in Hg3 by done. by injection Hg3 as <-.
Qed.

Lemma machine_inv_alloc_tile s t l s' :
  machine_inv s → alloc (OTile t) s = Some (l, s') → machine_inv s'.
Proof.
  intros [Hwf Hgr] Ha. destruct (alloc_grows s t s' l Hwf Ha) as (Hext & Hw & Hgrids).
  split; [by apply Hw|]. intros l' g Hg.
  destruct (Hgr l' g (Hgrids _ _ Hg)) as [Hi Hs]. split; [|done]. by eapply grid_inv_extends.
Qed.

Lemma machine_inv_new_grid s size prev l s' :
  machine_inv s → (size ≤ js_max_length)%Z → snapshot_ok size prev →
  new_Grid size prev s = Some (l, s') → machine_inv s'.
Proof.
  intros [Hwf Hgr] Hsize Hok Hrun. destruct prev as [state|].
  - destruct Hok as [Hrows Hpos].
    destruct (new_Grid_state_run s size state)
      as (l0 & s0 & cells & Hrun0 & Hext & Hwf0 & Hgrids & _ & Hg0 & Hcells); [done..|].
    assert (Some (l0, s0) = Some (l, s')) as [= <- <-] by (rewrite <-Hrun0, <-Hrun; reflexivity).
    split; [done|].
    intros l' g Hg. destruct (Hgrids l' g Hg) as [->|Hold].
    + rewrite Hg0 in Hg. injection Hg as <-. split; [|done]. by eapply rebuilt_cells_inv.
    + destruct (Hgr l' g Hold) as [Hi Hs]. split; [|done]. by eapply grid_inv_extends.
  - rewrite new_Grid_empty_run in Hrun. injection Hrun as <- <-.
    split; [eapply alloc_wf; [done|apply alloc_run]|].
    intros l' g. unfold grid_at at 1. simpl. rewrite lookup_insert. case_decide.
    + intros [= <-]. split; [|done]. split; [apply empty_rows_ok|].
      intros x y l0. by rewrite cell_of_empty.
    + intros Hg. destruct (Hgr l' g Hg) as [Hi Hs]. split; [|done].
      eapply grid_inv_extends; [|done]. eapply alloc_extends; [done|apply alloc_run].
Qed.

Lemma machine_inv_score d s self r s' :
  machine_inv s → getScore d self s = Some (r, s') → machine_inv s'.
Proof.
  intros Hm Hrun. destruct (grid_at s self) as [g|] eqn:Hg.
  - rewrite (getScore_run d s self g) in Hrun by (done || by apply (proj2 Hm self)).
    injection Hrun as _ <-. by apply (machine_inv_put_same _ _ g).
  - unfold getScore, st_bind, get_grid, st_lift in Hrun. by rewrite Hg in Hrun.
Qed.

Lemma op_step_inv s s' : op_step s s' → machine_inv s → machine_inv s'.
Proof.
  destruct 1 as [s t l s' Ha|s size prev l s' Hsize Hok Hrun|s self tile s' Hrun
    |s self tile s' Hrun|d s self r s' Hrun|s self g p Hg|s l s' Hrun]; intros Hm.
  - by eapply machine_inv_alloc_tile.
  - by eapply machine_inv_new_grid.
  - rewrite insertTile_write in Hrun.
    apply (machine_inv_write s self tile (Some tile) s'); [naive_solver|done..].
  - rewrite removeTile_write in Hrun. by apply (machine_inv_write s self tile None s').
  - by eapply machine_inv_score.
  - by apply (machine_inv_put_same _ _ g).
  - by injection Hrun as <-.
Qed.

Lemma rtc_op_step_inv s s' : rtc op_step s s' → machine_inv s → machine_inv s'.
Proof. induction 1; eauto using op_step_inv. Qed.
End Preservation.

(** ** [clone] is a sequence of elementary operations *)

Section CloneSteps.
Context {T : Type} `{!Tile.Intf T}.
Implicit Types (s : store T).

(** One visit of the loop of [clone]: nothing, or the allocation of
    [tile.clone()] followed by [insertTile]. *)
Lemma clone_cell_steps self x y s1 s2 :
  clone_cell self x y s1 = Some (tt, s2) → rtc op_step s1 s2.
Proof.
  unfold clone_cell. intros Hrun.
  apply st_bind_Some in Hrun as (g & sa & [_ ->]%get_grid_Some & Hrun).
  apply st_bind_Some in Hrun as (c & sb & [_ ->]%st_lift_Some & Hrun).
  destruct c as [l|].
  - apply st_bind_Some in Hrun as (ng & sc & [_ ->]%get_newGrid_Some & Hrun).
    apply st_bind_Some in Hrun as (t & sd & [_ ->]%get_tile_Some & Hrun).
    apply st_bind_Some in Hrun as (copy & se & Ha & Hins).
    eapply rtc_l; [by eapply op_tile|]. eapply rtc_l; [by eapply op_insert|]. apply rtc_refl.
  - injection Hrun as <-. apply rtc_refl.
Qed.

(** [clone] builds a grid, assigns the global, sets [playerTurn] and
    runs its loop: a sequence of elementary operations, for a grid of at
    most [2^32 - 1] rows. *)
Lemma clone_steps self g s ng s' :
  grid_at s self = Some g → (Grid.size g ≤ js_max_length)%Z →
  clone self s = Some (ng, s') → rtc op_step s s'.
Proof.
  intros Hg Hsize Hrun. unfold clone in Hrun.
  apply st_bind_Some in Hrun as (g0 & sa & [Hg0 ->]%get_grid_Some & Hrun).
  rewrite Hg in Hg0. injection Hg0 as <-.
  apply st_bind_Some in Hrun as (created & sA & HA & Hrun).
  apply st_bind_Some in Hrun as ([] & sB & HB & Hrun).
  apply st_bind_Some in Hrun as (ng0 & sb & [_ ->]%get_newGrid_Some & Hrun).
  apply st_bind_Some in Hrun as (gn & sc & [Hgn ->]%get_grid_Some & Hrun).
  apply st_bind_Some in Hrun as ([] & sC & HC & Hrun).
  apply st_bind_Some in Hrun as ([] & sD & HD & [_ ->]%get_newGrid_Some).
  rewrite put_grid_run in HC. injection HC as <-.
  eapply rtc_l; [by eapply (op_grid _ (Grid.size g) None)|].
  eapply rtc_l; [by eapply op_global|].
  eapply rtc_l; [by eapply op_playerTurn|].
  eapply st_for_rtc; [|exact HD]. intros x s1 s2 _ Hx.
  eapply st_for_rtc; [|exact Hx]. intros y s3 s4 _. apply clone_cell_steps.
Qed.
End CloneSteps.

(** ** Reachable stores *)

Section Reachable.
Context {T : Type} `{!Tile.Intf T, !Tile.Laws T}.
Implicit Types (s : store T).

Lemma init_inv : machine_inv (T := T) init.
Proof. split; [intros l; simpl; rewrite dom_empty_L; set_solver|done]. Qed.

Lemma step_inv s s' : step s s' → machine_inv s → machine_inv s'.
Proof.
  destruct 1 as [s s' Hop|s self ng s' Hrun]; intros Hm; [by eapply op_step_inv|].
  destruct (grid_at s self) as [g|] eqn:Hg.
  - eapply rtc_op_step_inv; [|done]. eapply clone_steps; [done| |done].
    by apply (proj2 Hm self g).
  - unfold clone, st_bind, get_grid, st_lift in Hrun. by rewrite Hg in Hrun.
Qed.

Lemma steps_inv s s' : rtc step s s' → machine_inv s → machine_inv s'.
Proof. induction 1; eauto using step_inv. Qed.

(** C11: every store the grid's operations build from the empty store is
    well formed, and every grid in it has its rows and each of its tiles
    at the tile's own coordinates. *)
Theorem reachable_inv s : reachable s → machine_inv s.
Proof. intros Hr. eapply steps_inv; [exact Hr|apply init_inv]. Qed.

(** C12: on a reachable store, [availableCells], [serialize], [getScore]
    and [clone] of any grid return without throwing. *)
Theorem reachable_total d s l g :
  reachable s → grid_at s l = Some g →
  is_Some (availableCells l s) ∧ is_Some (serialize l s) ∧
  is_Some (getScore d l s) ∧ is_Some (clone l s).
Proof.
  intros Hr Hg. destruct (steps_inv _ _ Hr init_inv) as [Hwf Hgr].
  destruct (Hgr l g Hg) as [Hinv Hsize].
  split_and!.
  - rewrite (availableCells_run s l g) by (done || apply Hinv). eauto.
  - rewrite (serialize_run s l g) by done. eauto.
  - rewrite (getScore_run d s l g) by done. eauto.
  - destruct (clone_run s l g) as (ng & s' & -> & _); [done..|]. eauto.
Qed.
End Reachable.

(** ** A snapshot whose entries are not at their coordinates *)

(** A [2 × 2] snapshot with, at [[0][0]], a tile that records the
    position [(1, 1)]. *)
Definition ex_bad_snapshot : cell_state :=
  [[Some (TileState.mk (1, 1)%Z 3%Z); None]; [None; None]].

Section Inconsistent.
Context {T : Type} `{!Tile.Intf T, !Tile.Laws T}.
Implicit Types (s : store T).

(** C30: [new Grid(n, cells)] trusts the positions a snapshot records:
    whenever the entry at [[x][y]] of a snapshot records a position other
    than [(x, y)], the rebuilt grid holds at [(x, y)] a tile that
    [removeTile] cannot remove: the call either throws or clears the
    recorded position, and the tile stays at [(x, y)]. *)
Theorem new_Grid_inconsistent_snapshot s n st x y ts :
  store_wf s → (∀ x', (0 ≤ x' < n)%Z → is_Some (js_index st x')) →
  (0 ≤ x < n)%Z → (0 ≤ y < n)%Z → default None (read_cell st x y) = Some ts →
  TileState.position ts ≠ (x, y) →
  ∃ ng s1 g l, new_Grid n (Some st) s = Some (ng, s1) ∧ grid_at s1 ng = Some g ∧
    cell_of g x y = Some l ∧
    (removeTile ng l s1 = None ∨
     ∃ s2 g2, removeTile ng l s1 = Some (tt, s2) ∧ grid_at s2 ng = Some g2 ∧
       cell_of g2 x y = Some l).
Proof.
  intros Hwf Hrows Hx Hy Hts Hpos.
  destruct (new_Grid_state_run s n st) as (ng & s1 & cells & Hrun & _ & _ & _ & _ & Hg & Hcells);
    [done..|].
  destruct (read_cell_Forall2 _ _ _ x y Hcells Hx Hy) as (c & Hc & Hr).
  rewrite Hts in Hr. destruct Hr as (l & -> & _ & Ht).
  exists ng, s1, (Grid.mk n cells (Some 0%Z) None), l.
  split_and!; [done|done|by unfold cell_of; simpl; rewrite Hc|].
  destruct (removeTile ng l s1) as [[[] s2]|] eqn:Hrm; [right|by left].
  rewrite removeTile_write in Hrm.
  destruct (write_at_tile_puts _ _ _ _ _ Hrm) as (g0 & t0 & cells' & Hg0 & Ht0 & Hw & ->).
  rewrite Hg in Hg0. rewrite Ht in Ht0. simplify_eq.
  eexists _, (Grid.with_cells (Grid.mk n cells (Some 0%Z) None) cells'). split_and!.
  - done.
  - by rewrite grid_at_put_grid, decide_True.
  - rewrite (cell_of_write _ _ _ _ _ _ _ Hw), decide_False; [by unfold cell_of; simpl; rewrite Hc|].
    rewrite Tile.make_x, Tile.make_y. destruct (TileState.position ts). naive_solver.
Qed.
End Inconsistent.

(** ** Witnesses: a store built by three steps *)

(** [new Grid(4)], [new Tile({x: 1, y: 2}, 3)], [grid.insertTile(tile)]. *)
Definition ex_reach1 : store Tile.Impl.tile :=
  Eval vm_compute in default init (snd <$> new_Grid 4 None init).
Definition ex_reach2 : store Tile.Impl.tile :=
  Eval vm_compute in default ex_reach1 (snd <$> alloc (OTile (Tile.Impl.mk 1 2 3)) ex_reach1).
Definition ex_reach3 : store Tile.Impl.tile :=
  Eval vm_compute in default ex_reach2 (snd <$> insertTile 0%N 1%N ex_reach2).
Definition ex_reach_grid : Grid.t :=
  Eval vm_compute in default ex_grid (grid_at ex_reach3 0%N).

Lemma ex_reach3_reachable : reachable ex_reach3.
Proof.
  eapply rtc_l.
  { apply step_op, (op_grid _ 4 None 0%N ex_reach1); [|exact I|reflexivity].
    unfold js_max_length, js_max_index. lia. }
  eapply rtc_l; [apply step_op, (op_tile _ (Tile.Impl.mk 1 2 3) 1%N); reflexivity|].
  eapply rtc_l; [apply step_op, (op_insert _ 0%N 1%N); reflexivity|].
  apply rtc_refl.
Qed.

Lemma reachable_inv_witness : reachable ex_reach3 ∧ machine_inv ex_reach3.
Proof. split; [exact ex_reach3_reachable|exact (reachable_inv ex_reach3 ex_reach3_reachable)]. Defined.

Lemma reachable_total_witness :
  reachable ex_reach3 ∧ grid_at ex_reach3 0%N = Some ex_reach_grid ∧
  is_Some (availableCells 0%N ex_reach3) ∧ is_Some (serialize 0%N ex_reach3) ∧
  is_Some (getScore 2 0%N ex_reach3) ∧ is_Some (clone 0%N ex_reach3).
Proof.
  assert (grid_at ex_reach3 0%N = Some ex_reach_grid) as Hg by reflexivity.
  destruct (reachable_total 2 ex_reach3 0%N ex_reach_grid ex_reach3_reachable Hg)
    as (H1 & H2 & H3 & H4).
  split_and!; [exact ex_reach3_reachable|exact Hg|exact H1|exact H2|exact H3|exact H4].
Defined.

Lemma new_Grid_inconsistent_snapshot_witness :
  store_wf (T := Tile.Impl.tile) init ∧ (∀ x', (0 ≤ x' < 2)%Z → is_Some (js_index ex_bad_snapshot x')) ∧
  (0 ≤ 0 < 2)%Z ∧ (0 ≤ 0 < 2)%Z ∧
  default None (read_cell ex_bad_snapshot 0 0) = Some (TileState.mk (1, 1)%Z 3%Z) ∧
  TileState.position (TileState.mk (1, 1)%Z 3%Z) ≠ (0, 0)%Z ∧
  ∃ ng s1 g l, new_Grid (T := Tile.Impl.tile) 2 (Some ex_bad_snapshot) init = Some (ng, s1) ∧
    grid_at s1 ng = Some g ∧ cell_of g 0 0 = Some l ∧
    (removeTile ng l s1 = None ∨
     ∃ s2 g2, removeTile ng l s1 = Some (tt, s2) ∧ grid_at s2 ng = Some g2 ∧
       cell_of g2 0 0 = Some l).
Proof.
  assert (store_wf (T := Tile.Impl.tile) init) as Hwf by (apply (bool_decide_unpack _); vm_compute; reflexivity).
  assert (∀ x', (0 ≤ x' < 2)%Z → is_Some (js_index ex_bad_snapshot x')) as Hrows
    by (intros; apply js_index_in_range; simpl; lia).
  assert (TileState.position (TileState.mk (1, 1)%Z 3%Z) ≠ (0, 0)%Z) as Hne by (simpl; congruence).
  split_and!; [done|done|lia|lia|lia|lia|reflexivity|done|].
  exact (new_Grid_inconsistent_snapshot init 2 ex_bad_snapshot 0 0 _ Hwf Hrows
           ltac:(lia) ltac:(lia) eq_refl Hne).
Defined.
