(* ===== verification/Refine.v ===== *)
(** * Refinement: the grid implements an abstract board

    The spec describes a grid as an [N × N] matrix of optional tiles.  Its
    abstract state here is [aboard]: a finite map from the coordinates of
    the occupied cells to the log values of their tiles.  The abstract
    operations insert or delete an entry, list the coordinates without
    one, and score the values.  [abs] maps a well-formed grid in its
    store to its abstract board.  Each method is a commuting square over
    [abs] ([insertTile_abs], [removeTile_abs], [availableCells_abs],
    [getScore_abs]), and a whole sequence of method calls refines the
    abstract run of the corresponding operations ([run_ops_refines]), in
    the style of a simulation diagram. *)

From S2P Require Import Prelude Tile Objects Construct Cells Score Machine.

(** ** The abstract board and its operations *)

Abbreviation aboard := (gmap (Z * Z) Z).

(** The coordinates of the board of size [n]. *)
Definition in_board (n : Z) (p : Z * Z) : bool :=
  (0 <=? p.1)%Z && (p.1 <? n)%Z && (0 <=? p.2)%Z && (p.2 <? n)%Z.

Definition a_available (n : Z) (m : aboard) : list (Z * Z) :=
  filter (λ p, m !! p = None) (coords n).

Definition a_values (n : Z) (m : aboard) : list Z :=
  omap (λ p, m !! p) (coords n).

Definition a_score (d n : Z) (m : aboard) : jsnum :=
  let vals := sort_desc (a_values n m) in score_of vals (generatedFrom d (head vals)).

(** The abstract operations, and what they return. *)
Inductive aop :=
| AInsert (p : Z * Z) (v : Z)
| ARemove (p : Z * Z)
| AScore (d : Z)
| AAvailable.

Inductive out :=
| ONone
| OScore (r : jsnum)
| OCells (cells : list (Z * Z)).

Definition a_step (n : Z) (o : aop) (m : aboard) : out * aboard :=
  match o with
  | AInsert p v => (ONone, <[p := v]> m)
  | ARemove p => (ONone, delete p m)
  | AScore d => (OScore (a_score d n m), m)
  | AAvailable => (OCells (a_available n m), m)
  end.

Fixpoint a_run (n : Z) (os : list aop) (m : aboard) : list out * aboard :=
  match os with
  | [] => ([], m)
  | o :: os' =>
      let '(r, m') := a_step n o m in
      let '(rs, m'') := a_run n os' m' in (r :: rs, m'')
  end.

(** ** The concrete side: a sequence of method calls on one grid *)

(** A call the game makes on the grid [self]. *)
Inductive gop :=
| GInsert (tile : loc)
| GRemove (tile : loc)
| GScore (d : Z)
| GAvailable.

Section Concrete.
Context {T : Type} `{!Tile.Intf T}.
Local Abbreviation M := (ST (store T)).

Definition run_op (self : loc) (o : gop) : M out :=
  match o with
  | GInsert tile => insertTile self tile ;; st_ret ONone
  | GRemove tile => removeTile self tile ;; st_ret ONone
  | GScore d => do r <- getScore d self; st_ret (OScore r)
  | GAvailable => do cells <- availableCells self; st_ret (OCells cells)
  end.

Fixpoint run_ops (self : loc) (os : list gop) : M (list out) :=
  match os with
  | [] => st_ret []
  | o :: os' => do r <- run_op self o; do rs <- run_ops self os'; st_ret (r :: rs)
  end.

(** The log value of the tile at [p], if any. *)
Definition value_at (s : store T) (g : Grid.t) (p : Z * Z) : option Z :=
  l ← cell_of g p.1 p.2; t ← tile_at s l; Some (Tile.logValue t).

(** The abstraction: the board of [g] as a finite map. *)
Definition abs (s : store T) (g : Grid.t) : aboard :=
  list_to_map (omap (λ p, (λ v, (p, v)) <$> value_at s g p) (coords (Grid.size g))).

(** The abstract operation of a call, read in the store [s]: the tile
    inserted or removed is named by its coordinates. *)
Definition abs_op (s : store T) (o : gop) : aop :=
  match o with
  | GInsert l => match tile_at s l with
                 | Some t => AInsert (Tile.x t, Tile.y t) (Tile.logValue t)
                 | None => AAvailable
                 end
  | GRemove l => match tile_at s l with
                 | Some t => ARemove (Tile.x t, Tile.y t)
                 | None => AAvailable
                 end
  | GScore d => AScore d
  | GAvailable => AAvailable
  end.

(** Every tile the calls insert or remove exists and lies on the board. *)
Definition ops_ok (s : store T) (n : Z) (os : list gop) : bool :=
  forallb (λ o, match o with
                | GInsert l | GRemove l =>
                    match tile_at s l with
                    | Some t => in_board n (Tile.x t, Tile.y t)
                    | None => false
                    end
                | _ => true
                end) os.
End Concrete.

(** ** The abstraction *)

Section Abstraction.
Context {T : Type} `{!Tile.Intf T}.
Implicit Types (s : store T) (g : Grid.t).

Lemma in_board_coords n p : in_board n p = true ↔ p ∈ coords n.
Proof.
  rewrite coords_elem. unfold in_board.
  rewrite !andb_true_iff, !Z.leb_le, !Z.ltb_lt. tauto.
Qed.

Lemma abs_lookup s g p :
  abs s g !! p = if decide (p ∈ coords (Grid.size g)) then value_at s g p else None.
Proof. apply list_to_map_omap_lookup, NoDup_coords. Qed.

(** The cells of a well-formed grid are empty exactly when they have no
    value. *)
Lemma value_at_None s g p :
  grid_inv s g → value_at s g p = None ↔ cell_of g p.1 p.2 = None.
Proof.
  intros [_ Hpos]. unfold value_at. destruct (cell_of g p.1 p.2) as [l|] eqn:Hc; [|done].
  destruct (Hpos _ _ l Hc) as (t & Ht & _). simpl. by rewrite Ht.
Qed.

(** The values of the grid after [self] is replaced by [g'], whose cells
    are read in the tiles of [s]. *)
Lemma value_at_put s self g g' p :
  grid_at s self = Some g →
  value_at (store_put_grid s self g') g' p =
    (l ← cell_of g' p.1 p.2; t ← tile_at s l; Some (Tile.logValue t)).
Proof.
  intros Hg. unfold value_at. destruct (cell_of g' p.1 p.2) as [l|]; [|done]. simpl.
  by rewrite (tile_at_put_grid _ _ _ g).
Qed.

(** The log values [getScore] collects are those of the abstract board. *)
Lemma logValues_abs s g : logValues s g = a_values (Grid.size g) (abs s g).
Proof.
  unfold logValues, region_values, a_values. apply omap_ext_elem.
  intros p Hp. rewrite abs_lookup, decide_True by done. done.
Qed.
End Abstraction.

(** ** Each method is a commuting square over [abs] *)

Section Squares.
Context {T : Type} `{!Tile.Intf T}.
Implicit Types (s : store T) (g : Grid.t).

(** The write of [insertTile] ([v = Some tile]) or [removeTile]
    ([v = None]) of a tile on the board. *)
Lemma write_at_tile_abs s self g l t v :
  grid_inv s g → grid_at s self = Some g → tile_at s l = Some t →
  in_board (Grid.size g) (Tile.x t, Tile.y t) = true →
  (Grid.size g ≤ js_max_length)%Z → (∀ l0, v = Some l0 → l0 = l) →
  ∃ g', write_at_tile self l v s = Some (tt, store_put_grid s self g') ∧
    Grid.size g' = Grid.size g ∧ grid_inv (store_put_grid s self g') g' ∧
    abs (store_put_grid s self g') g' =
      match v with
      | Some _ => <[(Tile.x t, Tile.y t) := Tile.logValue t]> (abs s g)
      | None => delete (Tile.x t, Tile.y t) (abs s g)
      end.
Proof.
  intros Hinv Hg Ht Hin%in_board_coords Hsize Hv.
  pose proof Hin as [Hx Hy]%coords_elem. simpl in Hx, Hy.
  destruct (write_at_tile_spec s self l v g t) as (g' & Hrun & Hsz & _ & Hcells);
    [done|done|apply Hinv|lia|].
  exists g'. split_and!; [done|done| |].
  - destruct (write_at_tile_inv s self l v g t _ Hinv Hg Ht Hv Hrun) as (g3 & Hg3 & Hinv3).
    rewrite grid_at_put_grid, decide_True in Hg3 by done. by injection Hg3 as <-.
  - apply map_eq. intros [qx qy]. rewrite abs_lookup, Hsz, (value_at_put _ _ g) by done.
    simpl. rewrite Hcells.
    destruct (decide ((qx, qy) = (Tile.x t, Tile.y t))) as [Heq|Hne].
    + injection Heq as -> ->.
      rewrite !decide_True by (first [done | split; [done|unfold js_max_length, js_max_index in *; lia]]).
      destruct v as [l0|]; cbv beta iota; [|by rewrite lookup_delete_eq].
      rewrite lookup_insert_eq, (Hv l0 eq_refl). simpl. by rewrite Ht.
    + destruct v; cbv beta iota;
        [rewrite lookup_insert_ne by congruence|rewrite lookup_delete_ne by congruence];
        rewrite abs_lookup; repeat case_decide; try done; naive_solver.
Qed.

Lemma insertTile_abs s self g l t :
  grid_inv s g → grid_at s self = Some g → tile_at s l = Some t →
  in_board (Grid.size g) (Tile.x t, Tile.y t) = true → (Grid.size g ≤ js_max_length)%Z →
  ∃ g', insertTile self l s = Some (tt, store_put_grid s self g') ∧
    Grid.size g' = Grid.size g ∧ grid_inv (store_put_grid s self g') g' ∧
    abs (store_put_grid s self g') g' = <[(Tile.x t, Tile.y t) := Tile.logValue t]> (abs s g).
Proof.
  intros. rewrite insertTile_write.
  apply (write_at_tile_abs s self g l t (Some l)); naive_solver.
Qed.

Lemma removeTile_abs s self g l t :
  grid_inv s g → grid_at s self = Some g → tile_at s l = Some t →
  in_board (Grid.size g) (Tile.x t, Tile.y t) = true → (Grid.size g ≤ js_max_length)%Z →
  ∃ g', removeTile self l s = Some (tt, store_put_grid s self g') ∧
    Grid.size g' = Grid.size g ∧ grid_inv (store_put_grid s self g') g' ∧
    abs (store_put_grid s self g') g' = delete (Tile.x t, Tile.y t) (abs s g).
Proof.
  intros. rewrite removeTile_write.
  apply (write_at_tile_abs s self g l t None); [done..|by intros ? [=]].
Qed.

Lemma availableCells_abs s self g :
  grid_inv s g → grid_at s self = Some g →
  availableCells self s = Some (a_available (Grid.size g) (abs s g), s).
Proof.
  intros Hinv Hg. rewrite (availableCells_run s self g) by (done || apply Hinv).
  do 3 f_equal. apply filter_ext_elem. intros p Hp.
  rewrite abs_lookup, decide_True, value_at_None by done. done.
Qed.

Lemma getScore_abs d s self g :
  grid_inv s g → grid_at s self = Some g →
  ∃ g', getScore d self s = Some (a_score d (Grid.size g) (abs s g), store_put_grid s self g') ∧
    Grid.size g' = Grid.size g ∧ grid_inv (store_put_grid s self g') g' ∧
    abs (store_put_grid s self g') g' = abs s g.
Proof.
  intros Hinv Hg. rewrite (getScore_run d s self g) by done.
  eexists. split; [unfold a_score; by rewrite <-logValues_abs|]. split_and!; [done| |].
  - apply (grid_inv_same_cells s _ g); [done..|].
    intros l t Ht. by rewrite (tile_at_put_grid _ _ _ g).
  - apply map_eq. intros p. rewrite !abs_lookup, (value_at_put _ _ g) by done. reflexivity.
Qed.
End Squares.

(** ** Sequences of calls refine the abstract run *)

Section Simulation.
Context {T : Type} `{!Tile.Intf T}.
Implicit Types (s : store T) (g : Grid.t).

(** The calls on the grid [self] change no other object. *)
Definition frame (self : loc) s s' : Prop := ∀ l, l ≠ self → heap s' !! l = heap s !! l.

Lemma frame_refl self s : frame self s s.
Proof. by intros ? ?. Qed.

Lemma frame_put self s g : frame self s (store_put_grid s self g).
Proof. intros l Hl. simpl. by rewrite lookup_insert_ne. Qed.

Lemma frame_trans self s1 s2 s3 : frame self s1 s2 → frame self s2 s3 → frame self s1 s3.
Proof. intros H12 H23 l Hl. by rewrite H23, H12. Qed.

(** The abstract operation and the precondition of a call depend only
    on the tiles of the store, which the calls never change. *)
Lemma abs_op_tiles s s' o : (∀ l, tile_at s' l = tile_at s l) → abs_op s' o = abs_op s o.
Proof. intros Ht. destruct o; simpl; by rewrite ?Ht. Qed.

Lemma ops_ok_tiles s s' n os :
  (∀ l, tile_at s' l = tile_at s l) → ops_ok s' n os = ops_ok s n os.
Proof.
  intros Ht. induction os as [|o os IH]; [done|]. simpl. rewrite IH.
  destruct o; simpl; by rewrite ?Ht.
Qed.

Lemma ops_ok_cons s n o os : ops_ok s n (o :: os) = ops_ok s n [o] && ops_ok s n os.
Proof. simpl. by rewrite andb_true_r. Qed.

(** The step of the simulation: one call and its abstract operation. *)
Lemma run_op_abs s self g o :
  grid_inv s g → grid_at s self = Some g → (Grid.size g ≤ js_max_length)%Z →
  ops_ok s (Grid.size g) [o] = true →
  ∃ r s' g', run_op self o s = Some (r, s') ∧ grid_at s' self = Some g' ∧
    grid_inv s' g' ∧ Grid.size g' = Grid.size g ∧ (∀ l, tile_at s' l = tile_at s l) ∧
    frame self s s' ∧ (r, abs s' g') = a_step (Grid.size g) (abs_op s o) (abs s g).
Proof.
  intros Hinv Hg Hsize Hok. pose proof (frame_put self s) as Hfr. pose proof (frame_refl self s).
  assert (∀ g', ∀ l, tile_at (store_put_grid s self g') l = tile_at s l) as Hkeep
    by (intros; by rewrite (tile_at_put_grid _ _ _ g)).
  assert (∀ g', grid_at (store_put_grid s self g') self = Some g') as Hat
    by (intros; by rewrite grid_at_put_grid, decide_True).
  destruct o as [l|l|d|]; simpl in Hok |- *.
  - destruct (tile_at s l) as [t|] eqn:Ht; [|done]. rewrite andb_true_r in Hok.
    destruct (insertTile_abs s self g l t) as (g' & Hrun & Hsz & Hinv' & Habs); [done..|].
    exists ONone, (store_put_grid s self g'), g'. rewrite (st_bind_run _ _ _ _ _ Hrun).
    by rewrite Habs.
  - destruct (tile_at s l) as [t|] eqn:Ht; [|done]. rewrite andb_true_r in Hok.
    destruct (removeTile_abs s self g l t) as (g' & Hrun & Hsz & Hinv' & Habs); [done..|].
    exists ONone, (store_put_grid s self g'), g'. rewrite (st_bind_run _ _ _ _ _ Hrun).
    by rewrite Habs.
  - destruct (getScore_abs d s self g) as (g' & Hrun & Hsz & Hinv' & Habs); [done..|].
    exists (OScore (a_score d (Grid.size g) (abs s g))), (store_put_grid s self g'), g'.
    rewrite (st_bind_run _ _ _ _ _ Hrun). by rewrite Habs.
  - exists (OCells (a_available (Grid.size g) (abs s g))), s, g.
    by rewrite (st_bind_run _ _ _ _ _ (availableCells_abs s self g Hinv Hg)).
Qed.

(** The simulation over a sequence of calls, by induction on it. *)
Lemma run_ops_sim s self g os :
  grid_inv s g → grid_at s self = Some g → (Grid.size g ≤ js_max_length)%Z →
  ops_ok s (Grid.size g) os = true →
  ∃ rs s' g', run_ops self os s = Some (rs, s') ∧ grid_at s' self = Some g' ∧
    grid_inv s' g' ∧ Grid.size g' = Grid.size g ∧ (∀ l, tile_at s' l = tile_at s l) ∧
    frame self s s' ∧ (rs, abs s' g') = a_run (Grid.size g) (abs_op s <$> os) (abs s g).
Proof.
  revert s g. induction os as [|o os IH]; intros s g Hinv Hg Hsize Hok.
  - exists [], s, g. split_and!; [done..|apply frame_refl|done].
  - rewrite ops_ok_cons in Hok. apply andb_true_iff in Hok as [Ho Hos].
    destruct (run_op_abs s self g o)
      as (r & s1 & g1 & Hrun & Hg1 & Hinv1 & Hsz & Ht & Hfr & Hstep); [done..|].
    destruct (IH s1 g1) as (rs & s' & g' & Hruns & Hg' & Hinv' & Hsz' & Ht' & Hfr' & Habs);
      [done|done|lia|by rewrite Hsz, (ops_ok_tiles s s1)|].
    exists (r :: rs), s', g'. simpl.
    rewrite (st_bind_run _ _ _ _ _ Hrun), (st_bind_run _ _ _ _ _ Hruns).
    split_and!; [done|done|done|congruence|intros; by rewrite Ht', Ht|by eapply frame_trans|].
    rewrite <-Hstep. simpl.
    rewrite <-Hsz, (list_fmap_ext (abs_op s) (abs_op s1)), <-Habs; [done|].
    intros. by rewrite (abs_op_tiles s s1).
Qed.

(** C5: a sequence of [insertTile], [removeTile], [getScore] and
    [availableCells] calls on a well-formed grid, whose inserted and
    removed tiles lie on the board, never throws and refines the
    abstract run: it returns the abstract results, and the final board
    is the abstract board of the run. *)
Theorem run_ops_refines s self g os :
  grid_inv s g → grid_at s self = Some g → (Grid.size g ≤ js_max_length)%Z →
  ops_ok s (Grid.size g) os = true →
  ∃ rs s' g', run_ops self os s = Some (rs, s') ∧ grid_at s' self = Some g' ∧
    grid_inv s' g' ∧ (rs, abs s' g') = a_run (Grid.size g) (abs_op s <$> os) (abs s g).
Proof.
  intros. destruct (run_ops_sim s self g os) as (rs & s' & g' & ? & ? & ? & _ & _ & _ & ?); [done..|].
  by exists rs, s', g'.
Qed.

(** C20: inserting a tile of the board into an empty cell and removing it
    again leaves the abstract board as it was. *)
Theorem insert_remove_restores s self g l t :
  grid_inv s g → grid_at s self = Some g → (Grid.size g ≤ js_max_length)%Z →
  tile_at s l = Some t → in_board (Grid.size g) (Tile.x t, Tile.y t) = true →
  cell_of g (Tile.x t) (Tile.y t) = None →
  ∃ s' g', run_ops self [GInsert l; GRemove l] s = Some ([ONone; ONone], s') ∧
    grid_at s' self = Some g' ∧ grid_inv s' g' ∧ abs s' g' = abs s g.
Proof.
  intros Hinv Hg Hsize Ht Hin Hc.
  destruct (run_ops_sim s self g [GInsert l; GRemove l]) as (rs & s' & g' & Hrun & Hg' & Hinv' & _ & _ & _ & Habs);
    [done..|by simpl; rewrite Ht, Hin|].
  rewrite !fmap_cons, fmap_nil in Habs. unfold abs_op in Habs. rewrite Ht in Habs.
  cbn [a_run a_step] in Habs. injection Habs as -> Habs.
  exists s', g'. split_and!; [done..|]. rewrite Habs. apply delete_insert_id.
  rewrite abs_lookup. case_decide; [|done]. by apply value_at_None.
Qed.

End Simulation.

(** ** Witnesses *)

(** Insert the tile at location [4] (on [(2, 1)]), score, remove the
    tile at location [1] (on [(0, 0)]), and list the empty cells. *)
Definition ex_ops : list gop := [GInsert 4%N; GScore 2; GRemove 1%N; GAvailable].

Lemma run_ops_refines_witness :
  grid_inv ex_store ex_grid ∧ grid_at ex_store 0%N = Some ex_grid ∧
  (Grid.size ex_grid ≤ js_max_length)%Z ∧ ops_ok ex_store (Grid.size ex_grid) ex_ops = true ∧
  ∃ rs s' g', run_ops 0%N ex_ops ex_store = Some (rs, s') ∧ grid_at s' 0%N = Some g' ∧
    grid_inv s' g' ∧
    (rs, abs s' g') = a_run (Grid.size ex_grid) (abs_op ex_store <$> ex_ops) (abs ex_store ex_grid).
Proof.
  assert (grid_inv ex_store ex_grid) as Hinv by (apply grid_wf_sound; vm_compute; reflexivity).
  assert (Grid.size ex_grid ≤ js_max_length)%Z as Hsize
    by (unfold js_max_length, js_max_index; simpl; lia).
  split_and!; [done|reflexivity|done|reflexivity|].
  exact (run_ops_refines ex_store 0%N ex_grid ex_ops Hinv eq_refl Hsize eq_refl).
Defined.

Lemma insert_remove_restores_witness :
  grid_inv ex_store ex_grid ∧ grid_at ex_store 0%N = Some ex_grid ∧
  (Grid.size ex_grid ≤ js_max_length)%Z ∧
  tile_at ex_store 4%N = Some (Tile.Impl.mk 2 1 2) ∧
  in_board (Grid.size ex_grid) (Tile.x (Tile.Impl.mk 2 1 2), Tile.y (Tile.Impl.mk 2 1 2)) = true ∧
  cell_of ex_grid (Tile.x (Tile.Impl.mk 2 1 2)) (Tile.y (Tile.Impl.mk 2 1 2)) = None ∧
  ∃ s' g', run_ops 0%N [GInsert 4%N; GRemove 4%N] ex_store = Some ([ONone; ONone], s') ∧
    grid_at s' 0%N = Some g' ∧ grid_inv s' g' ∧ abs s' g' = abs ex_store ex_grid.
Proof.
  assert (grid_inv ex_store ex_grid) as Hinv by (apply grid_wf_sound; vm_compute; reflexivity).
  assert (Grid.size ex_grid ≤ js_max_length)%Z as Hsize
    by (unfold js_max_length, js_max_index; simpl; lia).
  split_and!; [done|reflexivity|done|reflexivity|reflexivity|reflexivity|].
  exact (insert_remove_restores ex_store 0%N ex_grid 4%N (Tile.Impl.mk 2 1 2)
           Hinv eq_refl Hsize eq_refl eq_refl eq_refl).
Defined.
