(* ===== verification/Typed.v ===== *)
(** * The type of snapshots

    [serialize] returns [{size, cells}] where [cells] is plain data: an
    array of [size] rows of [size] entries, each [null] or a
    [{position, logValue}] whose position is the cell it sits in.
    [snapshot_typed] checks this shape.  [serialize] only produces typed
    snapshots ([serialize_typed]), and [new Grid(size, cells)] loads every
    typed snapshot, without a [TypeError], into a grid that satisfies
    [grid_inv] and serializes back to that snapshot ([new_Grid_typed]):
    with [Snapshot.serialize_roundtrip], the round trip holds in both
    directions. *)

From S2P Require Import Prelude Tile Objects Construct Cells Snapshot.

(** The shape of the cells of a snapshot of a board of size [n]. *)
Definition snapshot_typed (n : Z) (st : cell_state) : bool :=
  bool_decide (length st = Z.to_nat n) &&
  forallb (λ row, bool_decide (length row = Z.to_nat n)) st &&
  forallb (λ p, match default None (read_cell st p.1 p.2) with
                | None => true
                | Some ts => bool_decide (TileState.position ts = p)
                end) (coords n).

Section Typed.
Context {T : Type} `{!Tile.Intf T, !Tile.Laws T}.
Implicit Types (s : store T) (g : Grid.t).

Lemma snapshot_typed_spec n st :
  snapshot_typed n st = true ↔
    length st = Z.to_nat n ∧ (∀ row, row ∈ st → length row = Z.to_nat n) ∧
    ∀ x y ts, (0 ≤ x < n)%Z → (0 ≤ y < n)%Z →
      default None (read_cell st x y) = Some ts → TileState.position ts = (x, y).
Proof.
  unfold snapshot_typed. rewrite !andb_true_iff, !forallb_elem, bool_decide_eq_true.
  setoid_rewrite bool_decide_eq_true. split.
  - intros [[Hl Hrows] Hpos]. split_and!; [done|done|]. intros x y ts Hx Hy He.
    specialize (Hpos (x, y) (proj2 (coords_elem n (x, y)) (conj Hx Hy))). simpl in Hpos.
    rewrite He in Hpos. by apply bool_decide_eq_true in Hpos.
  - intros (Hl & Hrows & Hpos). split_and!; [done|done|].
    intros [x y] [Hx Hy]%coords_elem. simpl in *.
    destruct (default None (read_cell st x y)) as [ts|] eqn:He; [|done].
    apply bool_decide_eq_true_2. eauto.
Qed.

(** C15: on a well-formed grid, [serialize] returns a typed snapshot:
    [size] rows of [size] entries, each [null] or a tile that records
    the cell it sits in. *)
Theorem serialize_typed s self g :
  grid_inv s g → grid_at s self = Some g →
  ∃ snap, serialize self s = Some (snap, s) ∧ snap_size snap = Grid.size g ∧
    snapshot_typed (snap_size snap) (snap_cells snap) = true.
Proof.
  intros Hinv Hg. eexists. rewrite (serialize_run s self g) by done.
  split_and!; [done..|]. apply snapshot_typed_spec. simpl.
  split_and!.
  - unfold board. by rewrite length_fmap, length_range.
  - unfold board. intros row (x & -> & _)%list_elem_of_fmap.
    by rewrite length_fmap, length_range.
  - intros x y ts Hx Hy. rewrite read_board by done. simpl.
    by apply ser_cell_position.
Qed.

(** A square array of [n] rows of [n] entries is the array of its
    entries, read by [read_cell]. *)
Lemma nested_range_eq {A} (n : Z) (st : list (list (option A))) (f : Z → Z → option A) :
  length st = Z.to_nat n → (∀ row, row ∈ st → length row = Z.to_nat n) →
  (∀ x y, (0 ≤ x < n)%Z → (0 ≤ y < n)%Z → f x y = default None (read_cell st x y)) →
  (λ x, (λ y, f x y) <$> range n) <$> range n = st.
Proof.
  intros Hl Hrows Hf. apply list_eq. intros i. rewrite list_lookup_fmap. unfold range.
  destruct (decide (i < Z.to_nat n)%nat) as [Hi|Hi].
  2:{ rewrite lookup_seqZ_ge, lookup_ge_None_2 by lia. done. }
  rewrite lookup_seqZ_lt by lia. simpl.
  destruct (lookup_lt_is_Some_2 st i) as [row Hrow]; [lia|]. rewrite Hrow. f_equal.
  pose proof (Hrows row (list_elem_of_lookup_2 _ _ _ Hrow)) as Hlen.
  apply list_eq. intros j. rewrite list_lookup_fmap.
  destruct (decide (j < Z.to_nat n)%nat) as [Hj|Hj].
  2:{ rewrite lookup_seqZ_ge, lookup_ge_None_2 by lia. done. }
  rewrite lookup_seqZ_lt by lia. simpl. rewrite Hf by lia.
  unfold read_cell, js_elem. rewrite !Z.add_0_l, js_index_lookup, Hrow. simpl.
  rewrite js_index_lookup. destruct (lookup_lt_is_Some_2 row j) as [c Hc]; [lia|].
  by rewrite Hc.
Qed.

(** [new Grid(n, cells)] on a typed snapshot rebuilds every cell. *)
Lemma new_Grid_typed_cells s n st :
  store_wf s → snapshot_typed n st = true →
  ∃ l s' g, new_Grid n (Some st) s = Some (l, s') ∧ grid_at s' l = Some g ∧
    Grid.size g = n ∧ grid_inv s' g ∧ extends s s' ∧
    ∀ x y, (0 ≤ x < n)%Z → (0 ≤ y < n)%Z →
      ser_cell s' (cell_of g x y) = default None (read_cell st x y).
Proof.
  intros Hwf (Hl & _ & Hpos)%snapshot_typed_spec.
  destruct (new_Grid_state_run s n st)
    as (l & s' & cells & Hrun & Hext & _ & _ & _ & Hg & Hcells); [done| |].
  { intros x Hx. apply js_index_in_range. lia. }
  exists l, s', (Grid.mk n cells (Some 0%Z) None). split_and!; [done..| |done|].
  - by eapply rebuilt_cells_inv.
  - intros x y Hx Hy. destruct (read_cell_Forall2 _ _ _ x y Hcells Hx Hy) as (c & Hc & Hr).
    unfold cell_of. simpl. rewrite Hc. simpl. by apply rebuilt_ser in Hr.
Qed.

(** C16: [new Grid(n, cells)] on a typed snapshot does not throw: it
    allocates a well-formed grid of size [n], keeps every object of the
    store, and [serialize] on it returns the snapshot [{size: n, cells}]
    it was built from. *)
Theorem new_Grid_typed s n st :
  store_wf s → snapshot_typed n st = true →
  ∃ l s' g, new_Grid n (Some st) s = Some (l, s') ∧ grid_at s' l = Some g ∧
    Grid.size g = n ∧ grid_inv s' g ∧ extends s s' ∧
    serialize l s' = Some (mkSnapshot n st, s').
Proof.
  intros Hwf Hty. pose proof Hty as (Hl & Hrows & _)%snapshot_typed_spec.
  destruct (new_Grid_typed_cells s n st Hwf Hty)
    as (l & s' & g & Hrun & Hg & Hsz & Hinv & Hext & Hcells).
  exists l, s', g. split_and!; [done..|].
  rewrite (serialize_run s' l g Hinv Hg), Hsz. do 3 f_equal.
  unfold board. rewrite Hsz. by apply nested_range_eq.
Qed.
End Typed.

Lemma serialize_typed_witness :
  grid_inv ex_store ex_grid ∧ grid_at ex_store 0%N = Some ex_grid ∧
  ∃ snap, serialize 0%N ex_store = Some (snap, ex_store) ∧ snap_size snap = Grid.size ex_grid ∧
    snapshot_typed (snap_size snap) (snap_cells snap) = true.
Proof.
  destruct ex_store_clone_hyps as (_ & Hinv & Hg & _).
  split_and!; [done..|]. exact (serialize_typed ex_store 0%N ex_grid Hinv Hg).
Defined.

Lemma new_Grid_typed_witness :
  store_wf ex_store ∧ snapshot_typed 4 (board ex_store ex_grid) = true ∧
  ∃ l s' g, new_Grid 4 (Some (board ex_store ex_grid)) ex_store = Some (l, s') ∧
    grid_at s' l = Some g ∧ Grid.size g = 4%Z ∧ grid_inv s' g ∧ extends ex_store s' ∧
    serialize l s' = Some (mkSnapshot 4 (board ex_store ex_grid), s').
Proof.
  destruct ex_store_clone_hyps as (Hwf & _ & _ & _).
  assert (snapshot_typed 4 (board ex_store ex_grid) = true) as Ht by (vm_compute; reflexivity).
  split_and!; [done..|]. exact (new_Grid_typed ex_store 4 _ Hwf Ht).
Defined.
