(* ===== verification/Fill.v ===== *)
(** * Filling the board: the game's random tile, repeated

    The game adds a tile the way the spec describes its callers: it asks
    [randomAvailableCell()], and when a cell comes back it allocates
    [new Tile(cell, value)] and calls [insertTile] with it; on a full
    board [randomAvailableCell()] returns [undefined] and nothing is
    added.  [addRandomTile] is that call sequence, [fill] repeats it over
    a list of draws of [Math.random()] and tile values.

    Every add on a board with an empty cell succeeds and fills exactly
    one empty cell (read through the abstraction [abs] of [Refine]), so
    the number of empty cells is a variant: whatever the draws, a driver
    that keeps adding tiles fills the board after exactly as many adds
    as there were empty cells, each a sequence of steps of [Machine]. *)

From stdpp Require Import relations.
From Stdlib Require Import QArith.
From S2P Require Import Prelude Tile Objects Construct Cells Score Snapshot Machine Refine.

Section Fill.
Context {T : Type} `{!Tile.Intf T}.
Local Abbreviation M := (ST (store T)).

(** [var cell = grid.randomAvailableCell();
     if (cell) grid.insertTile(new Tile(cell, value));] *)
Definition addRandomTile (self : loc) (random : Q) (value : Z) : M bool :=
  do c <- randomAvailableCell self random;
  match c with
  | None => st_ret false
  | Some p => do t <- alloc (OTile (Tile.make p value)); insertTile self t ;; st_ret true
  end.

(** One add per draw [(random, value)]. *)
Fixpoint fill (self : loc) (draws : list (Q * Z)) : M (list bool) :=
  match draws with
  | [] => st_ret []
  | (r, v) :: ds => do b <- addRandomTile self r v; do bs <- fill self ds; st_ret (b :: bs)
  end.

(** The draws [Math.random()] can return. *)
Definition draws_ok (draws : list (Q * Z)) : Prop := Forall (λ d, (0 <= d.1 < 1)%Q) draws.
End Fill.

Section FillLemmas.
Context {T : Type} `{!Tile.Intf T, !Tile.Laws T}.
Implicit Types (s : store T) (g : Grid.t) (m : aboard).

(** A store that keeps the tiles of a well-formed grid keeps its board. *)
Lemma abs_extends s s' g : grid_inv s g → extends s s' → abs s' g = abs s g.
Proof.
  intros [_ Hpos] Hext. unfold abs. f_equal. apply omap_ext_elem. intros p _.
  unfold value_at. destruct (cell_of g p.1 p.2) as [l|] eqn:Hc; [|done]. simpl.
  destruct (Hpos _ _ l Hc) as (t & Ht & _). by rewrite Ht, (tile_at_extends s s' l t).
Qed.

Lemma a_available_elem n m p : p ∈ a_available n m ↔ p ∈ coords n ∧ m !! p = None.
Proof. unfold a_available. rewrite list_elem_of_filter. tauto. Qed.

(** Filling an empty cell of the board leaves one empty cell fewer. *)
Lemma a_available_insert n m p v :
  p ∈ a_available n m → S (length (a_available n (<[p := v]> m))) = length (a_available n m).
Proof.
  intros [Hp Hm]%a_available_elem. unfold a_available.
  apply (filter_length_drop_one _ _ _ p); [apply NoDup_coords|done|done|].
  intros q _. destruct (decide (q = p)) as [->|Hne].
  - rewrite lookup_insert_eq. naive_solver.
  - rewrite lookup_insert_ne by done. naive_solver.
Qed.

Lemma op_steps_steps s s' : rtc op_step s s' → rtc step s s'.
Proof. induction 1; [apply rtc_refl|]. eapply rtc_l; [by apply step_op|done]. Qed.

(** One add: on a full board it returns [false] and changes nothing;
    otherwise it fills one of the empty cells with [value], by steps of
    the machine. *)
Lemma addRandomTile_step s self g r v :
  store_wf s → grid_inv s g → grid_at s self = Some g → (Grid.size g ≤ js_max_length)%Z →
  (0 <= r < 1)%Q →
  match a_available (Grid.size g) (abs s g) with
  | [] => addRandomTile self r v s = Some (false, s)
  | _ => ∃ p s' g', addRandomTile self r v s = Some (true, s') ∧ grid_at s' self = Some g' ∧
      Grid.size g' = Grid.size g ∧ grid_inv s' g' ∧ store_wf s' ∧ rtc op_step s s' ∧
      p ∈ a_available (Grid.size g) (abs s g) ∧ abs s' g' = <[p := v]> (abs s g)
  end.
Proof.
  intros Hwf Hinv Hg Hsize Hr.
  pose proof (randomAvailableCell_available _ _ _ r (availableCells_abs s self g Hinv Hg) Hr)
    as Hrc.
  unfold addRandomTile.
  destruct (a_available (Grid.size g) (abs s g)) as [|c cs] eqn:Hav.
  { by rewrite (st_bind_run _ _ s s None) by done. }
  destruct Hrc as ([x y] & Hrun & Hp). rewrite (st_bind_run _ _ s s _ Hrun).
  set (t := Tile.make (x, y) v).
  destruct (alloc (OTile t) s) as [[l s1]|] eqn:Ha; [|done].
  rewrite (st_bind_run _ _ s s1 l Ha).
  assert (extends s s1) as Hext by (by eapply alloc_extends).
  assert (tile_at s1 l = Some t) as Ht.
  { injection Ha as <- <-. unfold tile_at. simpl. by rewrite lookup_insert_eq. }
  assert ((x, y) ∈ coords (Grid.size g)) as Hxy
    by (rewrite <-Hav in Hp; apply a_available_elem in Hp; apply Hp).
  destruct (insertTile_abs s1 self g l t) as (g' & Hins & Hsz & Hinv' & Habs);
    [by eapply grid_inv_extends|by eapply grid_at_extends|done| |done|].
  { apply in_board_coords. unfold t. by autorewrite with grid_rw. }
  exists (x, y), (store_put_grid s1 self g'), g'.
  rewrite (st_bind_run _ _ s1 _ tt Hins). split_and!; try done.
  - by rewrite grid_at_put_grid, decide_True.
  - eapply put_grid_wf; [by eapply alloc_wf|eapply grid_at_dom, grid_at_extends; eauto|].
    apply put_grid_run.
  - eapply rtc_l; [by eapply op_tile|]. eapply rtc_l; [by eapply op_insert|]. apply rtc_refl.
  - rewrite Habs, (abs_extends s s1 g) by done. unfold t. by autorewrite with grid_rw.
Qed.

(** [fill] on a well-formed grid with [k] empty cells: the first
    [min k (length ds)] adds succeed, the others find the board full; the
    board then has [k - length ds] empty cells. *)
Lemma fill_run s self g ds k :
  store_wf s → grid_inv s g → grid_at s self = Some g → (Grid.size g ≤ js_max_length)%Z →
  draws_ok ds → length (a_available (Grid.size g) (abs s g)) = k →
  ∃ s' g', fill self ds s =
      Some (replicate (min k (length ds)) true ++ replicate (length ds - k) false, s') ∧
    grid_at s' self = Some g' ∧ Grid.size g' = Grid.size g ∧ grid_inv s' g' ∧ store_wf s' ∧
    rtc op_step s s' ∧ length (a_available (Grid.size g) (abs s' g')) = (k - length ds)%nat.
Proof.
  revert s g k. induction ds as [|[r v] ds IH]; intros s g k Hwf Hinv Hg Hsize Hds Hk.
  { exists s, g. rewrite Nat.min_0_r, Nat.sub_0_r. split_and!; by try apply rtc_refl. }
  apply Forall_cons in Hds as [Hr Hds].
  pose proof (addRandomTile_step s self g r v Hwf Hinv Hg Hsize Hr) as Hstep.
  destruct (a_available (Grid.size g) (abs s g)) as [|c cs] eqn:Hav; simpl in Hk; subst k.
  - destruct (IH s g 0%nat) as (s' & g' & Hfill & Hrest); [done..|by rewrite Hav|].
    exists s', g'. cbn [fill]. rewrite (st_bind_run _ _ s s false Hstep).
    rewrite (st_bind_run _ _ s s' _ Hfill). simpl. by rewrite Nat.sub_0_r.
  - destruct Hstep as (p & s1 & g1 & Hadd & Hg1 & Hsz1 & Hinv1 & Hwf1 & Hst1 & Hp & Habs1).
    rewrite <-Hav in Hp. pose proof (a_available_insert _ _ _ v Hp) as Hlen.
    rewrite Hav in Hlen. simpl in Hlen.
    destruct (IH s1 g1 (length cs)) as (s' & g' & Hfill & Hg' & Hsz & Hinv' & Hwf' & Hst & Hk');
      [done|done|done|by rewrite Hsz1|done|rewrite Hsz1, Habs1; lia|].
    exists s', g'. cbn [fill]. rewrite (st_bind_run _ _ s s1 true Hadd).
    rewrite (st_bind_run _ _ s1 s' _ Hfill). rewrite Hsz1 in Hsz, Hk'.
    split_and!; try done. by eapply rtc_trans.
Qed.
End FillLemmas.

Section Liveness.
Context {T : Type} `{!Tile.Intf T, !Tile.Laws T}.
Implicit Types (s : store T).

(** C10: on a reachable store, a driver that keeps adding random tiles
    to a grid with [k] empty cells fills it: whatever the draws of
    [Math.random()], its first [k] adds succeed and the later ones find
    the board full, the store stays reachable, and [cellsAvailable()]
    is then [false]. *)
Theorem reachable_fill_full s self g ds cells :
  reachable s → grid_at s self = Some g → availableCells self s = Some (cells, s) →
  draws_ok ds → (length cells ≤ length ds)%nat →
  ∃ s', fill self ds s =
      Some (replicate (length cells) true ++ replicate (length ds - length cells) false, s') ∧
    reachable s' ∧ cellsAvailable self s' = Some (false, s').
Proof.
  intros Hr Hg Ha Hds Hlen. destruct (steps_inv _ _ Hr init_inv) as [Hwf Hgr].
  destruct (Hgr self g Hg) as [Hinv Hsize].
  rewrite (availableCells_abs s self g Hinv Hg) in Ha. injection Ha as <-.
  destruct (fill_run s self g ds _ Hwf Hinv Hg Hsize Hds eq_refl)
    as (s' & g' & Hfill & Hg' & Hsz & Hinv' & _ & Hsteps & Hk).
  exists s'. rewrite Nat.min_l in Hfill by done. split_and!; [done| |].
  - eapply rtc_trans; [exact Hr|by apply op_steps_steps].
  - unfold cellsAvailable. rewrite (st_bind_run _ _ s' s' _ (availableCells_abs s' self g' Hinv' Hg')).
    rewrite Hsz, Hk. by replace (_ - _)%nat with 0%nat by lia.
Qed.
End Liveness.

(** The empty cells of [ex_reach3]: all but [(1, 2)]. *)
Definition ex_reach_free : list (Z * Z) :=
  Eval vm_compute in default [] (fst <$> availableCells 0%N ex_reach3).

(** Sixteen draws of [1/2], each adding a tile of log value [1]. *)
Definition ex_draws : list (Q * Z) := replicate 16 ((1 # 2)%Q, 1%Z).

Lemma reachable_fill_full_witness :
  reachable ex_reach3 ∧ grid_at ex_reach3 0%N = Some ex_reach_grid ∧
  availableCells 0%N ex_reach3 = Some (ex_reach_free, ex_reach3) ∧
  draws_ok ex_draws ∧ (length ex_reach_free ≤ length ex_draws)%nat ∧
  ∃ s', fill 0%N ex_draws ex_reach3 =
      Some (replicate 15 true ++ [false], s') ∧
    reachable s' ∧ cellsAvailable 0%N s' = Some (false, s').
Proof.
  assert (grid_at ex_reach3 0%N = Some ex_reach_grid) as Hg by reflexivity.
  assert (availableCells 0%N ex_reach3 = Some (ex_reach_free, ex_reach3)) as Ha
    by (vm_compute; reflexivity).
  assert (draws_ok ex_draws) as Hds.
  { apply Forall_replicate. split; vm_compute; [intros [=]|reflexivity]. }
  assert (length ex_reach_free ≤ length ex_draws)%nat as Hlen by (vm_compute; lia).
  split_and!; [exact ex_reach3_reachable|done..|].
  exact (reachable_fill_full ex_reach3 0%N ex_reach_grid ex_draws ex_reach_free
           ex_reach3_reachable Hg Ha Hds Hlen).
Defined.
