(* ===== verification/Lookahead.v ===== *)
(** * Look-ahead on copies and restored snapshots

    The spec names [clone] the mechanism for look-ahead ("AI search")
    without mutating the live board, and [serialize] with [new Grid(size,
    cells)] the way a game is persisted and restored.  This file composes
    [Observe] (grids with the same board), [Refine] (call sequences
    simulated on the abstract board) and [Snapshot] ([clone], [serialize],
    the rebuild): two well-formed grids with the same board answer every
    sequence of [insertTile], [removeTile], [getScore] and
    [availableCells] calls with the same results and stay equivalent
    ([run_ops_board_equiv], a bisimulation); hence a sequence run on the
    copy [clone] returns, or on the grid restored from a snapshot, returns
    what the same sequence returns on the original, and leaves the
    original grid and its tiles as they were. *)

From S2P Require Import Prelude Tile Objects Construct Cells Score Snapshot Observe Machine Refine.

Section Lookahead.
Context {T : Type} `{!Tile.Intf T, !Tile.Laws T}.
Implicit Types (s : store T) (g : Grid.t).

(** The value of a cell is read off its serialized form. *)
Lemma value_at_ser s g p :
  value_at s g p = TileState.logValue <$> ser_cell s (cell_of g p.1 p.2).
Proof. by rewrite ser_cell_logValue. Qed.

(** On a well-formed grid a cell serializes to its own coordinates and
    its value. *)
Lemma ser_cell_value s g x y :
  grid_inv s g → ser_cell s (cell_of g x y) = TileState.mk (x, y) <$> value_at s g (x, y).
Proof.
  intros [_ Hpos]. unfold ser_cell, value_at. simpl.
  destruct (cell_of g x y) as [l|] eqn:Hc; [|done]. simpl.
  destruct (Hpos x y l Hc) as (t & Ht & <- & <-). rewrite Ht. simpl.
  by rewrite Tile.serialize_spec.
Qed.

(** Well-formed grids have the same board exactly when they have the
    same size and the same abstract board. *)
Lemma board_equiv_abs s g s' g' :
  board_equiv (s, g) (s', g') ↔
    grid_inv s g ∧ grid_inv s' g' ∧ Grid.size g' = Grid.size g ∧ abs s' g' = abs s g.
Proof.
  split.
  - intros Heq. pose proof Heq as (Hi & Hi' & Hs & _). simpl in Hi, Hi', Hs.
    split_and!; [done..|].
    apply map_eq. intros [x y]. rewrite !abs_lookup, Hs. case_decide as Hin; [|done].
    apply coords_elem in Hin as [Hx Hy]. rewrite !value_at_ser. simpl in *.
    pose proof (board_equiv_cell (s, g) (s', g') x y Heq Hx Hy) as Hc. simpl in Hc.
    by rewrite Hc.
  - intros (Hi & Hi' & Hs & Habs). split_and!; [done..|]. simpl.
    apply board_ext; [done|]. intros x y Hx Hy.
    rewrite !ser_cell_value by done. f_equal.
    assert ((x, y) ∈ coords (Grid.size g)) as Hin by (by apply coords_elem).
    pose proof (f_equal (.!! (x, y)) Habs) as Hxy. simpl in Hxy.
    by rewrite !abs_lookup, Hs, !decide_True in Hxy.
Qed.

(** A store that keeps the tiles of [s] keeps the calls a sequence
    names. *)
Lemma op_ok_extends s s' n o :
  extends s s' → ops_ok s n [o] = true → ops_ok s' n [o] = true ∧ abs_op s' o = abs_op s o.
Proof.
  intros Hext Ho. destruct o as [l|l|d|]; simpl in *; try done.
  all: destruct (tile_at s l) as [t|] eqn:Ht; [|done]; by rewrite (tile_at_extends s s' l t Hext Ht).
Qed.

Lemma ops_ok_extends s s' n os :
  extends s s' → ops_ok s n os = true →
  ops_ok s' n os = true ∧ abs_op s' <$> os = abs_op s <$> os.
Proof.
  intros Hext. induction os as [|o os IH]; [done|].
  rewrite ops_ok_cons, (ops_ok_cons s'). intros [Ho Hos]%andb_true_iff.
  destruct (op_ok_extends s s' n o Hext Ho) as [-> Hop]. destruct (IH Hos) as [-> Hops].
  by rewrite !fmap_cons, Hop, Hops.
Qed.

(** The calls on another grid leave a grid and the tiles of a store
    that did not hold that grid. *)
Lemma frame_grid_at self s s' l : frame self s s' → l ≠ self → grid_at s' l = grid_at s l.
Proof. intros Hfr Hl. unfold grid_at. by rewrite Hfr. Qed.

Lemma frame_tile_at self s s' l : frame self s s' → l ≠ self → tile_at s' l = tile_at s l.
Proof. intros Hfr Hl. unfold tile_at. by rewrite Hfr. Qed.

Lemma fresh_ne s ng l : heap s !! ng = None → is_Some (heap s !! l) → l ≠ ng.
Proof. intros Hng [o Hl] ->. congruence. Qed.

(** Equivalent grids answer the same call sequence alike and stay
    equivalent: [board_equiv] is a bisimulation for [run_ops]. *)
Lemma run_ops_board_equiv s g self s' g' self' os :
  board_equiv (s, g) (s', g') → grid_at s self = Some g → grid_at s' self' = Some g' →
  (Grid.size g ≤ js_max_length)%Z → ops_ok s (Grid.size g) os = true →
  ops_ok s' (Grid.size g) os = true → abs_op s' <$> os = abs_op s <$> os →
  ∃ rs s1 g1 s1' g1', run_ops self os s = Some (rs, s1) ∧ run_ops self' os s' = Some (rs, s1') ∧
    grid_at s1 self = Some g1 ∧ grid_at s1' self' = Some g1' ∧
    board_equiv (s1, g1) (s1', g1') ∧ frame self s s1 ∧ frame self' s' s1'.
Proof.
  intros Heq Hg Hg' Hsize Hok Hok' Hops.
  pose proof Heq as (Hinv & Hinv' & Hs & Habs)%board_equiv_abs.
  destruct (run_ops_sim s self g os)
    as (rs & s1 & g1 & Hrun & Hg1 & Hinv1 & Hsz1 & _ & Hfr & Hsim); [done..|].
  destruct (run_ops_sim s' self' g' os)
    as (rs' & s1' & g1' & Hrun' & Hg1' & Hinv1' & Hsz1' & _ & Hfr' & Hsim');
    [done|done|lia|by rewrite Hs|].
  rewrite Hs, Hops, Habs, <-Hsim in Hsim'. injection Hsim' as -> Habs1.
  exists rs, s1, g1, s1', g1'. split_and!; [done..| |done|done].
  apply board_equiv_abs. split_and!; [done|done|congruence|done].
Qed.

(** A grid [ng] with the board of [g], allocated in a store that keeps
    every object of [s], answers every call sequence as [g] does, and
    the sequence run on [ng] leaves [g] and the tiles of [s] alone. *)
Lemma lookahead_fresh s self g s1 ng g1 os :
  grid_inv s g → grid_at s self = Some g → (Grid.size g ≤ js_max_length)%Z →
  ops_ok s (Grid.size g) os = true → extends s s1 → heap s !! ng = None →
  grid_at s1 ng = Some g1 → board_equiv (s, g) (s1, g1) →
  ∃ rs s2 s3, run_ops self os s = Some (rs, s2) ∧ run_ops ng os s1 = Some (rs, s3) ∧
    grid_at s3 self = Some g ∧ ∀ l t, tile_at s l = Some t → tile_at s3 l = Some t.
Proof.
  intros Hinv Hg Hsize Hok Hext Hng Hg1 Heq.
  destruct (ops_ok_extends s s1 _ os Hext Hok) as [Hok1 Hops].
  destruct (run_ops_board_equiv s g self s1 g1 ng os)
    as (rs & s2 & g2 & s3 & g3 & Hrun & Hrun1 & _ & _ & _ & _ & Hfr); [done..|].
  exists rs, s2, s3. split_and!; [done|done| |].
  - rewrite (frame_grid_at ng s1 s3) by (done || (apply (fresh_ne s); [done|apply elem_of_dom; by eapply grid_at_dom])).
    by apply (grid_at_extends s s1).
  - intros l t Ht. rewrite (frame_tile_at ng s1 s3); [by apply (tile_at_extends s s1)|done|].
    apply (fresh_ne s); [done|]. unfold tile_at in Ht. destruct (heap s !! l); [done|congruence].
Qed.
End Lookahead.

Section Claims.
Context {T : Type} `{!Tile.Intf T, !Tile.Laws T}.
Implicit Types (s : store T) (g : Grid.t).

(** C13: look-ahead on a copy is faithful: for every sequence of
    [insertTile], [removeTile], [getScore] and [availableCells] calls on
    tiles of the board, running it on the grid [clone] returns gives the
    results the same sequence gives on the original, and leaves the
    original grid and every tile of the original store unchanged. *)
Theorem clone_lookahead s self g os :
  store_wf s → grid_inv s g → grid_at s self = Some g → (Grid.size g ≤ js_max_length)%Z →
  ops_ok s (Grid.size g) os = true →
  ∃ ng s1, clone self s = Some (ng, s1) ∧
    ∃ rs s2 s3, run_ops self os s = Some (rs, s2) ∧ run_ops ng os s1 = Some (rs, s3) ∧
      grid_at s3 self = Some g ∧ ∀ l t, tile_at s l = Some t → tile_at s3 l = Some t.
Proof.
  intros Hwf Hinv Hg Hsize Hok.
  destruct (clone_board s self g)
    as (ng & s1 & g1 & Hcl & Hg1 & _ & Hinv1 & Hsz & _ & _ & Hb & _ & Hext & Hfresh); [done..|].
  exists ng, s1. split; [done|].
  by apply (lookahead_fresh s self g s1 ng g1 os).
Qed.

(** C14: a game restored from a snapshot continues as the original: the
    grid [new Grid(snapshot.size, snapshot.cells)] rebuilt from what
    [serialize] returns answers every call sequence on tiles of the board
    with the results the original grid gives, and leaves the original
    grid and its tiles as they were. *)
Theorem snapshot_lookahead s self g snap s1 os :
  store_wf s → grid_inv s g → grid_at s self = Some g → (Grid.size g ≤ js_max_length)%Z →
  ops_ok s (Grid.size g) os = true → serialize self s = Some (snap, s1) →
  ∃ ng s2, new_Grid (snap_size snap) (Some (snap_cells snap)) s1 = Some (ng, s2) ∧
    ∃ rs s3 s4, run_ops self os s = Some (rs, s3) ∧ run_ops ng os s2 = Some (rs, s4) ∧
      grid_at s4 self = Some g ∧ ∀ l t, tile_at s l = Some t → tile_at s4 l = Some t.
Proof.
  intros Hwf Hinv Hg Hsize Hok Hser. rewrite (serialize_run _ _ _ Hinv Hg) in Hser.
  injection Hser as <- <-. simpl.
  destruct (new_Grid_board s g) as (ng & s2 & g2 & Hrun & Hfresh & Hext & Hg2 & Hinv2 & Hsz & Hb);
    [done..|].
  exists ng, s2. split; [done|].
  by apply (lookahead_fresh s self g s2 ng g2 os).
Qed.
End Claims.

Lemma ex_store_lookahead_hyps :
  store_wf ex_store ∧ grid_inv ex_store ex_grid ∧ grid_at ex_store 0%N = Some ex_grid ∧
  (Grid.size ex_grid ≤ js_max_length)%Z ∧ ops_ok ex_store (Grid.size ex_grid) ex_ops = true.
Proof.
  destruct ex_store_clone_hyps as (Hwf & Hinv & Hg & Hsize). split_and!; [done..|reflexivity].
Qed.

Lemma clone_lookahead_witness :
  store_wf ex_store ∧ grid_inv ex_store ex_grid ∧ grid_at ex_store 0%N = Some ex_grid ∧
  (Grid.size ex_grid ≤ js_max_length)%Z ∧ ops_ok ex_store (Grid.size ex_grid) ex_ops = true ∧
  ∃ ng s1, clone 0%N ex_store = Some (ng, s1) ∧
    ∃ rs s2 s3, run_ops 0%N ex_ops ex_store = Some (rs, s2) ∧ run_ops ng ex_ops s1 = Some (rs, s3) ∧
      grid_at s3 0%N = Some ex_grid ∧
      ∀ l t, tile_at ex_store l = Some t → tile_at s3 l = Some t.
Proof.
  destruct ex_store_lookahead_hyps as (Hwf & Hinv & Hg & Hsize & Hok).
  split_and!; [done..|].
  exact (clone_lookahead ex_store 0%N ex_grid ex_ops Hwf Hinv Hg Hsize Hok).
Defined.

Lemma snapshot_lookahead_witness :
  store_wf ex_store ∧ grid_inv ex_store ex_grid ∧ grid_at ex_store 0%N = Some ex_grid ∧
  (Grid.size ex_grid ≤ js_max_length)%Z ∧ ops_ok ex_store (Grid.size ex_grid) ex_ops = true ∧
  serialize 0%N ex_store = Some (mkSnapshot 4 (board ex_store ex_grid), ex_store) ∧
  ∃ ng s2, new_Grid 4 (Some (board ex_store ex_grid)) ex_store = Some (ng, s2) ∧
    ∃ rs s3 s4, run_ops 0%N ex_ops ex_store = Some (rs, s3) ∧ run_ops ng ex_ops s2 = Some (rs, s4) ∧
      grid_at s4 0%N = Some ex_grid ∧
      ∀ l t, tile_at ex_store l = Some t → tile_at s4 l = Some t.
Proof.
  destruct ex_store_lookahead_hyps as (Hwf & Hinv & Hg & Hsize & Hok).
  assert (serialize 0%N ex_store = Some (mkSnapshot 4 (board ex_store ex_grid), ex_store)) as Hs
    by (vm_compute; reflexivity).
  split_and!; [done..|].
  exact (snapshot_lookahead ex_store 0%N ex_grid _ ex_store ex_ops Hwf Hinv Hg Hsize Hok Hs).
Defined.
